(** * PriceTrackGo: the product-catalog store and its refresh engine

    A shallow embedding of the two Go sources of the repository:

    - [Main]     : backend/mongo.go (package main, methods on [*MongoDB]);
    - [Database] : the database package (functions over the global [DB]).

    The MongoDB server, the scrapers, [strconv.ParseFloat], the clock and
    the standard output are outside the repository.  The server is modelled
    as a finite map from collection names to lists of documents, the
    scrapers and the failures of the driver as oracles gathered in [Env],
    the log and the standard output as a trace of events.

    Three distinctions of the platform are kept, because the code runs
    into each of them: a [float64] may be NaN or infinite, a Go slice may
    be nil, and a field of a stored document may hold BSON null (which is
    what the driver writes for a nil slice). *)

From Stdlib Require Import QArith Lqa.
From stdpp Require Import gmap strings list.

Set Default Proof Using "Type".

(** ** Go values *)

(** A Go [error]: the sentinel [mongo.ErrNoDocuments], or any other error
    with its message. *)
Inductive error : Type :=
| ErrNoDocuments
| Err (msg : string).

Definition Error (e : error) : string :=
  match e with
  | ErrNoDocuments => "mongo: no documents in result"
  | Err msg => msg
  end.

#[global] Instance error_eq_dec : EqDecision error.
Proof. solve_decision. Defined.

(** [err != nil] *)
Definition is_err (e : option error) : bool :=
  match e with Some _ => true | None => false end.

(** A [float64]: not-a-number, an infinity, or a number.  The numbers are
    read as the rationals they denote (both zeros as 0); the sources only
    compare them, with [==], [<] and [>], and never compute with them. *)
Inductive float64 : Type :=
| NaN
| Inf (negative : bool)
| Num (q : Q).

Coercion Num : Q >-> float64.

(** [x == y]: false as soon as one side is NaN. *)
Definition feq (x y : float64) : bool :=
  match x, y with
  | Num p, Num q => Qeq_bool p q
  | Inf a, Inf b => Bool.eqb a b
  | _, _ => false
  end.

(** [x < y]: false as soon as one side is NaN. *)
Definition flt (x y : float64) : bool :=
  match x, y with
  | NaN, _ | _, NaN => false
  | Inf true, Inf true => false
  | Inf true, _ => true
  | _, Inf true => false
  | Inf false, _ => false
  | Num _, Inf false => true
  | Num p, Num q => negb (Qle_bool q p)
  end.

(** [x > y] *)
Definition fgt (x y : float64) : bool := flt y x.

(** A Go slice: [nil] ([None]) or a sequence of elements, which may be
    empty. *)
Definition slice (A : Type) : Type := option (list A).

Definition elems {A : Type} (s : slice A) : list A := default [] s.

(** [strings.Contains(s, substr)] *)
Fixpoint strings_Contains (s substr : string) : bool :=
  String.prefix substr s ||
  match s with
  | EmptyString => false
  | String _ s' => strings_Contains s' substr
  end.

(** [type Price struct] *)
Record Price : Type := mkPrice {
  Value : float64;
  Timestamp : Z
}.

(** ** The document store *)

(** What a document holds under a field name: nothing, BSON null, or a
    value of the type the Go struct declares (a string, a double, an
    array). *)
Inductive bson (A : Type) : Type :=
| Absent
| Null
| Val (a : A).

Arguments Absent {A}.
Arguments Null {A}.
Arguments Val {A} a.

#[global] Instance bson_eq_dec {A : Type} `{EqDecision A} : EqDecision (bson A).
Proof. solve_decision. Defined.

(** Decoding of a field into a Go variable that holds the zero value:
    an absent field leaves it, null sets the zero value again. *)
Definition get {A : Type} (zero : A) (f : bson A) : A :=
  match f with
  | Val a => a
  | Absent | Null => zero
  end.

(** Decoding of an array field into a slice: an array gives a slice that
    is not nil, null and an absent field give nil. *)
Definition get_slice {A : Type} (f : bson (list A)) : slice A :=
  match f with
  | Val l => Some l
  | Absent | Null => None
  end.

(** Encoding of a slice: the driver writes null for nil. *)
Definition put_slice {A : Type} (s : slice A) : bson (list A) :=
  match s with
  | Some l => Val l
  | None => Null
  end.

(** A stored document. *)
Record Document : Type := mkDocument {
  product_url : string;
  product_name : bson string;
  image_url : bson string;
  specifications : bson (list string);
  price_history : bson (list Price);
  min_price : bson float64;
  max_price : bson float64
}.

(** The document an upsert starts from when the filter
    [{product_url: url}] matches nothing. *)
Definition new_document (url : string) : Document :=
  mkDocument url Absent Absent Absent Absent Absent Absent.

Definition with_price_history (h : list Price) (d : Document) : Document :=
  mkDocument (product_url d) (product_name d) (image_url d)
    (specifications d) (Val h) (min_price d) (max_price d).

(** [{"$push": {"price_history": p}}]: the element is appended to the
    array, an absent field becomes an array of one element, and the
    server rejects the update when the field holds something that is not
    an array. *)
Definition push_price (p : Price) (d : Document) : option Document :=
  match price_history d with
  | Val h => Some (with_price_history (h ++ [p]) d)
  | Absent => Some (with_price_history [p] d)
  | Null => None
  end.

(** [{"$set": {"min_price": lo, "max_price": hi}}] *)
Definition set_aggregates (lo hi : float64) (d : Document) : Document :=
  mkDocument (product_url d) (product_name d) (image_url d)
    (specifications d) (price_history d) (Val lo) (Val hi).

Definition matches_url (url : string) (d : Document) : bool :=
  bool_decide (product_url d = url).

(** First document of a collection that matches [{product_url: url}]. *)
Definition find_url (url : string) (c : list Document) : option Document :=
  List.find (matches_url url) c.

(** Update of the first matching document, as [UpdateOne] does. *)
Fixpoint update_first (url : string) (upd : Document -> Document)
    (c : list Document) : list Document :=
  match c with
  | [] => []
  | d :: c' =>
      if matches_url url d then upd d :: c'
      else d :: update_first url upd c'
  end.

(** The filter of the repair pass:
    [$or] of [product_name: ""], [product_name: {$exists: false}],
    [image_url: ""], [image_url: {$exists: false}],
    [specifications: {$size: 0}], [specifications: {$exists: false}]. *)
Definition incomplete_filter (d : Document) : bool :=
  bool_decide (product_name d = Val "")
  || bool_decide (product_name d = Absent)
  || bool_decide (image_url d = Val "")
  || bool_decide (image_url d = Absent)
  || match specifications d with
     | Val l => Nat.eqb (length l) 0
     | Absent | Null => false
     end
  || bool_decide (specifications d = Absent).

(** ** Events *)

Inductive Vendor : Type := Flipkart | Amazon.

(** What [log.Printf] and [log.Fatalf] report. *)
Inductive Diagnostic : Type :=
| DecodeFailed (e : error)
| ScrapeFailed (v : Vendor) (url : string) (e : error)
| ParseFailed (priceStr : string) (e : error)
| UnsupportedVendor (url : string)
| UpdatePriceFailed (url : string) (e : error)
| UpdateProductFailed (url : string) (e : error)
| ConnectFailed (e : error)
| FindIncompleteFailed (e : error).

(** Calls on a collection handle. *)
Inductive StoreOp : Type :=
| OpCreateIndex
| OpFindOne (url : string)
| OpFindAll
| OpFindIncomplete
| OpUpdateOne (url : string).

Inductive Event : Type :=
| ScrapePrice (v : Vendor) (url : string)
| ScrapeDetails (url : string)
| Log (d : Diagnostic)
| Println (s : string)
| PrintUpdated (name : string) (price : float64)
| PrintProcessing
| PrintSuccess (url : string)
| Connect (client : nat)
| Ping (client : nat)
| Disconnect (client : nat)
| StoreCall (client : nat) (coll : string) (op : StoreOp).

(** ** The world and the oracles *)

Record World : Type := mkWorld {
  store : gmap string (list Document);
  clock : Z;
  clients : nat
}.

(** The collection of a user; a collection never written is empty. *)
Definition coll (w : World) (name : string) : list Document :=
  default [] (store w !! name).

Definition set_coll (name : string) (c : list Document) (w : World) : World :=
  mkWorld (<[name := c]> (store w)) (clock w) (clients w).

(** The behaviour of everything outside the repository during one call. *)
Record Env : Type := mkEnv {
  ScrapePriceFlipkart : string -> string * option error;
  ScrapePriceAmazon : string -> string * option error;
  ParseFloat : string -> float64 * option error;
  (** failure of [FindOne] other than [ErrNoDocuments], by collection and url *)
  FindOne_fails : string -> string -> option string;
  (** failure of [Find], by collection *)
  Find_fails : string -> option string;
  (** failure of [UpdateOne], by collection and url *)
  UpdateOne_fails : string -> string -> option string;
  (** failure of [Decode] on a stored document *)
  Decode_fails : Document -> option string;
  (** failure of [mongo.Connect], by uri *)
  Connect_fails : string -> option string;
  Ping_fails : option string;
  CreateIndex_fails : string -> option string
}.

(** ** Computations: state, then the events emitted *)

Definition IO (A : Type) : Type := World -> A * World * list Event.

#[global] Instance IO_ret : MRet IO := fun A a w => (a, w, []).
#[global] Instance IO_bind : MBind IO := fun A B f m w =>
  let '(a, w1, t1) := m w in
  let '(b, w2, t2) := f a w1 in
  (b, w2, t1 ++ t2).

Definition emit (e : Event) : IO unit := fun w => (tt, w, [e]).
Definition get_coll (name : string) : IO (list Document) :=
  fun w => (coll w name, w, []).
Definition put_coll (name : string) (c : list Document) : IO unit :=
  fun w => (tt, set_coll name c w, []).

(** [time.Now()]: reads the clock, which moves on. *)
Definition time_Now : IO Z :=
  fun w => (clock w, mkWorld (store w) (clock w + 1) (clients w), []).

(** [for cursor.Next(ctx) { body }] over the documents of a cursor. *)
Fixpoint for_each {A : Type} (items : list A) (body : A -> IO unit) : IO unit :=
  match items with
  | [] => mret tt
  | x :: rest => body x ;; for_each rest body
  end.

Definition result {A} (r : A * World * list Event) : A := r.1.1.
Definition world {A} (r : A * World * list Event) : World := r.1.2.
Definition events {A} (r : A * World * list Event) : list Event := r.2.

(** ** The driver calls the sources make *)

Section Driver.
Variable E : Env.

(** [fmt.Errorf(prefix + "%v", err)] *)
Definition Errorf (prefix : string) (e : error) : error :=
  Err (prefix +:+ Error e).

(** [c.FindOne(ctx, bson.M{"product_url": url}).Decode(&doc)]:
    the first matching document, [ErrNoDocuments] when there is none. *)
Definition FindOne (client : nat) (name url : string)
    : IO (option Document * option error) :=
  emit (StoreCall client name (OpFindOne url)) ;;
  match FindOne_fails E name url with
  | Some msg => mret (None, Some (Err msg))
  | None =>
      c ← get_coll name;
      match find_url url c with
      | None => mret (None, Some ErrNoDocuments)
      | Some d =>
          match Decode_fails E d with
          | Some msg => mret (None, Some (Err msg))
          | None => mret (Some d, None)
          end
      end
  end.

(** The error of the server for an update it cannot apply to the
    document. *)
Definition WriteException : error :=
  Err "write exception: the field must be an array".

(** [c.UpdateOne(ctx, bson.M{"product_url": url}, update, opts)]:
    the update is applied to the first matching document; when nothing
    matches, the document is inserted if [upsert] is set, and otherwise
    nothing is written and no error is returned.  An update the server
    cannot apply ([None]) is an error and writes nothing. *)
Definition UpdateOne (client : nat) (name url : string)
    (update : Document -> option Document) (upsert : bool) : IO (option error) :=
  emit (StoreCall client name (OpUpdateOne url)) ;;
  match UpdateOne_fails E name url with
  | Some msg => mret (Some (Err msg))
  | None =>
      c ← get_coll name;
      match find_url url c with
      | Some d =>
          match update d with
          | Some d' => put_coll name (update_first url (fun _ => d') c) ;; mret None
          | None => mret (Some WriteException)
          end
      | None =>
          if upsert then
            match update (new_document url) with
            | Some d' => put_coll name (c ++ [d']) ;; mret None
            | None => mret (Some WriteException)
            end
          else mret None
      end
  end.

(** [c.Find(ctx, filter)]: the cursor holds the matching documents. *)
Definition Find (client : nat) (name : string) (op : StoreOp)
    (filter : Document -> bool) : IO (list Document * option error) :=
  emit (StoreCall client name op) ;;
  match Find_fails E name with
  | Some msg => mret ([], Some (Err msg))
  | None => c ← get_coll name; mret (List.filter filter c, None)
  end.

(** [mongo.Connect]: a new client. *)
Definition mongo_Connect (uri : string) : IO (nat * option error) :=
  fun w =>
    let c := clients w in
    ((c, Err <$> Connect_fails E uri),
     mkWorld (store w) (clock w) (S c), [Connect c]).

End Driver.

(** * backend/mongo.go *)

Module Main.

(** [type Product struct] *)
Record Product : Type := mkProduct {
  ProductURL : string;
  ProductName : string;
  ImageURL : string;
  Specifications : slice string;
  PriceHistory : slice Price
}.

(** [type MongoDB struct]: the client and the name of the collection the
    handle was opened for (the database is always "price_tracker"). *)
Record MongoDB : Type := mkMongoDB {
  client : nat;
  collection : string
}.

(** The result of a function that may end the process with [log.Fatalf]. *)
Inductive Outcome : Type :=
| Return (err : option error)
| Exit.

(** [var p Product; Decode(&p)] *)
Definition decode (d : Document) : Product :=
  mkProduct (product_url d)
    (get "" (product_name d))
    (get "" (image_url d))
    (get_slice (specifications d))
    (get_slice (price_history d)).

Definition zero : Product := mkProduct "" "" "" None None.

(** [bson.M{"$set": product}]: the five fields of the struct are written,
    a nil slice as null. *)
Definition set_product (p : Product) (d : Document) : Document :=
  mkDocument (ProductURL p)
    (Val (ProductName p))
    (Val (ImageURL p))
    (put_slice (Specifications p))
    (put_slice (PriceHistory p))
    (min_price d) (max_price d).

Definition with_history (p : Product) (h : slice Price) : Product :=
  mkProduct (ProductURL p) (ProductName p) (ImageURL p) (Specifications p) h.

Section Methods.
Variable E : Env.
(** [scrapeProductDetails], of the same package but of another file:
    the product it returns, or its error. *)
Variable scrapeProductDetails : string -> Product + error.
(** [MongoURI], a constant of the same package but of another file. *)
Variable MongoURI : string.

Definition NewMongoDB (uri : string) (username : string) : IO (MongoDB + error) :=
  '(c, err) ← mongo_Connect E uri;
  match err with
  | Some e => mret (inr e)
  | None =>
      emit (Ping c) ;;
      match Ping_fails E with
      | Some msg => mret (inr (Err msg))
      | None =>
          emit (StoreCall c username OpCreateIndex) ;;
          match CreateIndex_fails E username with
          | Some msg => mret (inr (Err msg))
          | None => mret (inl (mkMongoDB c username))
          end
      end
  end.

(** The product after the call is returned too: the method writes
    [product.PriceHistory] through the pointer. *)
Definition UpsertProduct (m : MongoDB) (product : Product)
    : IO (Product * option error) :=
  '(found, err) ← FindOne E (client m) (collection m) (ProductURL product);
  let existingProduct := from_option decode zero found in
  if is_err err && negb (bool_decide (err = Some ErrNoDocuments)) then
    mret (product,
          Some (Errorf "error checking existing product: " (default ErrNoDocuments err)))
  else
    let product :=
      if negb (bool_decide (err = Some ErrNoDocuments))
      then with_history product (PriceHistory existingProduct)
      else product in
    err ← UpdateOne E (client m) (collection m) (ProductURL product)
            (fun d => Some (set_product product d)) true;
    mret (product, err).

Definition AddPrice (m : MongoDB) (productURL : string) (price : float64)
    : IO (option error) :=
  now ← time_Now;
  let newPrice := mkPrice price now in
  UpdateOne E (client m) (collection m) productURL (push_price newPrice) false.

Definition GetProduct (m : MongoDB) (productURL : string)
    : IO (option Product * option error) :=
  '(found, err) ← FindOne E (client m) (collection m) productURL;
  match err with
  | Some e => mret (None, Some e)
  | None => mret (Some (from_option decode zero found), None)
  end.

Definition Close (m : MongoDB) : IO unit := emit (Disconnect (client m)).

(** The end of an iteration of [UpdatePrices]: the new price entry and
    the [$push]. *)
Definition push_current (m : MongoDB) (product : Product)
    (currentPrice : float64) : IO unit :=
  now ← time_Now;
  let newPrice := mkPrice currentPrice now in
  err ← UpdateOne E (client m) (collection m) (ProductURL product)
          (push_price newPrice) false;
  match err with
  | Some e => emit (Log (UpdatePriceFailed (ProductURL product) e))
  | None => emit (PrintUpdated (ProductName product) currentPrice)
  end.

(** One iteration of the loop of [UpdatePrices]; every [continue] ends it. *)
Definition UpdatePrices_item (m : MongoDB) (d : Document) : IO unit :=
  match Decode_fails E d with
  | Some msg => emit (Log (DecodeFailed (Err msg)))
  | None =>
      let product := decode d in
      if strings_Contains (ProductURL product) "flipkart" then
        emit (ScrapePrice Flipkart (ProductURL product)) ;;
        let '(priceStr, err) := ScrapePriceFlipkart E (ProductURL product) in
        match err with
        | Some e => emit (Log (ScrapeFailed Flipkart (ProductURL product) e))
        | None =>
            let '(currentPrice, err) := ParseFloat E priceStr in
            match err with
            | Some e => emit (Log (ParseFailed priceStr e))
            | None => push_current m product currentPrice
            end
        end
      else if strings_Contains (ProductURL product) "amazon" then
        emit (ScrapePrice Amazon (ProductURL product)) ;;
        let '(priceStr, err) := ScrapePriceAmazon E (ProductURL product) in
        match err with
        | Some e => emit (Log (ScrapeFailed Amazon (ProductURL product) e))
        | None =>
            let '(currentPrice, err) := ParseFloat E priceStr in
            match err with
            | Some e => emit (Log (ParseFailed priceStr e))
            | None => push_current m product currentPrice
            end
        end
      else emit (Log (UnsupportedVendor (ProductURL product)))
  end.

Definition UpdatePrices (m : MongoDB) : IO (option error) :=
  '(cursor, err) ← Find E (client m) (collection m) OpFindAll (fun _ => true);
  match err with
  | Some e => mret (Some (Errorf "failed to find products: " e))
  | None =>
      for_each cursor (UpdatePrices_item m) ;;
      mret None
  end.

(** One iteration of the loop of [UpdateIncompleteRecords]. *)
Definition UpdateIncompleteRecords_item (db : MongoDB) (d : Document)
    : IO unit :=
  match Decode_fails E d with
  | Some msg => emit (Log (DecodeFailed (Err msg)))
  | None =>
      let product := decode d in
      let url := ProductURL product in
      emit (ScrapeDetails url) ;;
      match scrapeProductDetails url with
      | inr e => emit (Log (UpdateProductFailed (ProductURL product) e))
      | inl updatedProduct =>
          '(_, err) ← UpsertProduct db updatedProduct;
          match err with
          | Some e => emit (Log (UpdateProductFailed (ProductURL product) e))
          | None => emit (PrintSuccess (ProductURL product))
          end
      end
  end.

(** The receiver [m] is not used by the body: the method opens its own
    handle [db] on the collection "cypher".  [log.Fatalf] ends the
    process, and the deferred [db.Close()] runs on return only. *)
Definition UpdateIncompleteRecords (m : MongoDB) : IO Outcome :=
  r ← NewMongoDB MongoURI "cypher";
  match r with
  | inr e => emit (Log (ConnectFailed e)) ;; mret Exit
  | inl db =>
      emit PrintProcessing ;;
      '(cursor, err) ← Find E (client db) (collection db) OpFindIncomplete
                         incomplete_filter;
      match err with
      | Some e => emit (Log (FindIncompleteFailed e)) ;; mret Exit
      | None =>
          for_each cursor (UpdateIncompleteRecords_item db) ;;
          Close db ;;
          mret (Return None)
      end
  end.

End Methods.

End Main.

(** * The database package *)

Module Database.

(** Modelled from the spec: the struct [models.Product], whose declaration
    is in the models package and not among the sources.  Its fields are
    those of the persisted document shape of the specification, section 6;
    the functions below read and write [ProductURL], [ProductName],
    [PriceHistory], [MinPrice] and [MaxPrice]. *)
Record Product : Type := mkProduct {
  ProductURL : string;
  ProductName : string;
  ImageURL : string;
  Specifications : slice string;
  PriceHistory : slice Price;
  MinPrice : float64;
  MaxPrice : float64
}.

Inductive Outcome : Type :=
| Return (err : option error)
| Exit.

(** [var p models.Product; Decode(&p)] *)
Definition decode (d : Document) : Product :=
  mkProduct (product_url d)
    (get "" (product_name d))
    (get "" (image_url d))
    (get_slice (specifications d))
    (get_slice (price_history d))
    (get (Num 0) (min_price d))
    (get (Num 0) (max_price d)).

Definition zero : Product := mkProduct "" "" "" None None 0%Q 0%Q.

(** [bson.M{"$set": product}]: every field of the struct is written, a
    nil slice as null. *)
Definition set_product (p : Product) (d : Document) : Document :=
  mkDocument (ProductURL p)
    (Val (ProductName p))
    (Val (ImageURL p))
    (put_slice (Specifications p))
    (put_slice (PriceHistory p))
    (Val (MinPrice p))
    (Val (MaxPrice p)).

Definition with_history (p : Product) (h : slice Price) : Product :=
  mkProduct (ProductURL p) (ProductName p) (ImageURL p) (Specifications p) h
    (MinPrice p) (MaxPrice p).

Definition with_aggregates (p : Product) (lo hi : float64) : Product :=
  mkProduct (ProductURL p) (ProductName p) (ImageURL p) (Specifications p)
    (PriceHistory p) lo hi.

(** The two [if] statements on [product.MinPrice] and [product.MaxPrice]. *)
Definition new_min (product : Product) (currentPrice : float64) : float64 :=
  if feq (MinPrice product) 0%Q || flt currentPrice (MinPrice product)
  then currentPrice else MinPrice product.

Definition new_max (product : Product) (currentPrice : float64) : float64 :=
  if feq (MaxPrice product) 0%Q || fgt currentPrice (MaxPrice product)
  then currentPrice else MaxPrice product.

Section Functions.
Variable E : Env.
(** The client behind the global [DB], set by [Connect]. *)
Variable DB : nat.
(** [scraper.ScrapeProductDetails]: the product it returns, or its error. *)
Variable ScrapeProductDetails : string -> Product + error.

(** [product] is passed by value: the caller's copy is not changed. *)
Definition UpsertProduct (product : Product) (user : string)
    : IO (option error) :=
  '(found, err) ← FindOne E DB user (ProductURL product);
  let existingProduct := from_option decode zero found in
  if is_err err && negb (bool_decide (err = Some ErrNoDocuments)) then
    mret (Some (Errorf "error checking existing product: "
                  (default ErrNoDocuments err)))
  else
    let product :=
      if negb (bool_decide (err = Some ErrNoDocuments))
      then with_history product (PriceHistory existingProduct)
      else product in
    UpdateOne E DB user (ProductURL product)
      (fun d => Some (set_product product d)) true.

(** From the assignment of the aggregates to the end of the block: the
    single update with [$push] and [$set]. *)
Definition persist (user : string) (product : Product)
    (currentPrice : float64) : IO (Product * option error) :=
  let product :=
    with_aggregates product (new_min product currentPrice)
      (new_max product currentPrice) in
  now ← time_Now;
  let newPrice := mkPrice currentPrice now in
  err ← UpdateOne E DB user (ProductURL product)
          (fun d => set_aggregates (MinPrice product) (MaxPrice product)
                      <$> push_price newPrice d)
          false;
  match err with
  | Some e =>
      emit (Log (UpdatePriceFailed (ProductURL product) e)) ;;
      mret (product, Some e)
  | None =>
      emit (PrintUpdated (ProductName product) currentPrice) ;;
      mret (product, None)
  end.

(** The braces are followed as the compiler reads them, not as the
    indentation suggests: the [if err != nil] that follows the Flipkart
    parse has no closing brace of its own, so the Amazon test is its
    [else if], the unsupported-vendor branch its [else], and everything
    down to the brace before [return nil] belongs to the Flipkart block.
    The product after the call is returned too: the aggregates are
    written through the pointer. *)
Definition UpdatePrices (user : string) (product : Product)
    : IO (Product * option error) :=
  if strings_Contains (ProductURL product) "flipkart" then
    emit (ScrapePrice Flipkart (ProductURL product)) ;;
    let '(priceStr, err) := ScrapePriceFlipkart E (ProductURL product) in
    match err with
    | Some e =>
        emit (Log (ScrapeFailed Flipkart (ProductURL product) e)) ;;
        mret (product, Some e)
    | None =>
        let '(currentPrice, err) := ParseFloat E priceStr in
        match err with
        | Some e =>
            emit (Log (ParseFailed priceStr e)) ;;
            mret (product, Some e)
        | None =>
            if strings_Contains (ProductURL product) "amazon" then
              emit (ScrapePrice Amazon (ProductURL product)) ;;
              let '(priceStr, err) := ScrapePriceAmazon E (ProductURL product) in
              emit (Println priceStr) ;;
              match err with
              | Some e => emit (Log (ScrapeFailed Amazon (ProductURL product) e))
              | None => mret tt
              end ;;
              let '(currentPrice, err) := ParseFloat E priceStr in
              match err with
              | Some e =>
                  emit (Log (ParseFailed priceStr e)) ;;
                  mret (product, Some e)
              | None => persist user product currentPrice
              end
            else
              emit (Log (UnsupportedVendor (ProductURL product))) ;;
              mret (product, None)
        end
    end
  else mret (product, None).

(** One iteration of the loop of [UpdateIncompleteRecords]. *)
Definition UpdateIncompleteRecords_item (user : string) (d : Document)
    : IO unit :=
  match Decode_fails E d with
  | Some msg => emit (Log (DecodeFailed (Err msg)))
  | None =>
      let product := decode d in
      let url := ProductURL product in
      emit (ScrapeDetails url) ;;
      match ScrapeProductDetails url with
      | inr e => emit (Log (UpdateProductFailed (ProductURL product) e))
      | inl updatedProduct =>
          err ← UpsertProduct updatedProduct user;
          match err with
          | Some e => emit (Log (UpdateProductFailed (ProductURL product) e))
          | None => emit (PrintSuccess (ProductURL product))
          end
      end
  end.

Definition UpdateIncompleteRecords (user : string) : IO Outcome :=
  emit PrintProcessing ;;
  '(cursor, err) ← Find E DB user OpFindIncomplete incomplete_filter;
  match err with
  | Some e => emit (Log (FindIncompleteFailed e)) ;; mret Exit
  | None =>
      for_each cursor (UpdateIncompleteRecords_item user) ;;
      mret (Return None)
  end.

End Functions.

End Database.

(** * Specification-level definitions *)

(** I4 of the specification: a product is complete when its name and its
    image are not empty and it has at least one specification.  Written
    on the three fields, as the decoders of both packages fill them. *)
Definition spec_complete (name image : string) (specs : slice string) : Prop :=
  name ≠ "" /\ image ≠ "" /\ (0 < length (elems specs))%nat.

(** The condition on the stored fields that the specification gives for
    [ScanIncomplete]. *)
Definition spec_incomplete_fields (d : Document) : Prop :=
  product_name d = Val "" \/ product_name d = Absent \/
  image_url d = Val "" \/ image_url d = Absent \/
  (exists l, specifications d = Val l /\ length l = 0%nat) \/
  specifications d = Absent.

(** No descriptive field of the document holds null. *)
Definition no_null (d : Document) : Prop :=
  product_name d ≠ Null /\ image_url d ≠ Null /\ specifications d ≠ Null.

(** The lookup of an upsert fails with something else than
    [ErrNoDocuments]: the call itself, or the decoding of the document
    found. *)
Definition lookup_error (E : Env) (name url : string) (w : World)
    : option string :=
  match FindOne_fails E name url with
  | Some msg => Some msg
  | None =>
      match find_url url (coll w name) with
      | Some d => Decode_fails E d
      | None => None
      end
  end.

(** The vendor the loop of mongo.go picks for a url: the first test is on
    "flipkart", the second on "amazon". *)
Definition vendor_of (url : string) : option Vendor :=
  if strings_Contains url "flipkart" then Some Flipkart
  else if strings_Contains url "amazon" then Some Amazon
  else None.

Definition scraper_of (E : Env) (v : Vendor) : string -> string * option error :=
  match v with
  | Flipkart => ScrapePriceFlipkart E
  | Amazon => ScrapePriceAmazon E
  end.

(** The traces of the iterations of a loop, one per item, each iteration
    run from the world the one before left. *)
Fixpoint item_traces {A : Type} (items : list A) (body : A -> IO unit)
    (w : World) : list (list Event) :=
  match items with
  | [] => []
  | x :: rest => events (body x w) :: item_traces rest body (world (body x w))
  end.

(** An event that, when it is a call of the driver, goes through the
    client [c] and, when it is a call on a collection, is on the
    collection [name]. *)
Definition on_session (c : nat) (name : string) (e : Event) : Prop :=
  match e with
  | StoreCall c' name' _ => c' = c /\ name' = name
  | Connect c' | Ping c' | Disconnect c' => c' = c
  | _ => True
  end.

(** A computation that neither reads nor writes the collection [name]:
    run on a world where that collection is replaced by any other, it
    gives the same result and the same events, and the replacement is
    still there at the end. *)
Definition ignores {A : Type} (name : string) (m : IO A) : Prop :=
  forall c w,
    m (set_coll name c w) = (result (m w), set_coll name c (world (m w)), events (m w)).

(** ** Aggregates and history *)

Definition values (h : slice Price) : list float64 := map Value (elems h).

(** [x <= y], as Go compares. *)
Definition fle (x y : float64) : bool := flt x y || feq x y.

(** [lo] is the minimum of [vs]: it equals one of them and is below or
    equal to each. *)
Definition is_min (lo : float64) (vs : list float64) : Prop :=
  Exists (fun v => feq lo v = true) vs /\ Forall (fun v => fle lo v = true) vs.

Definition is_max (hi : float64) (vs : list float64) : Prop :=
  Exists (fun v => feq hi v = true) vs /\ Forall (fun v => fle v hi = true) vs.

(** P3 of the specification on a product: once the history holds a price,
    MinPrice is the least and MaxPrice the greatest of its values. *)
Definition spec_aggregates (p : Database.Product) : Prop :=
  match values (Database.PriceHistory p) with
  | [] => True
  | vs => is_min (Database.MinPrice p) vs /\ is_max (Database.MaxPrice p) vs
  end.

(** A price that is a number, or an infinity, and not the sentinel. *)
Definition plain_price (p : float64) : Prop :=
  p ≠ NaN /\ feq p 0%Q = false.

(** The invariant behind P3: a product without history carries the
    sentinel 0 twice; a product with a history carries the least and the
    greatest of its values, and neither is the sentinel. *)
Definition aggregates_of (h : slice Price) (lo hi : float64) : Prop :=
  match values h with
  | [] => feq lo 0%Q = true /\ feq hi 0%Q = true
  | vs =>
      is_min lo vs /\ is_max hi vs /\ feq lo 0%Q = false /\ feq hi 0%Q = false
  end.

(** It is kept for the products whose history holds neither 0 nor NaN. *)
Definition consistent (p : Database.Product) : Prop :=
  Forall plain_price (values (Database.PriceHistory p)) ->
  aggregates_of (Database.PriceHistory p) (Database.MinPrice p)
    (Database.MaxPrice p).

Definition store_consistent (w : World) : Prop :=
  forall user d, d ∈ coll w user -> consistent (Database.decode d).

(** The same [float64]: [==], or NaN on both sides. *)
Definition same_float (x y : float64) : Prop :=
  feq x y = true \/ (x = NaN /\ y = NaN).

(** The product carries the aggregates of the document stored under its
    url, if there is one. *)
Definition carries_stored_aggregates (w : World) (user : string)
    (p : Database.Product) : Prop :=
  forall d, find_url (Database.ProductURL p) (coll w user) = Some d ->
    same_float (Database.MinPrice p) (Database.MinPrice (Database.decode d)) /\
    same_float (Database.MaxPrice p) (Database.MaxPrice (Database.decode d)).

(** The operations of the database package under which P3 holds: an
    upsert of a product that carries the stored aggregates, or is itself
    consistent when its url is new; a refresh called with the stored
    aggregates. *)
Inductive core_step (w : World) : World -> Prop :=
| step_upsert (E : Env) (DB : nat) (P : Database.Product) (user : string) :
    carries_stored_aggregates w user P ->
    (find_url (Database.ProductURL P) (coll w user) = None -> consistent P) ->
    core_step w (world (Database.UpsertProduct E DB P user w))
| step_refresh (E : Env) (DB : nat) (user : string) (product : Database.Product) :
    carries_stored_aggregates w user product ->
    core_step w (world (Database.UpdatePrices E DB user product w)).

Inductive reachable : World -> Prop :=
| reachable_empty (w : World) : store w = ∅ -> reachable w
| reachable_step (w w' : World) : reachable w -> core_step w w' -> reachable w'.

(** ** Inputs of the examples *)

Module Examples.

(** A price parser that knows the strings of a table and rejects the
    others, as [strconv.ParseFloat] accepts "NaN" and rejects
    "not-a-number". *)
Definition parse_table (t : list (string * float64)) (s : string)
    : float64 * option error :=
  match List.find (fun kv => String.eqb kv.1 s) t with
  | Some kv => (kv.2, None)
  | None => (Num 0, Some (Err "strconv.ParseFloat: invalid syntax"))
  end.

Definition prices : list (string * float64) :=
  [("0", Num 0); ("42", Num 42); ("50", Num 50); ("80", Num 80);
   ("100", Num 100); ("120", Num 120); ("NaN", NaN)].

(** An environment in which no driver call fails and the two price
    scrapers answer [flipkart] and [amazon] for every url. *)
Definition env_with (t : list (string * float64))
    (flipkart amazon : string * option error) : Env :=
  mkEnv (fun _ => flipkart) (fun _ => amazon) (parse_table t)
    (fun _ _ => None) (fun _ => None) (fun _ _ => None) (fun _ => None)
    (fun _ => None) None (fun _ => None).

Definition env : string * option error -> string * option error -> Env :=
  env_with prices.

Definition quiet : Env := env ("", None) ("", None).

Definition empty : World := mkWorld ∅ 0 0.

Definition one_collection (name : string) (c : list Document) : World :=
  mkWorld {[ name := c ]} 0 1.

(** A url of the Flipkart site whose path names an Amazon brand. *)
Definition both_url : string := "https://www.flipkart.com/amazon-basics-cable/p/itm1".
Definition amazon_url : string := "https://amazon.x/p/1".
Definition flipkart_url : string := "https://www.flipkart.com/p/2".
Definition other_url : string := "https://example.com/p".

(** The stored product of scenario 3 of the specification. *)
Definition tracked (url : string) : Document :=
  mkDocument url (Val "A") (Val "i") (Val ["s"])
    (Val [mkPrice 100%Q 1; mkPrice 80%Q 2]) (Val (Num 80)) (Val (Num 100)).

(** The same product as scenario 2 of the specification ingests it
    again: an empty history, no aggregates. *)
Definition rescraped (url : string) : Database.Product :=
  Database.mkProduct url "A2" "i2" (Some ["s2"]) (Some []) 0%Q 0%Q.

Definition rescraped_main (url : string) : Main.Product :=
  Main.mkProduct url "A2" "i2" (Some ["s2"]) (Some []).

(** A product as a scraper hands it over when it found a name and an
    image, and nothing to append to its nil slices. *)
Definition bare (url : string) : Database.Product :=
  Database.mkProduct url "A" "i" None None 0%Q 0%Q.

Definition bare_main (url : string) : Main.Product :=
  Main.mkProduct url "A" "i" None None.

(** A world with the collection of the user "alice", opened by client 0,
    and the collection "cypher", which holds a product that lacks its
    descriptive fields. *)
Definition two_users : World :=
  mkWorld (<["alice" := [tracked flipkart_url]]>
             {[ "cypher" := [new_document amazon_url] ]}) 0 1.

Definition uri : string := "mongodb://localhost:27017".

Definition scrape_details (url : string) : Main.Product + error :=
  inl (rescraped_main url).

(** The product stored under a url, as a caller reads it before a refresh. *)
Definition stored_product (w : World) (user url : string) : Database.Product :=
  from_option Database.decode Database.zero (find_url url (coll w user)).

(** A refresh of the product stored under [both_url] of the user "u", in
    which both scrapers answer [price]. *)
Definition refresh (price : string) (w : World)
    : Database.Product * option error * World * list Event :=
  Database.UpdatePrices (env (price, None) (price, None)) 0 "u"
    (stored_product w "u" both_url) w.

(** The product of scenario 1 of the specification, under a url. *)
Definition fresh_at (url : string) : Database.Product :=
  Database.mkProduct url "A" "i" (Some ["s"]) (Some []) 0%Q 0%Q.

Definition fresh : Database.Product := fresh_at both_url.

End Examples.

(** ** The update of a history *)

(** The document with one more price behind its history, as the decoders
    read it. *)
Definition pushed (p : Price) (d : Document) : Document :=
  with_price_history (get [] (price_history d) ++ [p]) d.

(** The error of an update with [$push] and without upsert: the call of
    the driver fails, or the first document with the url holds null under
    price_history. *)
Definition push_error (E : Env) (name url : string) (c : list Document)
    : option error :=
  match UpdateOne_fails E name url with
  | Some msg => Some (Err msg)
  | None =>
      match find_url url c with
      | Some d =>
          match price_history d with
          | Null => Some WriteException
          | Absent | Val _ => None
          end
      | None => None
      end
  end.

(** ** What the operations leave of the store *)

Definition urls (c : list Document) : list string := map product_url c.

(** No two documents of a collection share a product_url. *)
Definition store_unique (w : World) : Prop :=
  forall name, NoDup (urls (coll w name)).

(** [d'] is [d] after some prices were pushed: the key and the descriptive
    fields are those of [d], the history of [d] is a prefix of that of
    [d']. *)
Definition refreshed (d d' : Document) : Prop :=
  product_url d' = product_url d /\
  product_name d' = product_name d /\
  image_url d' = image_url d /\
  specifications d' = specifications d /\
  get [] (price_history d) `prefix_of` get [] (price_history d').

(** Every collection holds the same documents in the same order, each
    refreshed. *)
Definition only_prices_added (w w' : World) : Prop :=
  forall name, Forall2 refreshed (coll w name) (coll w' name).

(** [d'] is stored under the key of [d] and its history starts with the
    history of [d]. *)
Definition doc_extends (d d' : Document) : Prop :=
  product_url d' = product_url d /\
  get [] (price_history d) `prefix_of` get [] (price_history d').

(** Every collection starts with its old documents, in their order, each
    under its key and with a history that extends the old one; documents
    may have been added behind them. *)
Definition append_only (w w' : World) : Prop :=
  forall name, exists kept added,
    coll w' name = kept ++ added /\ Forall2 doc_extends (coll w name) kept.

(** The two together, as the operations keep them. *)
Definition grows (w w' : World) : Prop :=
  append_only w w' /\ (store_unique w -> store_unique w').

(** The price one iteration of [UpdatePrices] of mongo.go pushes for a
    document, when every step of the iteration succeeds: the decoding,
    the scrape, the parse, and the update, which the server rejects for
    a history that holds null. *)
Definition refresh_price (E : Env) (name : string) (d : Document)
    : option float64 :=
  match Decode_fails E d with
  | Some _ => None
  | None =>
      match vendor_of (product_url d) with
      | None => None
      | Some v =>
          match scraper_of E v (product_url d) with
          | (_, Some _) => None
          | (priceStr, None) =>
              match ParseFloat E priceStr with
              | (_, Some _) => None
              | (p, None) =>
                  match UpdateOne_fails E name (product_url d),
                        price_history d with
                  | None, (Absent | Val _) => Some p
                  | _, _ => None
                  end
              end
          end
      end
  end.

(** The document the repair pass of the database package leaves in the
    place of an incomplete document [d]: [d] itself when a step of the
    iteration fails, and otherwise the scraped product with the history
    of [d]. *)
Definition repaired (E : Env) (scrape : string -> Database.Product + error)
    (user : string) (d : Document) : Document :=
  match Decode_fails E d, scrape (product_url d),
        FindOne_fails E user (product_url d),
        UpdateOne_fails E user (product_url d) with
  | None, inl P, None, None =>
      Database.set_product
        (Database.with_history P (Database.PriceHistory (Database.decode d))) d
  | _, _, _, _ => d
  end.

(** The scraper of details answers for the document [x] with the url it
    was asked for. *)
Definition faithful (scrape : string -> Database.Product + error)
    (x : Document) : Prop :=
  forall P, scrape (product_url x) = inl P -> Database.ProductURL P = product_url x.
(** * Properties *)

(** ** The store and the driver *)

Ltac io_unfold :=
  unfold mbind, mret, IO_bind, IO_ret, emit, get_coll, put_coll, time_Now,
    result, world, events in *.

Lemma coll_set_coll_eq name c w : coll (set_coll name c w) name = c.
Proof. unfold coll, set_coll; simpl. by rewrite lookup_insert_eq. Qed.

Lemma coll_set_coll_ne name name' c w :
  name ≠ name' -> coll (set_coll name c w) name' = coll w name'.
Proof. intros Hne. unfold coll, set_coll; simpl. by rewrite lookup_insert_ne. Qed.

Lemma set_coll_set_coll name c c' w :
  set_coll name c (set_coll name c' w) = set_coll name c w.
Proof. unfold set_coll; simpl. by rewrite insert_insert_eq. Qed.

Lemma matches_url_true url d : matches_url url d = true <-> product_url d = url.
Proof. unfold matches_url. by rewrite bool_decide_eq_true. Qed.

Lemma find_url_Some url c d :
  find_url url c = Some d -> product_url d = url /\ d ∈ c.
Proof.
  unfold find_url. intros H. apply find_some in H as [Hin Hm].
  split; [by apply matches_url_true | by apply list_elem_of_In].
Qed.

Lemma find_url_None url c d :
  find_url url c = None -> d ∈ c -> product_url d ≠ url.
Proof.
  unfold find_url. intros H Hin Heq.
  apply list_elem_of_In in Hin.
  pose proof (find_none _ _ H _ Hin) as Hm.
  apply matches_url_true in Heq. congruence.
Qed.

Lemma find_url_update_first url upd c d :
  find_url url c = Some d ->
  product_url (upd d) = url ->
  find_url url (update_first url upd c) = Some (upd d).
Proof.
  unfold find_url. intros Hf Hu. induction c as [|x c IH]; simpl in *; [done|].
  destruct (matches_url url x) eqn:Hx; simpl.
  - injection Hf as ->. apply matches_url_true in Hu. by rewrite Hu.
  - rewrite Hx. auto.
Qed.

Lemma update_first_None url upd c :
  find_url url c = None -> update_first url upd c = c.
Proof.
  unfold find_url. induction c as [|x c IH]; simpl; [done|].
  destruct (matches_url url x); [done|]. intros H. by rewrite IH.
Qed.

Lemma find_url_app url c x :
  find_url url c = None ->
  find_url url (c ++ [x]) = if matches_url url x then Some x else None.
Proof.
  unfold find_url. induction c as [|y c IH]; simpl; [done|].
  destruct (matches_url url y); [done | auto].
Qed.

Lemma update_first_app url upd c x :
  find_url url c = None -> matches_url url x = true ->
  update_first url upd (c ++ [x]) = c ++ [upd x].
Proof.
  unfold find_url. intros Hn Hx. induction c as [|y c IH]; simpl in *.
  - by rewrite Hx.
  - destruct (matches_url url y); [done|]. by rewrite IH.
Qed.

(** The first matching document is the only one an update touches. *)
Lemma update_first_elem url upd c d' :
  d' ∈ update_first url upd c ->
  d' ∈ c \/ exists d, find_url url c = Some d /\ d' = upd d.
Proof.
  unfold find_url. induction c as [|x c IH]; simpl; [by left|].
  destruct (matches_url url x) eqn:Hx.
  - intros [->|Hin]%elem_of_cons; [right; eauto | left; by apply elem_of_cons; right].
  - intros [->|Hin]%elem_of_cons; [left; by apply elem_of_cons; left|].
    destruct (IH Hin) as [?|?]; [left; by apply elem_of_cons; right | by right].
Qed.

Section DriverFacts.
Variable E : Env.

Lemma FindOne_run cl name url w :
  FindOne E cl name url w =
    (match FindOne_fails E name url with
     | Some msg => (None, Some (Err msg))
     | None =>
         match find_url url (coll w name) with
         | None => (None, Some ErrNoDocuments)
         | Some d =>
             match Decode_fails E d with
             | Some msg => (None, Some (Err msg))
             | None => (Some d, None)
             end
         end
     end, w, [StoreCall cl name (OpFindOne url)]).
Proof.
  unfold FindOne. io_unfold.
  destruct (FindOne_fails E name url); [done|].
  destruct (find_url url (coll w name)) as [d|]; [|done].
  by destruct (Decode_fails E d).
Qed.

(** The update replaces the first matching document. *)
Lemma update_first_const url upd c d :
  find_url url c = Some d ->
  update_first url (fun _ => upd d) c = update_first url upd c.
Proof.
  unfold find_url. induction c as [|x c IH]; simpl; [done|].
  destruct (matches_url url x); [by intros [= ->]|].
  intros H. by rewrite IH.
Qed.

Lemma UpdateOne_run cl name url upd upsert w :
  UpdateOne E cl name url upd upsert w =
    (match UpdateOne_fails E name url with
     | Some msg => Some (Err msg)
     | None =>
         match find_url url (coll w name) with
         | Some d =>
             match upd d with Some _ => None | None => Some WriteException end
         | None =>
             if upsert
             then match upd (new_document url) with
                  | Some _ => None
                  | None => Some WriteException
                  end
             else None
         end
     end,
     match UpdateOne_fails E name url with
     | Some _ => w
     | None =>
         match find_url url (coll w name) with
         | Some d =>
             match upd d with
             | Some d' => set_coll name (update_first url (fun _ => d') (coll w name)) w
             | None => w
             end
         | None =>
             if upsert then
               match upd (new_document url) with
               | Some d' => set_coll name (coll w name ++ [d']) w
               | None => w
               end
             else w
         end
     end, [StoreCall cl name (OpUpdateOne url)]).
Proof.
  unfold UpdateOne. io_unfold.
  destruct (UpdateOne_fails E name url); [done|].
  destruct (find_url url (coll w name)) as [d|].
  - by destruct (upd d).
  - destruct upsert; [|done]. by destruct (upd (new_document url)).
Qed.

(** An update that the server always applies, as [$set] is. *)
Lemma UpdateOne_set_run cl name url upd upsert w :
  UpdateOne E cl name url (fun d => Some (upd d)) upsert w =
    (Err <$> UpdateOne_fails E name url,
     match UpdateOne_fails E name url with
     | Some _ => w
     | None =>
         match find_url url (coll w name) with
         | Some _ => set_coll name (update_first url upd (coll w name)) w
         | None =>
             if upsert
             then set_coll name (coll w name ++ [upd (new_document url)]) w
             else w
         end
     end, [StoreCall cl name (OpUpdateOne url)]).
Proof.
  rewrite UpdateOne_run.
  destruct (UpdateOne_fails E name url); [done|].
  destruct (find_url url (coll w name)) as [d|] eqn:Hd.
  - by rewrite (update_first_const _ upd _ _ Hd).
  - by destruct upsert.
Qed.

(** [$push] in one equation: rejected on null, and otherwise the price is
    behind the history as it is decoded. *)
Lemma push_price_cases p d :
  push_price p d =
    match price_history d with
    | Null => None
    | Absent | Val _ => Some (pushed p d)
    end.
Proof. unfold push_price, pushed. by destruct (price_history d). Qed.

Lemma push_price_Some p d d' :
  push_price p d = Some d' -> price_history d ≠ Null /\ d' = pushed p d.
Proof.
  rewrite push_price_cases. by destruct (price_history d); intros [= <-].
Qed.

(** An update that pushes a price and then sets fields, without upsert. *)
Lemma UpdateOne_push_run cl name url p post upd w :
  (forall d, upd d = post <$> push_price p d) ->
  UpdateOne E cl name url upd false w =
    (push_error E name url (coll w name),
     match push_error E name url (coll w name) with
     | Some _ => w
     | None =>
         match find_url url (coll w name) with
         | Some _ =>
             set_coll name
               (update_first url (fun d => post (pushed p d)) (coll w name)) w
         | None => w
         end
     end, [StoreCall cl name (OpUpdateOne url)]).
Proof.
  intros Hupd. rewrite UpdateOne_run. unfold push_error.
  destruct (UpdateOne_fails E name url); [done|].
  destruct (find_url url (coll w name)) as [d|] eqn:Hd; [|done].
  rewrite Hupd, push_price_cases.
  destruct (price_history d) eqn:Hh; simpl; [|done|];
    by rewrite (update_first_const url (fun d => post (pushed p d)) _ _ Hd).
Qed.

Lemma Find_run cl name op flt w :
  Find E cl name op flt w =
    (match Find_fails E name with
     | Some msg => ([], Some (Err msg))
     | None => (List.filter flt (coll w name), None)
     end, w, [StoreCall cl name op]).
Proof. unfold Find. io_unfold. by destruct (Find_fails E name). Qed.

End DriverFacts.

(** The loop runs its body on every item, in order, each iteration from
    the world the one before left. *)
Lemma for_each_cons {A} (x : A) rest body w :
  for_each (x :: rest) body w =
    (tt, world (for_each rest body (world (body x w))),
     events (body x w) ++ events (for_each rest body (world (body x w)))).
Proof.
  simpl. io_unfold.
  destruct (body x w) as [[[] w1] t1]; simpl.
  by destruct (for_each rest body w1) as [[[] w2] t2].
Qed.

Lemma for_each_events_inv {A} (items : list A) body w e :
  e ∈ events (for_each items body w) ->
  exists x w', x ∈ items /\ e ∈ events (body x w').
Proof.
  revert w. induction items as [|x rest IH]; intros w.
  - simpl. io_unfold. simpl. by intros ?%elem_of_nil.
  - rewrite for_each_cons. unfold events at 1; simpl.
    intros [H|H]%elem_of_app.
    + exists x, w. split; [by apply elem_of_cons; left | done].
    + destruct (IH _ H) as (y & w' & Hy & He).
      exists y, w'. split; [by apply elem_of_cons; right | done].
Qed.

Lemma for_each_events_intro {A} (items : list A) body w e x :
  x ∈ items -> (forall w', e ∈ events (body x w')) ->
  e ∈ events (for_each items body w).
Proof.
  intros Hx He. revert w. induction items as [|y rest IH]; intros w.
  - by apply elem_of_nil in Hx.
  - rewrite for_each_cons. unfold events at 1; simpl. apply elem_of_app.
    apply elem_of_cons in Hx as [->|Hx]; [by left | right; by apply IH].
Qed.

(** A property of the world that every iteration keeps is kept by the loop. *)
Lemma for_each_preserves {A} (Inv : World -> Prop) (items : list A) body w :
  (forall x w', Inv w' -> Inv (world (body x w'))) ->
  Inv w -> Inv (world (for_each items body w)).
Proof.
  intros Hb. revert w. induction items as [|x rest IH]; intros w Hw.
  - done.
  - rewrite for_each_cons. unfold world at 1; simpl. apply IH, Hb, Hw.
Qed.

(** ** Upsert: the three ways a call can go *)

Section Upsert.
Variable E : Env.

Lemma Database_UpsertProduct_error DB P user w msg :
  lookup_error E user (Database.ProductURL P) w = Some msg ->
  Database.UpsertProduct E DB P user w =
    (Some (Errorf "error checking existing product: " (Err msg)), w,
     [StoreCall DB user (OpFindOne (Database.ProductURL P))]).
Proof.
  unfold lookup_error, Database.UpsertProduct. io_unfold.
  rewrite FindOne_run. intros H.
  destruct (FindOne_fails E user _); [by injection H as ->|].
  destruct (find_url _ _) as [d|]; [|done].
  destruct (Decode_fails E d); [by injection H as ->|done].
Qed.

Lemma Database_UpsertProduct_found DB P user w d :
  lookup_error E user (Database.ProductURL P) w = None ->
  find_url (Database.ProductURL P) (coll w user) = Some d ->
  Database.UpsertProduct E DB P user w =
    (Err <$> UpdateOne_fails E user (Database.ProductURL P),
     match UpdateOne_fails E user (Database.ProductURL P) with
     | Some _ => w
     | None =>
         set_coll user
           (update_first (Database.ProductURL P)
              (Database.set_product
                 (Database.with_history P
                    (Database.PriceHistory (Database.decode d))))
              (coll w user)) w
     end,
     [StoreCall DB user (OpFindOne (Database.ProductURL P));
      StoreCall DB user (OpUpdateOne (Database.ProductURL P))]).
Proof.
  unfold lookup_error, Database.UpsertProduct. io_unfold.
  rewrite FindOne_run. intros H Hd. rewrite Hd in *.
  destruct (FindOne_fails E user _); [done|].
  destruct (Decode_fails E d); [done|]. simpl.
  rewrite UpdateOne_set_run, Hd. simpl.
  by destruct (UpdateOne_fails E user _).
Qed.

Lemma Database_UpsertProduct_new DB P user w :
  lookup_error E user (Database.ProductURL P) w = None ->
  find_url (Database.ProductURL P) (coll w user) = None ->
  Database.UpsertProduct E DB P user w =
    (Err <$> UpdateOne_fails E user (Database.ProductURL P),
     match UpdateOne_fails E user (Database.ProductURL P) with
     | Some _ => w
     | None =>
         set_coll user
           (coll w user ++
              [Database.set_product P (new_document (Database.ProductURL P))]) w
     end,
     [StoreCall DB user (OpFindOne (Database.ProductURL P));
      StoreCall DB user (OpUpdateOne (Database.ProductURL P))]).
Proof.
  unfold lookup_error, Database.UpsertProduct. io_unfold.
  rewrite FindOne_run. intros H Hd. rewrite Hd in *.
  destruct (FindOne_fails E user _); [done|]. simpl.
  rewrite UpdateOne_set_run, Hd. simpl.
  by destruct (UpdateOne_fails E user _).
Qed.

Lemma Main_UpsertProduct_error m P w msg :
  lookup_error E (Main.collection m) (Main.ProductURL P) w = Some msg ->
  Main.UpsertProduct E m P w =
    ((P, Some (Errorf "error checking existing product: " (Err msg))), w,
     [StoreCall (Main.client m) (Main.collection m)
        (OpFindOne (Main.ProductURL P))]).
Proof.
  unfold lookup_error, Main.UpsertProduct. io_unfold.
  rewrite FindOne_run. intros H.
  destruct (FindOne_fails E _ _); [by injection H as ->|].
  destruct (find_url _ _) as [d|]; [|done].
  destruct (Decode_fails E d); [by injection H as ->|done].
Qed.

Lemma Main_UpsertProduct_found m P w d :
  lookup_error E (Main.collection m) (Main.ProductURL P) w = None ->
  find_url (Main.ProductURL P) (coll w (Main.collection m)) = Some d ->
  let P' := Main.with_history P (Main.PriceHistory (Main.decode d)) in
  Main.UpsertProduct E m P w =
    ((P', Err <$> UpdateOne_fails E (Main.collection m) (Main.ProductURL P)),
     match UpdateOne_fails E (Main.collection m) (Main.ProductURL P) with
     | Some _ => w
     | None =>
         set_coll (Main.collection m)
           (update_first (Main.ProductURL P) (Main.set_product P')
              (coll w (Main.collection m))) w
     end,
     [StoreCall (Main.client m) (Main.collection m)
        (OpFindOne (Main.ProductURL P));
      StoreCall (Main.client m) (Main.collection m)
        (OpUpdateOne (Main.ProductURL P))]).
Proof.
  unfold lookup_error, Main.UpsertProduct. io_unfold.
  rewrite FindOne_run. intros H Hd. rewrite Hd in *.
  destruct (FindOne_fails E _ _); [done|].
  destruct (Decode_fails E d); [done|]. simpl.
  rewrite UpdateOne_set_run, Hd. simpl.
  by destruct (UpdateOne_fails E _ _).
Qed.

Lemma Main_UpsertProduct_new m P w :
  lookup_error E (Main.collection m) (Main.ProductURL P) w = None ->
  find_url (Main.ProductURL P) (coll w (Main.collection m)) = None ->
  Main.UpsertProduct E m P w =
    ((P, Err <$> UpdateOne_fails E (Main.collection m) (Main.ProductURL P)),
     match UpdateOne_fails E (Main.collection m) (Main.ProductURL P) with
     | Some _ => w
     | None =>
         set_coll (Main.collection m)
           (coll w (Main.collection m) ++
              [Main.set_product P (new_document (Main.ProductURL P))]) w
     end,
     [StoreCall (Main.client m) (Main.collection m)
        (OpFindOne (Main.ProductURL P));
      StoreCall (Main.client m) (Main.collection m)
        (OpUpdateOne (Main.ProductURL P))]).
Proof.
  unfold lookup_error, Main.UpsertProduct. io_unfold.
  rewrite FindOne_run. intros H Hd. rewrite Hd in *.
  destruct (FindOne_fails E _ _); [done|]. simpl.
  rewrite UpdateOne_set_run, Hd. simpl.
  by destruct (UpdateOne_fails E _ _).
Qed.

End Upsert.

(** What is decoded into a slice is written back as it was stored, but for
    an absent field, which comes back as null. *)
Lemma get_put_get_slice {A} (f : bson (list A)) :
  get [] (put_slice (get_slice f)) = get [] f.
Proof. by destruct f. Qed.

Lemma put_get_slice_Val {A} (f : bson (list A)) l :
  f = Val l -> put_slice (get_slice f) = Val l.
Proof. by intros ->. Qed.

(** What a call to [UpsertProduct] of the database package leaves of a
    product that was stored: the history, and nothing else of the old
    record when the write succeeds. *)
Lemma Database_UpsertProduct_stored E DB P user w d :
  find_url (Database.ProductURL P) (coll w user) = Some d ->
  let r := Database.UpsertProduct E DB P user w in
  exists d',
    find_url (Database.ProductURL P) (coll (world r) user) = Some d' /\
    get [] (price_history d') = get [] (price_history d) /\
    (forall h, price_history d = Val h -> price_history d' = Val h) /\
    (result r = None ->
       product_name d' = Val (Database.ProductName P) /\
       image_url d' = Val (Database.ImageURL P) /\
       specifications d' = put_slice (Database.Specifications P) /\
       min_price d' = Val (Database.MinPrice P) /\
       max_price d' = Val (Database.MaxPrice P)) /\
    (result r ≠ None -> world r = w /\ d' = d).
Proof.
  intros Hd r. subst r.
  destruct (lookup_error E user (Database.ProductURL P) w) as [msg|] eqn:Hl.
  - rewrite (Database_UpsertProduct_error _ _ _ _ _ _ Hl). unfold result, world; simpl.
    exists d. by repeat split.
  - rewrite (Database_UpsertProduct_found _ _ _ _ _ _ Hl Hd). unfold result, world; simpl.
    destruct (UpdateOne_fails E user _); simpl.
    + exists d. by repeat split.
    + eexists. rewrite coll_set_coll_eq. split.
      * by apply find_url_update_first.
      * simpl. rewrite get_put_get_slice. split; [done|].
        split; [intros h; apply put_get_slice_Val|]. by repeat split.
Qed.

(** [UpsertProduct] of mongo.go writes the five fields of its struct and
    leaves the stored aggregates alone. *)
Lemma Main_UpsertProduct_stored E m P w d :
  find_url (Main.ProductURL P) (coll w (Main.collection m)) = Some d ->
  let r := Main.UpsertProduct E m P w in
  exists d',
    find_url (Main.ProductURL P) (coll (world r) (Main.collection m)) = Some d' /\
    get [] (price_history d') = get [] (price_history d) /\
    (forall h, price_history d = Val h -> price_history d' = Val h) /\
    min_price d' = min_price d /\
    max_price d' = max_price d /\
    ((result r).2 = None ->
       product_name d' = Val (Main.ProductName P) /\
       image_url d' = Val (Main.ImageURL P) /\
       specifications d' = put_slice (Main.Specifications P)) /\
    ((result r).2 ≠ None -> world r = w /\ d' = d).
Proof.
  intros Hd r. subst r.
  destruct (lookup_error E (Main.collection m) (Main.ProductURL P) w) as [msg|] eqn:Hl.
  - rewrite (Main_UpsertProduct_error _ _ _ _ _ Hl). unfold result, world; simpl.
    exists d. by repeat split.
  - rewrite (Main_UpsertProduct_found _ _ _ _ _ Hl Hd). unfold result, world; simpl.
    destruct (UpdateOne_fails E _ _); simpl.
    + exists d. by repeat split.
    + eexists. rewrite coll_set_coll_eq. split.
      * by apply find_url_update_first.
      * simpl. rewrite get_put_get_slice. split; [done|].
        split; [intros h; apply put_get_slice_Val|]. by repeat split.
Qed.

(** C1, as amended.  For a product already present in the store, an upsert
    of a Product with the same product_url leaves the stored price_history
    as it was: the prices are the same, and a stored array is the same
    array (a history that was absent is empty before and after, written
    as null).  A successful upsert sets the descriptive fields from the
    new Product.  The stored min_price and max_price are left as they were
    by the upsert of mongo.go; the upsert of the database package sets them
    to the MinPrice and MaxPrice of the new Product. *)
Theorem C1_upsert_keeps_history
    (E : Env) (DB : nat) (m : Main.MongoDB) (user : string) (w : World)
    (P : Database.Product) (d : Document)
    (PM : Main.Product) (dm : Document) :
  find_url (Database.ProductURL P) (coll w user) = Some d ->
  find_url (Main.ProductURL PM) (coll w (Main.collection m)) = Some dm ->
  (let r := Database.UpsertProduct E DB P user w in
   exists d',
     find_url (Database.ProductURL P) (coll (world r) user) = Some d' /\
     get [] (price_history d') = get [] (price_history d) /\
     (forall h, price_history d = Val h -> price_history d' = Val h) /\
     (result r = None ->
        product_name d' = Val (Database.ProductName P) /\
        image_url d' = Val (Database.ImageURL P) /\
        specifications d' = put_slice (Database.Specifications P) /\
        min_price d' = Val (Database.MinPrice P) /\
        max_price d' = Val (Database.MaxPrice P))) /\
  (let r := Main.UpsertProduct E m PM w in
   exists d',
     find_url (Main.ProductURL PM) (coll (world r) (Main.collection m)) = Some d' /\
     get [] (price_history d') = get [] (price_history dm) /\
     (forall h, price_history dm = Val h -> price_history d' = Val h) /\
     min_price d' = min_price dm /\
     max_price d' = max_price dm /\
     ((result r).2 = None ->
        product_name d' = Val (Main.ProductName PM) /\
        image_url d' = Val (Main.ImageURL PM) /\
        specifications d' = put_slice (Main.Specifications PM))).
Proof.
  intros Hd Hdm. split.
  - destruct (Database_UpsertProduct_stored E DB P user w d Hd)
      as (d' & Hf & Hh & Hv & Hok & _).
    exists d'. by repeat (split; [done|]).
  - destruct (Main_UpsertProduct_stored E m PM w dm Hdm)
      as (d' & Hf & Hh & Hv & Hlo & Hhi & Hok & _).
    exists d'. by repeat (split; [done|]).
Qed.

(** The theorem at the stored product of scenario 3, upserted again with
    new descriptive fields. *)
Lemma C1_upsert_keeps_history_witness :
  let w := Examples.one_collection "u" [Examples.tracked Examples.amazon_url] in
  (let r := Database.UpsertProduct Examples.quiet 0
              (Examples.rescraped Examples.amazon_url) "u" w in
   exists d',
     find_url Examples.amazon_url (coll (world r) "u") = Some d' /\
     get [] (price_history d') = [mkPrice 100%Q 1; mkPrice 80%Q 2] /\
     (forall h, price_history (Examples.tracked Examples.amazon_url) = Val h ->
        price_history d' = Val h) /\
     (result r = None ->
        product_name d' = Val "A2" /\
        image_url d' = Val "i2" /\
        specifications d' = Val ["s2"] /\
        min_price d' = Val (Num 0) /\
        max_price d' = Val (Num 0))) /\
  (let r := Main.UpsertProduct Examples.quiet (Main.mkMongoDB 0 "u")
              (Examples.rescraped_main Examples.amazon_url) w in
   exists d',
     find_url Examples.amazon_url (coll (world r) "u") = Some d' /\
     get [] (price_history d') = [mkPrice 100%Q 1; mkPrice 80%Q 2] /\
     (forall h, price_history (Examples.tracked Examples.amazon_url) = Val h ->
        price_history d' = Val h) /\
     min_price d' = Val (Num 80) /\
     max_price d' = Val (Num 100) /\
     ((result r).2 = None ->
        product_name d' = Val "A2" /\
        image_url d' = Val "i2" /\
        specifications d' = Val ["s2"])).
Proof.
  exact (C1_upsert_keeps_history Examples.quiet 0 (Main.mkMongoDB 0 "u") "u"
           (Examples.one_collection "u" [Examples.tracked Examples.amazon_url])
           (Examples.rescraped Examples.amazon_url)
           (Examples.tracked Examples.amazon_url)
           (Examples.rescraped_main Examples.amazon_url)
           (Examples.tracked Examples.amazon_url)
           eq_refl eq_refl).
Defined.

(** C1 as stated fails in the database package: the product of scenario 3
    is stored with min_price 80 and max_price 100; after a successful
    upsert of the same url with new descriptive fields the stored
    aggregates are 0. *)
Lemma C1_counterexample :
  let w := Examples.one_collection "u" [Examples.tracked Examples.amazon_url] in
  let r := Database.UpsertProduct Examples.quiet 0
             (Examples.rescraped Examples.amazon_url) "u" w in
  find_url Examples.amazon_url (coll w "u")
    = Some (Examples.tracked Examples.amazon_url) /\
  result r = None /\
  exists d',
    find_url Examples.amazon_url (coll (world r) "u") = Some d' /\
    price_history d' = price_history (Examples.tracked Examples.amazon_url) /\
    min_price d' ≠ min_price (Examples.tracked Examples.amazon_url) /\
    max_price d' ≠ max_price (Examples.tracked Examples.amazon_url).
Proof.
  vm_compute. split; [done|]. split; [done|].
  eexists. split; [reflexivity|]. split; [done|]. split; intros [=].
Qed.

(** Scenarios 1 and 2 of the specification, in the database package: a new
    product into an empty collection, a price appended by the refresh, the
    product upserted again with new descriptive fields. *)
Example scenario_new_product_ingest :
  let P := Database.mkProduct Examples.amazon_url "A" "i" (Some ["s"]) (Some []) 0%Q 0%Q in
  let r := Database.UpsertProduct Examples.quiet 0 P "u" Examples.empty in
  result r = None /\
  coll (world r) "u" =
    [mkDocument Examples.amazon_url (Val "A") (Val "i") (Val ["s"])
       (Val []) (Val (Num 0)) (Val (Num 0))].
Proof. by vm_compute. Qed.

(** Aggregates that are not 0 in the new Product are written as well. *)
Example upsert_overwrites_aggregates :
  let w := Examples.one_collection "u" [Examples.tracked Examples.amazon_url] in
  let P := Database.mkProduct Examples.amazon_url "A2" "i2" (Some ["s2"]) (Some []) 5%Q 7%Q in
  let r := Database.UpsertProduct Examples.quiet 0 P "u" w in
  result r = None /\
  coll (world r) "u" =
    [mkDocument Examples.amazon_url (Val "A2") (Val "i2") (Val ["s2"])
       (Val [mkPrice 100%Q 1; mkPrice 80%Q 2]) (Val (Num 5)) (Val (Num 7))].
Proof. by vm_compute. Qed.
(** ** The filter of the repair pass *)

Lemma incomplete_filter_fields d :
  incomplete_filter d = true <-> spec_incomplete_fields d.
Proof.
  unfold incomplete_filter, spec_incomplete_fields.
  rewrite !orb_true_iff, !bool_decide_eq_true.
  destruct (specifications d) as [| |l]; simpl.
  - split.
    + intros [[[[[H|H]|H]|H]|H]|H]; auto 10; done.
    + intros [H|[H|[H|[H|[(l' & H & _)|H]]]]]; auto 10; done.
  - split.
    + intros [[[[[H|H]|H]|H]|H]|H]; auto 10; done.
    + intros [H|[H|[H|[H|[(l' & H & _)|H]]]]]; auto 10; done.
  - rewrite Nat.eqb_eq. split.
    + intros [[[[[H|H]|H]|H]|H]|H]; eauto 10; done.
    + intros [H|[H|[H|[H|[(l' & [= <-] & H)|H]]]]]; auto 10; done.
Qed.

Lemma empty_or_absent_string (f : bson string) :
  f ≠ Null -> (f = Val "" \/ f = Absent <-> get "" f = "").
Proof.
  destruct f as [| |s]; simpl; intros Hn; [| done |]; split.
  - done.
  - by right.
  - by intros [[= ->]|?].
  - intros ->. by left.
Qed.

Lemma empty_or_absent_list (f : bson (list string)) :
  f ≠ Null ->
  ((exists l, f = Val l /\ length l = 0%nat) \/ f = Absent <->
   length (elems (get_slice f)) = 0%nat).
Proof.
  destruct f as [| |l]; simpl; intros Hn; [| done |]; split.
  - done.
  - by right.
  - by intros [(l' & [= <-] & H)|?].
  - intros H. left. by exists l.
Qed.

(** On a document without null the condition of the filter is the
    complement of I4. *)
Lemma incomplete_fields_not_complete d :
  no_null d ->
  (spec_incomplete_fields d <->
   ~ spec_complete (get "" (product_name d)) (get "" (image_url d))
       (get_slice (specifications d))).
Proof.
  intros (Nn & Ni & Ns). unfold spec_incomplete_fields, spec_complete.
  pose proof (empty_or_absent_string (product_name d) Nn) as Hn.
  pose proof (empty_or_absent_string (image_url d) Ni) as Hi.
  pose proof (empty_or_absent_list (specifications d) Ns) as Hs.
  destruct (decide (get "" (product_name d) = "")) as [Hn'|Hn'],
    (decide (get "" (image_url d) = "")) as [Hi'|Hi'],
    (decide (length (elems (get_slice (specifications d))) = 0%nat)) as [Hs'|Hs'];
    split; try tauto; try (intros _ (? & ? & ?); (done || lia)).
  intros H. exfalso. apply H. repeat split; (done || lia).
Qed.

(** The scan of the repair pass yields a stored document exactly when its
    product_name is empty or absent, or its image_url is empty or absent,
    or its specifications have size 0 or are absent; among the documents
    without null these are the ones whose decoded product, in either
    package, is not complete. *)
Lemma scan_incomplete
    (E : Env) (client : nat) (name : string) (w : World) (d : Document) :
  Find_fails E name = None ->
  let cursor := (result (Find E client name OpFindIncomplete incomplete_filter w)).1 in
  (d ∈ cursor <-> d ∈ coll w name /\ spec_incomplete_fields d) /\
  (no_null d ->
   (d ∈ cursor <->
      d ∈ coll w name /\
      ~ spec_complete (Database.ProductName (Database.decode d))
          (Database.ImageURL (Database.decode d))
          (Database.Specifications (Database.decode d))) /\
   (d ∈ cursor <->
      d ∈ coll w name /\
      ~ spec_complete (Main.ProductName (Main.decode d))
          (Main.ImageURL (Main.decode d))
          (Main.Specifications (Main.decode d)))).
Proof.
  intros HF cursor. subst cursor. rewrite Find_run, HF. unfold result; simpl.
  assert (Hc : d ∈ List.filter incomplete_filter (coll w name) <->
               d ∈ coll w name /\ spec_incomplete_fields d).
  { rewrite list_elem_of_In, filter_In, <- list_elem_of_In.
    by rewrite incomplete_filter_fields. }
  split; [exact Hc|]. intros Hn.
  split; rewrite Hc; by rewrite (incomplete_fields_not_complete d Hn).
Qed.

(** A document whose specifications hold null is never selected for them,
    and its product has no specification. *)
Lemma null_specifications_not_selected d :
  product_name d ≠ Val "" -> product_name d ≠ Absent ->
  image_url d ≠ Val "" -> image_url d ≠ Absent ->
  specifications d = Null ->
  incomplete_filter d = false /\
  ~ spec_complete (Main.ProductName (Main.decode d))
      (Main.ImageURL (Main.decode d)) (Main.Specifications (Main.decode d)).
Proof.
  intros H1 H2 H3 H4 Hs. split.
  - unfold incomplete_filter. rewrite Hs.
    by rewrite !bool_decide_eq_false_2.
  - unfold spec_complete, Main.decode. simpl. rewrite Hs. simpl. lia.
Qed.

(** C7, the failing input.  A product that comes without specifications
    (a nil slice) is stored by [UpsertProduct] with null under
    specifications.  It is not complete, and the scan of the repair pass
    does not select it: [UpdateIncompleteRecords] of either package ends
    without a call of the scraper of details and leaves the product as it
    is. *)
Theorem C7_scan_misses_null_specifications :
  let url := Examples.amazon_url in
  let scrape := fun u => inl (Examples.rescraped u) in
  let w := world (Database.UpsertProduct Examples.quiet 0 (Examples.bare url) "u"
                    Examples.empty) in
  let stored :=
    mkDocument url (Val "A") (Val "i") Null Null (Val (Num 0)) (Val (Num 0)) in
  let h := Main.mkMongoDB 0 "cypher" in
  let wm := world (Main.UpsertProduct Examples.quiet h (Examples.bare_main url)
                     (Examples.one_collection "cypher" [])) in
  let stored_main := mkDocument url (Val "A") (Val "i") Null Null Absent Absent in
  let rm := Main.UpdateIncompleteRecords Examples.quiet Examples.scrape_details
              Examples.uri h wm in
  (coll w "u" = [stored] /\
   Database.Specifications (Database.decode stored) = None /\
   ~ spec_complete (Database.ProductName (Database.decode stored))
       (Database.ImageURL (Database.decode stored))
       (Database.Specifications (Database.decode stored)) /\
   (result (Find Examples.quiet 0 "u" OpFindIncomplete incomplete_filter w)).1 = [] /\
   Database.UpdateIncompleteRecords Examples.quiet 0 scrape "u" w =
     (Database.Return None, w,
      [PrintProcessing; StoreCall 0 "u" OpFindIncomplete])) /\
  (coll wm "cypher" = [stored_main] /\
   ~ spec_complete (Main.ProductName (Main.decode stored_main))
       (Main.ImageURL (Main.decode stored_main))
       (Main.Specifications (Main.decode stored_main)) /\
   result rm = Main.Return None /\
   coll (world rm) "cypher" = [stored_main] /\
   events rm =
     [Connect 1; Ping 1; StoreCall 1 "cypher" OpCreateIndex; PrintProcessing;
      StoreCall 1 "cypher" OpFindIncomplete; Disconnect 1]).
Proof.
  intros url scrape w stored h wm stored_main rm.
  assert (Hn : forall name image, ~ spec_complete name image None).
  { intros name image (_ & _ & H). simpl in H. lia. }
  split.
  - split; [by vm_compute|]. split; [done|]. split; [apply Hn|].
    split; by vm_compute.
  - split; [by vm_compute|]. split; [apply Hn|].
    split; [by vm_compute|]. split; by vm_compute.
Qed.

(** When the product comes with an empty slice that is not nil, it is
    stored with an empty array, which the scan selects. *)
Example scan_selects_empty_array :
  let P := Database.mkProduct Examples.amazon_url "A" "i" (Some []) (Some []) 0%Q 0%Q in
  let w := world (Database.UpsertProduct Examples.quiet 0 P "u" Examples.empty) in
  (result (Find Examples.quiet 0 "u" OpFindIncomplete incomplete_filter w)).1 =
    [mkDocument Examples.amazon_url (Val "A") (Val "i") (Val []) (Val [])
       (Val (Num 0)) (Val (Num 0))].
Proof. by vm_compute. Qed.

(** ** Upsert twice *)

Lemma update_first_idem url upd c :
  (forall d, product_url (upd d) = url) ->
  (forall d, upd (upd d) = upd d) ->
  update_first url upd (update_first url upd c) = update_first url upd c.
Proof.
  intros Hu Hi. induction c as [|x c IH]; simpl; [done|].
  destruct (matches_url url x) eqn:Hx; simpl.
  - pose proof (Hu x) as Hm. apply matches_url_true in Hm. by rewrite Hm, Hi.
  - by rewrite Hx, IH.
Qed.

Lemma get_put_slice {A} (s : slice A) : get_slice (put_slice s) = s.
Proof. by destruct s. Qed.

Lemma Database_with_history_same P :
  Database.with_history P (Database.PriceHistory P) = P.
Proof. by destruct P. Qed.

Lemma Main_with_history_same P :
  Main.with_history P (Main.PriceHistory P) = P.
Proof. by destruct P. Qed.

Lemma Database_upsert_twice E1 E2 DB P user w :
  let r1 := Database.UpsertProduct E1 DB P user w in
  let r2 := Database.UpsertProduct E2 DB P user (world r1) in
  result r1 = None -> world r2 = world r1.
Proof.
  intros r1 r2. subst r1 r2.
  set (url := Database.ProductURL P).
  destruct (lookup_error E1 user url w) as [msg|] eqn:Hl.
  { by rewrite (Database_UpsertProduct_error _ _ _ _ _ _ Hl). }
  destruct (find_url url (coll w user)) as [d|] eqn:Hd.
  - rewrite (Database_UpsertProduct_found _ _ _ _ _ _ Hl Hd).
    unfold result, world; simpl. fold url.
    destruct (UpdateOne_fails E1 user url); [done|]. intros _.
    set (P' := Database.with_history P _).
    set (w1 := set_coll _ _ _).
    assert (Hd1 : find_url url (coll w1 user) = Some (Database.set_product P' d)).
    { unfold w1. rewrite coll_set_coll_eq. by apply find_url_update_first. }
    destruct (lookup_error E2 user url w1) as [msg|] eqn:Hl2.
    { by rewrite (Database_UpsertProduct_error _ _ _ _ _ _ Hl2). }
    rewrite (Database_UpsertProduct_found _ _ _ _ _ _ Hl2 Hd1). simpl. fold url.
    destruct (UpdateOne_fails E2 user url); [done|].
    rewrite get_put_slice.
    change (Database.with_history P _) with P'.
    unfold w1 at 1 2. rewrite coll_set_coll_eq, set_coll_set_coll.
    by rewrite update_first_idem.
  - rewrite (Database_UpsertProduct_new _ _ _ _ _ Hl Hd).
    unfold result, world; simpl. fold url.
    destruct (UpdateOne_fails E1 user url); [done|]. intros _.
    set (x := Database.set_product P _).
    set (w1 := set_coll _ _ _).
    assert (Hx : matches_url url x = true) by by apply matches_url_true.
    assert (Hd1 : find_url url (coll w1 user) = Some x).
    { unfold w1. rewrite coll_set_coll_eq, find_url_app, Hx; done. }
    destruct (lookup_error E2 user url w1) as [msg|] eqn:Hl2.
    { by rewrite (Database_UpsertProduct_error _ _ _ _ _ _ Hl2). }
    rewrite (Database_UpsertProduct_found _ _ _ _ _ _ Hl2 Hd1). simpl. fold url.
    destruct (UpdateOne_fails E2 user url); [done|].
    rewrite get_put_slice, Database_with_history_same.
    unfold w1 at 1 2. rewrite coll_set_coll_eq, set_coll_set_coll.
    by rewrite update_first_app.
Qed.

Lemma Main_upsert_twice E1 E2 m P Q w :
  let r1 := Main.UpsertProduct E1 m P w in
  let r2 := Main.UpsertProduct E2 m Q (world r1) in
  (result r1).2 = None ->
  Q = P \/ Q = (result r1).1 ->
  world r2 = world r1.
Proof.
  intros r1 r2. subst r1 r2.
  set (url := Main.ProductURL P). set (name := Main.collection m).
  destruct (lookup_error E1 name url w) as [msg|] eqn:Hl.
  { by rewrite (Main_UpsertProduct_error _ _ _ _ _ Hl). }
  destruct (find_url url (coll w name)) as [d|] eqn:Hd.
  - rewrite (Main_UpsertProduct_found _ _ _ _ _ Hl Hd).
    unfold result, world; simpl. fold url name.
    destruct (UpdateOne_fails E1 name url); [done|]. intros _ HQ.
    set (P' := Main.with_history P _) in *.
    set (w1 := set_coll _ _ _).
    assert (HQu : Main.ProductURL Q = url) by by destruct HQ as [->| ->].
    assert (Hd1 : find_url (Main.ProductURL Q) (coll w1 name)
                  = Some (Main.set_product P' d)).
    { rewrite HQu. unfold w1. rewrite coll_set_coll_eq.
      by apply find_url_update_first. }
    destruct (lookup_error E2 name (Main.ProductURL Q) w1) as [msg|] eqn:Hl2.
    { by rewrite (Main_UpsertProduct_error _ _ _ _ _ Hl2). }
    rewrite (Main_UpsertProduct_found _ _ _ _ _ Hl2 Hd1). simpl.
    rewrite HQu. fold name.
    destruct (UpdateOne_fails E2 name url); [done|].
    assert (HQ' : Main.with_history Q (Main.PriceHistory P') = P')
      by by destruct HQ as [->| ->].
    rewrite get_put_slice.
    change (Main.with_history Q _) with (Main.with_history Q (Main.PriceHistory P')).
    rewrite HQ'.
    unfold w1 at 1 2. rewrite coll_set_coll_eq, set_coll_set_coll.
    by rewrite update_first_idem.
  - rewrite (Main_UpsertProduct_new _ _ _ _ Hl Hd).
    unfold result, world; simpl. fold url name.
    destruct (UpdateOne_fails E1 name url); [done|]. intros _ HQ.
    assert (Q = P) as -> by by destruct HQ. fold url.
    set (x := Main.set_product P _).
    set (w1 := set_coll _ _ _).
    assert (Hx : matches_url url x = true) by by apply matches_url_true.
    assert (Hd1 : find_url url (coll w1 name) = Some x).
    { unfold w1. rewrite coll_set_coll_eq, find_url_app, Hx; done. }
    destruct (lookup_error E2 name url w1) as [msg|] eqn:Hl2.
    { by rewrite (Main_UpsertProduct_error _ _ _ _ _ Hl2). }
    rewrite (Main_UpsertProduct_found _ _ _ _ _ Hl2 Hd1). simpl. fold url name.
    destruct (UpdateOne_fails E2 name url); [done|].
    rewrite get_put_slice, Main_with_history_same.
    unfold w1 at 1 2. rewrite coll_set_coll_eq, set_coll_set_coll.
    by rewrite update_first_app.
Qed.

(** C8.  An upsert of P that succeeds, followed by a second upsert of P,
    leaves the world, and so every stored document, exactly as the first
    upsert left it.  In mongo.go the method writes through its pointer, so
    the second call is taken both on the product as the first call left it
    and on a product with the original fields. *)
Theorem C8_upsert_idempotent
    (E1 E2 : Env) (DB : nat) (m : Main.MongoDB) (user : string)
    (P : Database.Product) (PM : Main.Product) (w : World) :
  (let r1 := Database.UpsertProduct E1 DB P user w in
   result r1 = None ->
   world (Database.UpsertProduct E2 DB P user (world r1)) = world r1) /\
  (let r1 := Main.UpsertProduct E1 m PM w in
   (result r1).2 = None ->
   world (Main.UpsertProduct E2 m (result r1).1 (world r1)) = world r1 /\
   world (Main.UpsertProduct E2 m PM (world r1)) = world r1).
Proof.
  split.
  - apply Database_upsert_twice.
  - intros r1 Hok. split.
    + apply Main_upsert_twice; [done | by right].
    + apply Main_upsert_twice; [done | by left].
Qed.

(** The theorem on scenario 1 (a new product into an empty collection) for
    the database package, and on the re-ingest of scenario 2 for mongo.go. *)
Lemma C8_upsert_idempotent_witness :
  let P := Examples.rescraped Examples.amazon_url in
  let PM := Examples.rescraped_main Examples.amazon_url in
  let m := Main.mkMongoDB 0 "u" in
  let w := Examples.one_collection "u" [Examples.tracked Examples.amazon_url] in
  let r1 := Database.UpsertProduct Examples.quiet 0 P "u" Examples.empty in
  let s1 := Main.UpsertProduct Examples.quiet m PM w in
  (result r1 = None /\
   world (Database.UpsertProduct Examples.quiet 0 P "u" (world r1)) = world r1) /\
  ((result s1).2 = None /\
   world (Main.UpsertProduct Examples.quiet m (result s1).1 (world s1)) = world s1 /\
   world (Main.UpsertProduct Examples.quiet m PM (world s1)) = world s1).
Proof.
  intros P PM m w r1 s1.
  pose proof (C8_upsert_idempotent Examples.quiet Examples.quiet 0 m "u" P PM) as H.
  split.
  - split; [reflexivity|]. exact (proj1 (H Examples.empty) eq_refl).
  - split; [reflexivity|]. exact (proj2 (H w) eq_refl).
Defined.
(** ** AddPrice *)

(** C9, as amended.  [AddPrice] appends the given price, stamped with the
    reading of the clock, to the price_history of the first product whose
    product_url is the given url, and leaves its other fields alone.  When
    no product has that url it writes nothing and returns no error.  It
    returns an error only when the update call of the driver fails, be it
    for the call itself or because the server rejects the update of a
    price_history that holds null, and then writes nothing. *)
Theorem C9_AddPrice_appends
    (E : Env) (m : Main.MongoDB) (url : string) (price : float64) (w : World) :
  let r := Main.AddPrice E m url price w in
  let name := Main.collection m in
  match UpdateOne_fails E name url with
  | Some msg => result r = Some (Err msg) /\ store (world r) = store w
  | None =>
      match find_url url (coll w name) with
      | Some d =>
          match price_history d with
          | Null => result r = Some WriteException /\ store (world r) = store w
          | Absent | Val _ =>
              result r = None /\
              coll (world r) name =
                update_first url (pushed (mkPrice price (clock w))) (coll w name) /\
              exists d',
                find_url url (coll (world r) name) = Some d' /\
                price_history d' =
                  Val (get [] (price_history d) ++ [mkPrice price (clock w)]) /\
                product_name d' = product_name d /\
                image_url d' = image_url d /\
                specifications d' = specifications d /\
                min_price d' = min_price d /\
                max_price d' = max_price d
          end
      | None => result r = None /\ store (world r) = store w
      end
  end.
Proof.
  intros r name. subst r. unfold Main.AddPrice. io_unfold.
  rewrite (UpdateOne_push_run E _ _ _ (mkPrice price (clock w)) (fun x => x))
    by (intros d; by destruct (push_price _ d)).
  fold name. unfold push_error. simpl.
  change (coll {| store := store w; clock := (clock w + 1)%Z; clients := clients w |} name)
    with (coll w name).
  destruct (UpdateOne_fails E name url); [done|].
  destruct (find_url url (coll w name)) as [d|] eqn:Hd; simpl; [|done].
  assert (Hfound :
    find_url url (update_first url (pushed (mkPrice price (clock w))) (coll w name))
      = Some (pushed (mkPrice price (clock w)) d)).
  { apply find_url_update_first; [exact Hd|]. simpl.
    by apply find_url_Some in Hd as [Hu _]. }
  destruct (price_history d) eqn:Hh; [|done|];
    (split; [done|]; rewrite coll_set_coll_eq; split; [done|];
     eexists; split; [exact Hfound|]; simpl; by rewrite Hh).
Qed.

(** C9 as stated fails: on an empty collection [AddPrice] returns no error,
    although no product with the url exists, and nothing is stored. *)
Lemma C9_counterexample :
  let m := Main.mkMongoDB 0 "u" in
  let r := Main.AddPrice Examples.quiet m Examples.amazon_url 100%Q Examples.empty in
  find_url Examples.amazon_url (coll Examples.empty "u") = None /\
  result r = None /\
  coll (world r) "u" = [].
Proof. by vm_compute. Qed.

(** A product that was stored with a nil price_history holds null, and
    the server rejects every price pushed to it. *)
Example AddPrice_on_null_history :
  let m := Main.mkMongoDB 0 "u" in
  let w := world (Main.UpsertProduct Examples.quiet m
                    (Examples.bare_main Examples.amazon_url) Examples.empty) in
  let r := Main.AddPrice Examples.quiet m Examples.amazon_url 100%Q w in
  result r = Some WriteException /\
  coll (world r) "u" = coll w "u" /\
  coll w "u" =
    [mkDocument Examples.amazon_url (Val "A") (Val "i") Null Null Absent Absent].
Proof. by vm_compute. Qed.

(** ** The refresh of one product in the database package *)

Lemma new_min_cases product p :
  ((feq (Database.MinPrice product) 0%Q = true \/
    flt p (Database.MinPrice product) = true) ->
     Database.new_min product p = p) /\
  (~ (feq (Database.MinPrice product) 0%Q = true \/
      flt p (Database.MinPrice product) = true) ->
     Database.new_min product p = Database.MinPrice product).
Proof.
  unfold Database.new_min.
  destruct (feq _ _ || flt _ _) eqn:Hc.
  - split; [done|]. intros Hn. exfalso. apply Hn.
    apply orb_true_iff in Hc as [H|H]; [by left | by right].
  - split; [|done]. intros H. apply orb_false_iff in Hc as [H1 H2].
    destruct H as [H|H]; congruence.
Qed.

Lemma new_max_cases product p :
  ((feq (Database.MaxPrice product) 0%Q = true \/
    fgt p (Database.MaxPrice product) = true) ->
     Database.new_max product p = p) /\
  (~ (feq (Database.MaxPrice product) 0%Q = true \/
      fgt p (Database.MaxPrice product) = true) ->
     Database.new_max product p = Database.MaxPrice product).
Proof.
  unfold Database.new_max.
  destruct (feq _ _ || fgt _ _) eqn:Hc.
  - split; [done|]. intros Hn. exfalso. apply Hn.
    apply orb_true_iff in Hc as [H|H]; [by left | by right].
  - split; [|done]. intros H. apply orb_false_iff in Hc as [H1 H2].
    destruct H as [H|H]; congruence.
Qed.

(** An event is not in an explicit trace that holds no event of its shape. *)
Ltac not_in_trace :=
  let H := fresh "Hin" in
  intros H; simpl in H;
  repeat (apply elem_of_cons in H; destruct H as [H|H]; [discriminate H|]);
  by apply elem_of_nil in H.

Section Refresh.
Variable E : Env.
Variable DB : nat.

Lemma Database_persist_run user product p w :
  let product' :=
    Database.with_aggregates product (Database.new_min product p)
      (Database.new_max product p) in
  let url := Database.ProductURL product in
  let upd := fun d =>
    set_aggregates (Database.new_min product p) (Database.new_max product p)
      (pushed (mkPrice p (clock w)) d) in
  let w1 := mkWorld (store w) (clock w + 1) (clients w) in
  let err := push_error E user url (coll w user) in
  Database.persist E DB user product p w =
    ((product', err),
     match err with
     | Some _ => w1
     | None =>
         match find_url url (coll w user) with
         | Some _ => set_coll user (update_first url upd (coll w user)) w1
         | None => w1
         end
     end,
     [StoreCall DB user (OpUpdateOne url);
      match err with
      | Some e => Log (UpdatePriceFailed url e)
      | None => PrintUpdated (Database.ProductName product) p
      end]).
Proof.
  intros product' url upd w1 err. unfold Database.persist. io_unfold.
  rewrite (UpdateOne_push_run E _ _ _ (mkPrice p (clock w))
             (set_aggregates (Database.new_min product p)
                (Database.new_max product p))) by done.
  simpl. fold url.
  change (coll {| store := store w; clock := (clock w + 1)%Z; clients := clients w |} user)
    with (coll w user).
  fold err. by destruct err.
Qed.

(** A call either touches no document, or it went through the two
    scrapers of a url that holds both vendor names and ends in the
    update with the price parsed from the answer of the Amazon scraper. *)
Lemma Database_UpdatePrices_cases user product w :
  let r := Database.UpdatePrices E DB user product w in
  let url := Database.ProductURL product in
  (world r = w /\ (result r).1 = product /\
   forall op, StoreCall DB user op ∉ events r) \/
  (exists p,
     strings_Contains url "flipkart" = true /\
     strings_Contains url "amazon" = true /\
     ParseFloat E (ScrapePriceAmazon E url).1 = (p, None) /\
     result r = result (Database.persist E DB user product p w) /\
     world r = world (Database.persist E DB user product p w) /\
     StoreCall DB user (OpUpdateOne url) ∈ events r).
Proof.
  intros r url. subst r. unfold Database.UpdatePrices. fold url.
  assert (Hnil : forall op, StoreCall DB user op ∉ @nil Event)
    by (intros op; apply not_elem_of_nil).
  destruct (strings_Contains url "flipkart") eqn:Hf; [|left; by repeat split].
  io_unfold. simpl.
  destruct (ScrapePriceFlipkart E url) as [s1 [e1|]]; simpl.
  { left. repeat split. intros op. not_in_trace. }
  destruct (ParseFloat E s1) as [p1 [e|]]; simpl.
  { left. repeat split. intros op. not_in_trace. }
  destruct (strings_Contains url "amazon") eqn:Ha; simpl.
  2:{ left. repeat split. intros op. not_in_trace. }
  destruct (ScrapePriceAmazon E url) as [s2 e2] eqn:Hs2; simpl.
  destruct (ParseFloat E s2) as [p [e|]] eqn:Hp; simpl.
  { left. destruct e2; simpl; repeat split; intros op; not_in_trace. }
  right. exists p.
  destruct e2; simpl; rewrite !Database_persist_run; fold url; simpl;
    repeat split; rewrite ?elem_of_cons; auto 10.
Qed.

End Refresh.

(** The two [if] statements, where [UpdatePrices] reaches them, with p the
    price parsed from the scraped string: MinPrice becomes p when it was 0
    or p is strictly below it, and keeps its value otherwise; MaxPrice
    becomes p when it was 0 or p is strictly above it, and keeps its value
    otherwise; a product that came with MinPrice = MaxPrice = 0 leaves with
    both equal to p; and a successful update stores these two values, with
    p appended to the history. *)
Lemma Database_aggregate_update
    (E : Env) (DB : nat) (user : string) (product : Database.Product) (w : World) :
  let r := Database.UpdatePrices E DB user product w in
  let url := Database.ProductURL product in
  let product' := (result r).1 in
  StoreCall DB user (OpUpdateOne url) ∈ events r ->
  exists p,
    ParseFloat E (ScrapePriceAmazon E url).1 = (p, None) /\
    ((feq (Database.MinPrice product) 0%Q = true \/
      flt p (Database.MinPrice product) = true) ->
       Database.MinPrice product' = p) /\
    (~ (feq (Database.MinPrice product) 0%Q = true \/
        flt p (Database.MinPrice product) = true) ->
       Database.MinPrice product' = Database.MinPrice product) /\
    ((feq (Database.MaxPrice product) 0%Q = true \/
      fgt p (Database.MaxPrice product) = true) ->
       Database.MaxPrice product' = p) /\
    (~ (feq (Database.MaxPrice product) 0%Q = true \/
        fgt p (Database.MaxPrice product) = true) ->
       Database.MaxPrice product' = Database.MaxPrice product) /\
    (feq (Database.MinPrice product) 0%Q = true ->
     feq (Database.MaxPrice product) 0%Q = true ->
       Database.MinPrice product' = p /\ Database.MaxPrice product' = p) /\
    (forall d,
       find_url url (coll w user) = Some d -> (result r).2 = None ->
       exists d',
         find_url url (coll (world r) user) = Some d' /\
         min_price d' = Val (Database.MinPrice product') /\
         max_price d' = Val (Database.MaxPrice product') /\
         price_history d' =
           Val (get [] (price_history d) ++ [mkPrice p (clock w)])).
Proof.
  intros r url product' Hcall. subst r product'.
  destruct (Database_UpdatePrices_cases E DB user product w)
    as [(_ & _ & Hno)|(p & _ & _ & Hp & Hr & Hw & _)].
  { by destruct (Hno (OpUpdateOne url)). }
  exists p. split; [exact Hp|].
  rewrite Hr, Hw, Database_persist_run. unfold result, world; simpl. fold url.
  pose proof (new_min_cases product p) as [Hlo1 Hlo2].
  pose proof (new_max_cases product p) as [Hhi1 Hhi2].
  repeat split; auto.
  intros d Hd Hok. rewrite Hok, Hd, coll_set_coll_eq. eexists. split.
  - apply find_url_update_first; [exact Hd|]. simpl.
    by apply find_url_Some in Hd as [Hu _].
  - done.
Qed.

(** C6, the failing input.  Scenario 4 of the specification on a product
    of the Flipkart site and on one of the Amazon site: the product is
    stored with min = max = 0 and the scrapers answer "50".  The refresh
    of the database package returns no error; for the Flipkart url it has
    called the Flipkart scraper and reports an unsupported vendor, for the
    Amazon url it has done nothing at all; in both cases the product and
    the stored document still carry min = max = 0 and an empty history. *)
Theorem C6_first_refresh_keeps_sentinel :
  let E := Examples.env ("50", None) ("50", None) in
  let stored url :=
    mkDocument url (Val "A") (Val "i") (Val ["s"]) (Val []) (Val (Num 0)) (Val (Num 0)) in
  let after_ingest url :=
    world (Database.UpsertProduct Examples.quiet 0 (Examples.fresh_at url) "u"
             Examples.empty) in
  let refresh url :=
    Database.UpdatePrices E 0 "u" (Examples.fresh_at url) (after_ingest url) in
  let f := Examples.flipkart_url in
  let a := Examples.amazon_url in
  (Database.MinPrice (Examples.fresh_at f) = Num 0 /\
   Database.MaxPrice (Examples.fresh_at f) = Num 0 /\
   ParseFloat E (ScrapePriceFlipkart E f).1 = (Num 50, None) /\
   ParseFloat E (ScrapePriceAmazon E a).1 = (Num 50, None)) /\
  (coll (after_ingest f) "u" = [stored f] /\
   result (refresh f) = (Examples.fresh_at f, None) /\
   events (refresh f) = [ScrapePrice Flipkart f; Log (UnsupportedVendor f)] /\
   coll (world (refresh f)) "u" = [stored f]) /\
  (coll (after_ingest a) "u" = [stored a] /\
   result (refresh a) = (Examples.fresh_at a, None) /\
   events (refresh a) = [] /\
   coll (world (refresh a)) "u" = [stored a]).
Proof. by vm_compute. Qed.

(** The same scenario on a url that holds both vendor names, the only kind
    for which the function reaches its update. *)
Example scenario_sentinel_collapse_both_names :
  let w := world (Database.UpsertProduct Examples.quiet 0 Examples.fresh "u"
                    Examples.empty) in
  let r := Database.UpdatePrices (Examples.env ("50", None) ("50", None)) 0 "u"
             Examples.fresh w in
  result r = (Database.with_aggregates Examples.fresh (Num 50) (Num 50), None) /\
  coll (world r) "u" =
    [mkDocument Examples.both_url (Val "A") (Val "i") (Val ["s"])
       (Val [mkPrice 50%Q 0]) (Val (Num 50)) (Val (Num 50))].
Proof. by vm_compute. Qed.

(** Scenario 3 of the specification: history 100, 80 with min 80 and
    max 100; the scraper answers "120". *)
Example scenario_refresh_updates_aggregates :
  let product := Database.decode (Examples.tracked Examples.both_url) in
  let w := Examples.one_collection "u" [Examples.tracked Examples.both_url] in
  let r := Database.UpdatePrices (Examples.env ("120", None) ("120", None)) 0 "u"
             product w in
  (result r).2 = None /\
  coll (world r) "u" =
    [mkDocument Examples.both_url (Val "A") (Val "i") (Val ["s"])
       (Val [mkPrice 100%Q 1; mkPrice 80%Q 2; mkPrice 120%Q 0])
       (Val (Num 80)) (Val (Num 120))].
Proof. by vm_compute. Qed.

(** ** The bulk refresh of mongo.go *)

Lemma for_each_item_traces {A} (items : list A) body w :
  events (for_each items body w) = concat (item_traces items body w).
Proof.
  revert w. induction items as [|x rest IH]; intros w; [done|].
  rewrite for_each_cons. unfold events at 1; simpl. by rewrite IH.
Qed.

Lemma length_item_traces {A} (items : list A) body w :
  length (item_traces items body w) = length items.
Proof. revert w. induction items as [|x rest IH]; intros w; simpl; auto. Qed.

Lemma item_traces_Forall {A} (P : list Event -> Prop) (items : list A) body w :
  (forall x w', P (events (body x w'))) ->
  Forall P (item_traces items body w).
Proof.
  intros H. revert w. induction items as [|x rest IH]; intros w; simpl;
    constructor; auto.
Qed.

Lemma filter_all {A} (l : list A) : List.filter (fun _ => true) l = l.
Proof. induction l as [|x l IH]; simpl; [done | by rewrite IH]. Qed.

Section BulkRefresh.
Variable E : Env.
Variable m : Main.MongoDB.

Lemma Main_push_current_run product p w :
  let url := Main.ProductURL product in
  let name := Main.collection m in
  let w1 := mkWorld (store w) (clock w + 1) (clients w) in
  let err := push_error E name url (coll w name) in
  Main.push_current E m product p w =
    (tt,
     match err with
     | Some _ => w1
     | None =>
         match find_url url (coll w name) with
         | Some _ =>
             set_coll name
               (update_first url (pushed (mkPrice p (clock w))) (coll w name)) w1
         | None => w1
         end
     end,
     [StoreCall (Main.client m) name (OpUpdateOne url);
      match err with
      | Some e => Log (UpdatePriceFailed url e)
      | None => PrintUpdated (Main.ProductName product) p
      end]).
Proof.
  intros url name w1 err. unfold Main.push_current. io_unfold.
  rewrite (UpdateOne_push_run E _ _ _ (mkPrice p (clock w)) (fun x => x))
    by (intros d; by destruct (push_price _ d)).
  simpl. fold url name.
  change (coll {| store := store w; clock := (clock w + 1)%Z; clients := clients w |} name)
    with (coll w name).
  fold err. by destruct err.
Qed.

(** One iteration, case by case: every failure ends the iteration with
    one diagnostic and an unchanged world. *)
Lemma Main_UpdatePrices_item_run d w :
  let url := product_url d in
  Main.UpdatePrices_item E m d w =
    match Decode_fails E d with
    | Some msg => (tt, w, [Log (DecodeFailed (Err msg))])
    | None =>
        match vendor_of url with
        | None => (tt, w, [Log (UnsupportedVendor url)])
        | Some v =>
            match scraper_of E v url with
            | (_, Some e) => (tt, w, [ScrapePrice v url; Log (ScrapeFailed v url e)])
            | (priceStr, None) =>
                match ParseFloat E priceStr with
                | (_, Some e) =>
                    (tt, w, [ScrapePrice v url; Log (ParseFailed priceStr e)])
                | (p, None) =>
                    (tt, world (Main.push_current E m (Main.decode d) p w),
                     ScrapePrice v url ::
                       events (Main.push_current E m (Main.decode d) p w))
                end
            end
        end
    end.
Proof.
  intros url. unfold Main.UpdatePrices_item, vendor_of.
  destruct (Decode_fails E d); [done|].
  change (Main.ProductURL (Main.decode d)) with url.
  destruct (strings_Contains url "flipkart"); simpl.
  - io_unfold. destruct (ScrapePriceFlipkart E url) as [s [e|]]; [done|].
    destruct (ParseFloat E s) as [p [e|]]; simpl; [done|].
    by destruct (Main.push_current E m (Main.decode d) p w) as [[[] w1] t1].
  - destruct (strings_Contains url "amazon"); simpl; [|done].
    io_unfold. destruct (ScrapePriceAmazon E url) as [s [e|]]; simpl; [done|].
    destruct (ParseFloat E s) as [p [e|]]; simpl; [done|].
    by destruct (Main.push_current E m (Main.decode d) p w) as [[[] w1] t1].
Qed.

Lemma Main_UpdatePrices_item_nonempty d w :
  events (Main.UpdatePrices_item E m d w) ≠ [].
Proof.
  rewrite Main_UpdatePrices_item_run.
  destruct (Decode_fails E d); [done|].
  destruct (vendor_of (product_url d)) as [v|]; [|done].
  destruct (scraper_of E v (product_url d)) as [s [e|]]; [done|].
  by destruct (ParseFloat E s) as [p [e|]].
Qed.

Lemma Main_UpdatePrices_run w :
  let name := Main.collection m in
  Main.UpdatePrices E m w =
    match Find_fails E name with
    | Some msg => (Some (Errorf "failed to find products: " (Err msg)), w,
                   [StoreCall (Main.client m) name OpFindAll])
    | None =>
        (None, world (for_each (coll w name) (Main.UpdatePrices_item E m) w),
         StoreCall (Main.client m) name OpFindAll ::
           events (for_each (coll w name) (Main.UpdatePrices_item E m) w))
    end.
Proof.
  intros name. unfold Main.UpdatePrices. io_unfold.
  rewrite Find_run. fold name. destruct (Find_fails E name); [done|].
  simpl. rewrite filter_all.
  destruct (for_each _ _ w) as [[[] w1] t1]. simpl. by rewrite app_nil_r.
Qed.

End BulkRefresh.

(** C5.  Once [Find] has returned its cursor, the bulk refresh returns no
    error, whatever fails on the way: its trace is the call to [Find]
    followed by the traces of the iterations, one for every document of
    the collection and none of them empty.  The only error of the function
    is that of [Find] itself, before the scan starts. *)
Theorem C5_bulk_refresh_returns_success
    (E : Env) (m : Main.MongoDB) (w : World) :
  let r := Main.UpdatePrices E m w in
  let name := Main.collection m in
  let traces := item_traces (coll w name) (Main.UpdatePrices_item E m) w in
  match Find_fails E name with
  | Some msg =>
      result r = Some (Errorf "failed to find products: " (Err msg)) /\
      world r = w
  | None =>
      result r = None /\
      events r = StoreCall (Main.client m) name OpFindAll :: concat traces /\
      length traces = length (coll w name) /\
      Forall (fun t => t ≠ []) traces
  end.
Proof.
  intros r name traces. subst r traces. rewrite Main_UpdatePrices_run. fold name.
  destruct (Find_fails E name); [done|].
  unfold result, events; simpl. split; [done|]. split.
  - by rewrite <- for_each_item_traces.
  - split; [apply length_item_traces|].
    apply item_traces_Forall. intros d w'. apply Main_UpdatePrices_item_nonempty.
Qed.

(** Scenario 6 of the specification: the scraper of the first product
    answers "not-a-number", that of the second "42".  The first product
    is unchanged, the second has the new price, the call returns no
    error. *)
Example scenario_parse_error_skipped :
  let first := new_document Examples.flipkart_url in
  let second := new_document Examples.amazon_url in
  let w := Examples.one_collection "u" [first; second] in
  let r := Main.UpdatePrices (Examples.env ("not-a-number", None) ("42", None))
             (Main.mkMongoDB 0 "u") w in
  result r = None /\
  coll (world r) "u" = [first; pushed (mkPrice 42%Q 0) second] /\
  events r =
    [StoreCall 0 "u" OpFindAll;
     ScrapePrice Flipkart Examples.flipkart_url;
     Log (ParseFailed "not-a-number" (Err "strconv.ParseFloat: invalid syntax"));
     ScrapePrice Amazon Examples.amazon_url;
     StoreCall 0 "u" (OpUpdateOne Examples.amazon_url);
     PrintUpdated "" 42%Q].
Proof. by vm_compute. Qed.

(** Scenario 5: a product of another site.  No scraper is called, the
    history is unchanged, the call returns no error. *)
Example scenario_unsupported_vendor :
  let w := Examples.one_collection "u" [Examples.tracked Examples.other_url] in
  let r := Main.UpdatePrices Examples.quiet (Main.mkMongoDB 0 "u") w in
  result r = None /\
  world r = w /\
  events r =
    [StoreCall 0 "u" OpFindAll; Log (UnsupportedVendor Examples.other_url)].
Proof. by vm_compute. Qed.

(** ** Vendor dispatch in the loop of mongo.go *)

Section Dispatch.
Variable E : Env.
Variable m : Main.MongoDB.

Lemma Main_item_scrape_inv d w v url :
  ScrapePrice v url ∈ events (Main.UpdatePrices_item E m d w) ->
  product_url d = url /\ vendor_of url = Some v.
Proof.
  rewrite Main_UpdatePrices_item_run.
  destruct (Decode_fails E d); [not_in_trace|].
  destruct (vendor_of (product_url d)) as [v'|] eqn:Hv; [|not_in_trace].
  assert (Hhead : forall t, ScrapePrice v url ∈ ScrapePrice v' (product_url d) :: t ->
                  ScrapePrice v url ∉ t -> product_url d = url /\ vendor_of url = Some v).
  { intros t [[= -> ->]|Hin]%elem_of_cons Hn; [done | by destruct Hn]. }
  destruct (scraper_of E v' (product_url d)) as [s [e|]].
  { unfold events; simpl. intros H. apply (Hhead _ H). not_in_trace. }
  destruct (ParseFloat E s) as [p [e|]].
  { unfold events; simpl. intros H. apply (Hhead _ H). not_in_trace. }
  rewrite Main_push_current_run. unfold events; simpl.
  destruct (push_error E _ _ _); intros H; apply (Hhead _ H); not_in_trace.
Qed.

Lemma Main_item_scrape_intro d w v :
  Decode_fails E d = None -> vendor_of (product_url d) = Some v ->
  ScrapePrice v (product_url d) ∈ events (Main.UpdatePrices_item E m d w).
Proof.
  intros Hd Hv. rewrite Main_UpdatePrices_item_run, Hd, Hv.
  destruct (scraper_of E v (product_url d)) as [s [e|]];
    [apply elem_of_cons; by left|].
  destruct (ParseFloat E s) as [p [e|]]; apply elem_of_cons; by left.
Qed.

Lemma Main_item_unsupported_intro d w :
  Decode_fails E d = None -> vendor_of (product_url d) = None ->
  Main.UpdatePrices_item E m d w =
    (tt, w, [Log (UnsupportedVendor (product_url d))]).
Proof. intros Hd Hv. by rewrite Main_UpdatePrices_item_run, Hd, Hv. Qed.

Lemma Main_item_update_inv d w c name url :
  StoreCall c name (OpUpdateOne url) ∈ events (Main.UpdatePrices_item E m d w) ->
  product_url d = url /\ vendor_of url ≠ None.
Proof.
  rewrite Main_UpdatePrices_item_run.
  destruct (Decode_fails E d); [not_in_trace|].
  destruct (vendor_of (product_url d)) as [v'|] eqn:Hv; [|not_in_trace].
  destruct (scraper_of E v' (product_url d)) as [s [e|]]; [not_in_trace|].
  destruct (ParseFloat E s) as [p [e|]]; [not_in_trace|].
  rewrite Main_push_current_run. unfold events; simpl.
  intros [[=]|[[= _ _ Hu]|Hin]%elem_of_cons]%elem_of_cons.
  - split; [done|]. congruence.
  - exfalso. revert Hin. destruct (push_error E _ _ _); not_in_trace.
Qed.

End Dispatch.

Lemma vendor_of_flipkart url :
  strings_Contains url "flipkart" = true -> vendor_of url = Some Flipkart.
Proof. unfold vendor_of. by intros ->. Qed.

Lemma vendor_of_amazon url :
  strings_Contains url "flipkart" = false ->
  strings_Contains url "amazon" = true -> vendor_of url = Some Amazon.
Proof. unfold vendor_of. by intros -> ->. Qed.

Lemma vendor_of_none url :
  strings_Contains url "flipkart" = false ->
  strings_Contains url "amazon" = false -> vendor_of url = None.
Proof. unfold vendor_of. by intros -> ->. Qed.

(** C3, as amended.  In the bulk refresh of mongo.go, for every stored
    product that decodes: when its url contains "flipkart" the Flipkart
    scraper is called on it, and the Amazon scraper is not, whether or not
    the url contains "amazon" too; when it contains "amazon" and not
    "flipkart" the Amazon scraper is called and the Flipkart scraper is
    not; when it contains neither, no scraper is called on it, the
    unsupported-vendor diagnostic is logged and no update is issued for
    it. *)
Theorem C3_vendor_dispatch
    (E : Env) (m : Main.MongoDB) (w : World) (d : Document) :
  Find_fails E (Main.collection m) = None ->
  d ∈ coll w (Main.collection m) ->
  Decode_fails E d = None ->
  let r := Main.UpdatePrices E m w in
  let url := product_url d in
  (strings_Contains url "flipkart" = true ->
     ScrapePrice Flipkart url ∈ events r /\ ScrapePrice Amazon url ∉ events r) /\
  (strings_Contains url "flipkart" = false ->
   strings_Contains url "amazon" = true ->
     ScrapePrice Amazon url ∈ events r /\ ScrapePrice Flipkart url ∉ events r) /\
  (strings_Contains url "flipkart" = false ->
   strings_Contains url "amazon" = false ->
     Log (UnsupportedVendor url) ∈ events r /\
     (forall v, ScrapePrice v url ∉ events r) /\
     StoreCall (Main.client m) (Main.collection m) (OpUpdateOne url) ∉ events r).
Proof.
  intros HF Hin Hd r url. subst r.
  rewrite Main_UpdatePrices_run, HF. unfold events at 1 2 3 4 5 6 7; simpl.
  set (loop := for_each _ _ w).
  assert (Hcalled : forall v, vendor_of url = Some v ->
            ScrapePrice v url ∈ StoreCall (Main.client m) (Main.collection m) OpFindAll
                                  :: events loop).
  { intros v Hv. apply elem_of_cons; right.
    apply for_each_events_intro with (x := d); [done|].
    intros w'. by apply Main_item_scrape_intro. }
  assert (Hnot : forall v, vendor_of url ≠ Some v ->
            ScrapePrice v url ∉ StoreCall (Main.client m) (Main.collection m) OpFindAll
                                  :: events loop).
  { intros v Hv [[=]|H]%elem_of_cons.
    apply for_each_events_inv in H as (d' & w' & _ & H).
    apply Main_item_scrape_inv in H as [_ H]. done. }
  split; [|split].
  - intros Hf. apply vendor_of_flipkart in Hf. split; [by apply Hcalled|].
    apply Hnot. by rewrite Hf.
  - intros Hf Ha. pose proof (vendor_of_amazon _ Hf Ha) as Hv.
    split; [by apply Hcalled|]. apply Hnot. by rewrite Hv.
  - intros Hf Ha. pose proof (vendor_of_none _ Hf Ha) as Hv. split; [|split].
    + apply elem_of_cons; right.
      apply for_each_events_intro with (x := d); [done|].
      intros w'. rewrite Main_item_unsupported_intro; [|done..].
      apply elem_of_cons; by left.
    + intros v. apply Hnot. by rewrite Hv.
    + intros [[=]|H]%elem_of_cons.
      apply for_each_events_inv in H as (d' & w' & _ & H).
      apply Main_item_update_inv in H as [_ H]. done.
Qed.

(** The theorem on a collection of three products: one of Flipkart, one of
    Amazon, one of another site (scenario 5). *)
Lemma C3_vendor_dispatch_witness :
  let w := Examples.one_collection "u"
             [Examples.tracked Examples.flipkart_url;
              Examples.tracked Examples.amazon_url;
              Examples.tracked Examples.other_url] in
  let r := Main.UpdatePrices (Examples.env ("100", None) ("120", None))
             (Main.mkMongoDB 0 "u") w in
  (ScrapePrice Flipkart Examples.flipkart_url ∈ events r /\
   ScrapePrice Amazon Examples.flipkart_url ∉ events r) /\
  (ScrapePrice Amazon Examples.amazon_url ∈ events r /\
   ScrapePrice Flipkart Examples.amazon_url ∉ events r) /\
  (Log (UnsupportedVendor Examples.other_url) ∈ events r /\
   (forall v, ScrapePrice v Examples.other_url ∉ events r) /\
   StoreCall 0 "u" (OpUpdateOne Examples.other_url) ∉ events r).
Proof.
  intros w r.
  assert (Hin : forall url, In url [Examples.flipkart_url; Examples.amazon_url;
                                    Examples.other_url] ->
                Examples.tracked url ∈ coll w "u").
  { intros url Hu. apply list_elem_of_In. vm_compute in Hu. vm_compute.
    destruct Hu as [<-|[<-|[<-|[]]]]; auto. }
  pose proof (fun url Hu =>
    C3_vendor_dispatch (Examples.env ("100", None) ("120", None))
      (Main.mkMongoDB 0 "u") w (Examples.tracked url) eq_refl (Hin url Hu) eq_refl)
    as H.
  split; [|split].
  - apply (proj1 (H Examples.flipkart_url ltac:(simpl; auto))). reflexivity.
  - apply (proj1 (proj2 (H Examples.amazon_url ltac:(simpl; auto)))); reflexivity.
  - apply (proj2 (proj2 (H Examples.other_url ltac:(simpl; auto)))); reflexivity.
Defined.

(** C3 as stated fails on a url that contains both names: the url of a
    Flipkart page for an "amazon-basics" cable contains "amazon", and the
    Amazon scraper is not called for it. *)
Lemma C3_counterexample :
  let w := Examples.one_collection "u" [Examples.tracked Examples.both_url] in
  let r := Main.UpdatePrices (Examples.env ("100", None) ("120", None))
             (Main.mkMongoDB 0 "u") w in
  strings_Contains Examples.both_url "amazon" = true /\
  ScrapePrice Flipkart Examples.both_url ∈ events r /\
  ScrapePrice Amazon Examples.both_url ∉ events r.
Proof.
  intros w r. split; [reflexivity|]. split.
  - apply list_elem_of_In. vm_compute. auto.
  - intros Hin%list_elem_of_In. vm_compute in Hin.
    repeat (destruct Hin as [Hin|Hin]; [discriminate Hin|]). exact Hin.
Qed.

(** The dispatch of [UpdatePrices] in the database package, as its braces
    nest it: an Amazon url is not scraped, a Flipkart url is scraped and
    then reported as unsupported, a url of another site ends the call
    without any diagnostic.  Each call returns nil and writes nothing. *)
Example database_dispatch_amazon_url :
  let product := Database.decode (Examples.tracked Examples.amazon_url) in
  let w := Examples.one_collection "u" [Examples.tracked Examples.amazon_url] in
  Database.UpdatePrices (Examples.env ("100", None) ("120", None)) 0 "u" product w
    = ((product, None), w, []).
Proof. by vm_compute. Qed.

Example database_dispatch_flipkart_url :
  let product := Database.decode (Examples.tracked Examples.flipkart_url) in
  let w := Examples.one_collection "u" [Examples.tracked Examples.flipkart_url] in
  Database.UpdatePrices (Examples.env ("100", None) ("120", None)) 0 "u" product w
    = ((product, None), w,
       [ScrapePrice Flipkart Examples.flipkart_url;
        Log (UnsupportedVendor Examples.flipkart_url)]).
Proof. by vm_compute. Qed.

Example database_dispatch_other_url :
  let product := Database.decode (Examples.tracked Examples.other_url) in
  let w := Examples.one_collection "u" [Examples.tracked Examples.other_url] in
  Database.UpdatePrices (Examples.env ("100", None) ("120", None)) 0 "u" product w
    = ((product, None), w, []).
Proof. by vm_compute. Qed.

(** ** A scrape that fails *)

(** In the loop of mongo.go a failed scrape ends the iteration with its
    diagnostic and an unchanged world, and the loop goes on with the rest
    of the cursor. *)
Lemma Main_scrape_failure_skips E m d rest w v s e :
  Decode_fails E d = None ->
  vendor_of (product_url d) = Some v ->
  scraper_of E v (product_url d) = (s, Some e) ->
  Main.UpdatePrices_item E m d w =
    (tt, w, [ScrapePrice v (product_url d); Log (ScrapeFailed v (product_url d) e)]) /\
  for_each (d :: rest) (Main.UpdatePrices_item E m) w =
    (tt, world (for_each rest (Main.UpdatePrices_item E m) w),
     [ScrapePrice v (product_url d); Log (ScrapeFailed v (product_url d) e)]
       ++ events (for_each rest (Main.UpdatePrices_item E m) w)).
Proof.
  intros Hd Hv Hs.
  assert (Hitem : Main.UpdatePrices_item E m d w =
    (tt, w, [ScrapePrice v (product_url d); Log (ScrapeFailed v (product_url d) e)])).
  { by rewrite Main_UpdatePrices_item_run, Hd, Hv, Hs. }
  split; [exact Hitem|]. by rewrite for_each_cons, Hitem.
Qed.

(** In the database package a failed Flipkart scrape returns the error
    and leaves the world as it was. *)
Lemma Database_flipkart_failure_returns E DB user product w s e :
  strings_Contains (Database.ProductURL product) "flipkart" = true ->
  ScrapePriceFlipkart E (Database.ProductURL product) = (s, Some e) ->
  Database.UpdatePrices E DB user product w =
    ((product, Some e), w,
     [ScrapePrice Flipkart (Database.ProductURL product);
      Log (ScrapeFailed Flipkart (Database.ProductURL product) e)]).
Proof.
  intros Hf Hs. unfold Database.UpdatePrices. rewrite Hf. io_unfold.
  by rewrite Hs.
Qed.

(** A failed Amazon scrape is logged and the call goes on with the string
    the scraper handed back: the call ends without a write only when that
    string does not parse. *)
Lemma Database_amazon_failure_goes_on E DB user product w s1 p1 s2 e :
  let url := Database.ProductURL product in
  strings_Contains url "flipkart" = true ->
  strings_Contains url "amazon" = true ->
  ScrapePriceFlipkart E url = (s1, None) ->
  ParseFloat E s1 = (p1, None) ->
  ScrapePriceAmazon E url = (s2, Some e) ->
  let r := Database.UpdatePrices E DB user product w in
  match ParseFloat E s2 with
  | (_, Some e') =>
      r = ((product, Some e'), w,
           [ScrapePrice Flipkart url; ScrapePrice Amazon url; Println s2;
            Log (ScrapeFailed Amazon url e); Log (ParseFailed s2 e')])
  | (p, None) =>
      result r = result (Database.persist E DB user product p w) /\
      world r = world (Database.persist E DB user product p w) /\
      events r =
        [ScrapePrice Flipkart url; ScrapePrice Amazon url; Println s2;
         Log (ScrapeFailed Amazon url e)]
          ++ events (Database.persist E DB user product p w)
  end.
Proof.
  intros url Hf Ha Hs1 Hp1 Hs2 r. subst r. unfold Database.UpdatePrices.
  fold url. rewrite Hf. io_unfold. rewrite Hs1. simpl. rewrite Hp1, Ha. simpl.
  rewrite Hs2. simpl.
  destruct (ParseFloat E s2) as [p [e'|]]; simpl; [done|].
  by destruct (Database.persist E DB user product p w) as [[[P' err] w1] t1].
Qed.

(** C4, the failing input.  In the database package the branch of the
    Amazon scraper logs the failure of the scrape and goes on: when the
    scraper hands back a string that parses together with its error, the
    call reports no error, and the price is appended to the history of the
    product and enters its aggregates. *)
Theorem C4_amazon_scrape_failure_not_skipped :
  let stored := Examples.tracked Examples.both_url in
  let w := Examples.one_collection "u" [stored] in
  let failure := Err "amazon: request timed out" in
  let E := Examples.env ("100", None) ("120", Some failure) in
  let r := Database.UpdatePrices E 0 "u" (Database.decode stored) w in
  ScrapePriceAmazon E Examples.both_url = ("120", Some failure) /\
  events r =
    [ScrapePrice Flipkart Examples.both_url;
     ScrapePrice Amazon Examples.both_url;
     Println "120";
     Log (ScrapeFailed Amazon Examples.both_url failure);
     StoreCall 0 "u" (OpUpdateOne Examples.both_url);
     PrintUpdated "A" 120%Q] /\
  (result r).2 = None /\
  coll (world r) "u" =
    [mkDocument Examples.both_url (Val "A") (Val "i") (Val ["s"])
       (Val [mkPrice 100%Q 1; mkPrice 80%Q 2; mkPrice 120%Q 0])
       (Val (Num 80)) (Val (Num 120))].
Proof. by vm_compute. Qed.

(** ** The repair pass of mongo.go *)

Section Repair.
Variable E : Env.
Variable scrapeProductDetails : string -> Main.Product + error.

Lemma Main_NewMongoDB_run uri username w :
  let c := clients w in
  Main.NewMongoDB E uri username w =
    (match Connect_fails E uri with
     | Some msg => inr (Err msg)
     | None =>
         match Ping_fails E with
         | Some msg => inr (Err msg)
         | None =>
             match CreateIndex_fails E username with
             | Some msg => inr (Err msg)
             | None => inl (Main.mkMongoDB c username)
             end
         end
     end,
     mkWorld (store w) (clock w) (S c),
     Connect c ::
       match Connect_fails E uri with
       | Some _ => []
       | None =>
           Ping c ::
             match Ping_fails E with
             | Some _ => []
             | None => [StoreCall c username OpCreateIndex]
             end
       end).
Proof.
  intros c. unfold Main.NewMongoDB, mongo_Connect. io_unfold. fold c.
  destruct (Connect_fails E uri); simpl; [done|].
  destruct (Ping_fails E); simpl; [done|].
  by destruct (CreateIndex_fails E username).
Qed.

Lemma Main_UpsertProduct_frame db P w :
  let r := Main.UpsertProduct E db P w in
  (forall name, name ≠ Main.collection db ->
     store (world r) !! name = store w !! name) /\
  clients (world r) = clients w /\
  Forall (on_session (Main.client db) (Main.collection db)) (events r).
Proof.
  intros r. subst r.
  assert (Hset : forall c name, name ≠ Main.collection db ->
            store (set_coll (Main.collection db) c w) !! name = store w !! name).
  { intros c name Hne. unfold set_coll; simpl. by rewrite lookup_insert_ne. }
  destruct (lookup_error E (Main.collection db) (Main.ProductURL P) w)
    as [msg|] eqn:Hl.
  { rewrite (Main_UpsertProduct_error _ _ _ _ _ Hl). unfold world, events; simpl.
    repeat split; auto. repeat constructor. }
  destruct (find_url (Main.ProductURL P) (coll w (Main.collection db)))
    as [d|] eqn:Hd.
  - rewrite (Main_UpsertProduct_found _ _ _ _ _ Hl Hd). unfold world, events; simpl.
    destruct (UpdateOne_fails E _ _); repeat split; auto; repeat constructor.
  - rewrite (Main_UpsertProduct_new _ _ _ _ Hl Hd). unfold world, events; simpl.
    destruct (UpdateOne_fails E _ _); repeat split; auto; repeat constructor.
Qed.

Lemma Main_repair_item_frame db d w :
  let r := Main.UpdateIncompleteRecords_item E scrapeProductDetails db d w in
  (forall name, name ≠ Main.collection db ->
     store (world r) !! name = store w !! name) /\
  clients (world r) = clients w /\
  Forall (on_session (Main.client db) (Main.collection db)) (events r).
Proof.
  intros r. subst r. unfold Main.UpdateIncompleteRecords_item.
  destruct (Decode_fails E d).
  { unfold world, events, emit; simpl. repeat split; auto. repeat constructor. }
  io_unfold.
  destruct (scrapeProductDetails (Main.ProductURL (Main.decode d))) as [P|e]; simpl.
  2:{ repeat split; auto. repeat constructor. }
  pose proof (Main_UpsertProduct_frame db P w) as (Hs & Hc & He).
  unfold world, events in Hs, Hc, He.
  destruct (Main.UpsertProduct E db P w) as [[[P' err] w1] t1]; simpl in *.
  destruct err; simpl; (split; [exact Hs|]); (split; [exact Hc|]);
    constructor; try done; apply Forall_app; split; try done; repeat constructor.
Qed.

Lemma Main_repair_loop_frame db items w :
  let r := for_each items (Main.UpdateIncompleteRecords_item E scrapeProductDetails db) w in
  (forall name, name ≠ Main.collection db ->
     store (world r) !! name = store w !! name) /\
  clients (world r) = clients w /\
  Forall (on_session (Main.client db) (Main.collection db)) (events r).
Proof.
  revert w. induction items as [|d rest IH]; intros w r; subst r.
  - unfold world, events; simpl. io_unfold. simpl. by repeat split.
  - rewrite for_each_cons.
    pose proof (Main_repair_item_frame db d w) as (Hs & Hc & He).
    destruct (IH (world (Main.UpdateIncompleteRecords_item E scrapeProductDetails db d w)))
      as (Hs' & Hc' & He').
    unfold world, events in *; simpl in *.
    split; [|split].
    + intros name Hne. rewrite Hs', Hs; auto.
    + by rewrite Hc', Hc.
    + apply Forall_app; by split.
Qed.

End Repair.

(** *** What the repair pass does not depend on *)

Lemma set_coll_commute name name' c c' w :
  name ≠ name' ->
  set_coll name' c' (set_coll name c w) = set_coll name c (set_coll name' c' w).
Proof.
  intros Hne. unfold set_coll; simpl. f_equal. by apply insert_insert_ne.
Qed.

Lemma ignores_ret {A} name (a : A) : ignores name (mret a).
Proof. done. Qed.

Lemma ignores_bind {A B} name (m : IO A) (k : A -> IO B) :
  ignores name m -> (forall a, ignores name (k a)) -> ignores name (m ≫= k).
Proof.
  intros Hm Hk c w. unfold ignores in *. io_unfold. rewrite Hm.
  destruct (m w) as [[a w1] t1]; simpl. rewrite Hk.
  by destruct (k a w1) as [[b w2] t2].
Qed.

(** The same, when the continuation is only run on results that satisfy
    a property the first computation guarantees. *)
Lemma ignores_bind_post {A B} name (P : A -> Prop) (m : IO A) (k : A -> IO B) :
  ignores name m -> (forall w, P (result (m w))) ->
  (forall a, P a -> ignores name (k a)) -> ignores name (m ≫= k).
Proof.
  intros Hm HP Hk c w. unfold ignores in *. io_unfold. rewrite Hm.
  specialize (HP w). destruct (m w) as [[a w1] t1]; simpl in *.
  rewrite (Hk a HP). by destruct (k a w1) as [[b w2] t2].
Qed.

Lemma ignores_emit name e : ignores name (emit e).
Proof. done. Qed.

Lemma ignores_get_coll name name' : name ≠ name' -> ignores name (get_coll name').
Proof.
  intros Hne c w. unfold get_coll, result, world, events; simpl.
  by rewrite coll_set_coll_ne.
Qed.

Lemma ignores_put_coll name name' c' : name ≠ name' -> ignores name (put_coll name' c').
Proof.
  intros Hne c w. unfold put_coll, result, world, events; simpl.
  by rewrite set_coll_commute.
Qed.

Lemma ignores_for_each {A} name (items : list A) body :
  (forall x, ignores name (body x)) -> ignores name (for_each items body).
Proof.
  intros Hb. induction items as [|x rest IH]; simpl.
  - apply ignores_ret.
  - apply ignores_bind; [apply Hb | intros _; apply IH].
Qed.

Section RepairIgnores.
Variable E : Env.
Variable scrapeProductDetails : string -> Main.Product + error.
Variable name : string.

Lemma ignores_FindOne cl name' url :
  name ≠ name' -> ignores name (FindOne E cl name' url).
Proof.
  intros Hne. unfold FindOne.
  apply ignores_bind; [apply ignores_emit | intros _].
  destruct (FindOne_fails E name' url); [apply ignores_ret|].
  apply ignores_bind; [by apply ignores_get_coll | intros c].
  destruct (find_url url c) as [d|]; [|apply ignores_ret].
  destruct (Decode_fails E d); apply ignores_ret.
Qed.

Lemma ignores_UpdateOne cl name' url upd upsert :
  name ≠ name' -> ignores name (UpdateOne E cl name' url upd upsert).
Proof.
  intros Hne. unfold UpdateOne.
  apply ignores_bind; [apply ignores_emit | intros _].
  destruct (UpdateOne_fails E name' url); [apply ignores_ret|].
  apply ignores_bind; [by apply ignores_get_coll | intros c].
  destruct (find_url url c) as [d|].
  - destruct (upd d); [|apply ignores_ret].
    apply ignores_bind; [by apply ignores_put_coll | intros _; apply ignores_ret].
  - destruct upsert; [|apply ignores_ret].
    destruct (upd (new_document url)); [|apply ignores_ret].
    apply ignores_bind; [by apply ignores_put_coll | intros _; apply ignores_ret].
Qed.

Lemma ignores_Find cl name' op flt :
  name ≠ name' -> ignores name (Find E cl name' op flt).
Proof.
  intros Hne. unfold Find.
  apply ignores_bind; [apply ignores_emit | intros _].
  destruct (Find_fails E name'); [apply ignores_ret|].
  apply ignores_bind; [by apply ignores_get_coll | intros c; apply ignores_ret].
Qed.

Lemma ignores_Main_UpsertProduct db P :
  name ≠ Main.collection db -> ignores name (Main.UpsertProduct E db P).
Proof.
  intros Hne. unfold Main.UpsertProduct.
  apply ignores_bind; [by apply ignores_FindOne | intros [found err]].
  destruct (is_err err && _); [apply ignores_ret|].
  apply ignores_bind; [by apply ignores_UpdateOne | intros e; apply ignores_ret].
Qed.

Lemma ignores_Main_repair_item db d :
  name ≠ Main.collection db ->
  ignores name (Main.UpdateIncompleteRecords_item E scrapeProductDetails db d).
Proof.
  intros Hne. unfold Main.UpdateIncompleteRecords_item.
  destruct (Decode_fails E d); [apply ignores_emit|].
  apply ignores_bind; [apply ignores_emit | intros _].
  destruct (scrapeProductDetails _) as [P|e]; [|apply ignores_emit].
  apply ignores_bind; [by apply ignores_Main_UpsertProduct | intros [P' err]].
  destruct err; apply ignores_emit.
Qed.

Lemma ignores_Main_NewMongoDB uri username :
  ignores name (Main.NewMongoDB E uri username).
Proof.
  unfold Main.NewMongoDB.
  apply ignores_bind; [done | intros [c err]].
  destruct err; [apply ignores_ret|].
  apply ignores_bind; [apply ignores_emit | intros _].
  destruct (Ping_fails E); [apply ignores_ret|].
  apply ignores_bind; [apply ignores_emit | intros _].
  destruct (CreateIndex_fails E username); apply ignores_ret.
Qed.

Lemma Main_NewMongoDB_collection uri username w :
  match result (Main.NewMongoDB E uri username w) with
  | inl db => Main.collection db = username
  | inr _ => True
  end.
Proof.
  rewrite Main_NewMongoDB_run. unfold result; simpl.
  destruct (Connect_fails E uri); [done|]. destruct (Ping_fails E); [done|].
  by destruct (CreateIndex_fails E username).
Qed.

(** The repair pass ignores every collection but "cypher". *)
Lemma ignores_Main_UpdateIncompleteRecords MongoURI h :
  name ≠ "cypher" ->
  ignores name (Main.UpdateIncompleteRecords E scrapeProductDetails MongoURI h).
Proof.
  intros Hne. unfold Main.UpdateIncompleteRecords.
  apply ignores_bind_post with
    (P := fun r => match r with
                   | inl db => Main.collection db = "cypher"
                   | inr _ => True
                   end).
  { apply ignores_Main_NewMongoDB. }
  { apply Main_NewMongoDB_collection. }
  intros [db|e] Hdb.
  2:{ apply ignores_bind; [apply ignores_emit | intros _; apply ignores_ret]. }
  assert (Hne' : name ≠ Main.collection db) by by rewrite Hdb.
  apply ignores_bind; [apply ignores_emit | intros _].
  apply ignores_bind; [by apply ignores_Find | intros [cursor err]].
  destruct err.
  { apply ignores_bind; [apply ignores_emit | intros _; apply ignores_ret]. }
  apply ignores_bind.
  { apply ignores_for_each. intros d. by apply ignores_Main_repair_item. }
  intros _. apply ignores_bind; [apply ignores_emit | intros _; apply ignores_ret].
Qed.

End RepairIgnores.

Lemma on_session_other_client c name t c' name' op :
  Forall (on_session c name) t -> c' ≠ c \/ name' ≠ name ->
  StoreCall c' name' op ∉ t.
Proof.
  intros Ht Hne Hin. rewrite Forall_forall in Ht.
  destruct (Ht _ Hin) as [-> ->]. by destruct Hne.
Qed.

(** C10, as amended.  For every handle h opened before the call, whatever
    the user it was opened for: the repair pass does not depend on h; it
    opens a new client, and all its calls of the driver, the scan and the
    upserts among them, go through that client and are on the collection
    "cypher"; no call goes through the client of h; every collection other
    than "cypher" is left as it was and has no influence on the pass, so
    the collection of h is neither read nor written unless h itself was
    opened for "cypher". *)
Theorem C10_repair_uses_cypher
    (E : Env) (scrapeProductDetails : string -> Main.Product + error)
    (MongoURI : string)
    (h h' : Main.MongoDB) (w : World) :
  let r := Main.UpdateIncompleteRecords E scrapeProductDetails MongoURI h w in
  Main.UpdateIncompleteRecords E scrapeProductDetails MongoURI h' w = r /\
  (exists t, events r = Connect (clients w) :: t) /\
  Forall (on_session (clients w) "cypher") (events r) /\
  (forall name, name ≠ "cypher" -> store (world r) !! name = store w !! name) /\
  (Main.client h < clients w ->
     forall name op, StoreCall (Main.client h) name op ∉ events r) /\
  (Main.collection h ≠ "cypher" ->
     coll (world r) (Main.collection h) = coll w (Main.collection h) /\
     (forall c op, StoreCall c (Main.collection h) op ∉ events r) /\
     ignores (Main.collection h)
       (Main.UpdateIncompleteRecords E scrapeProductDetails MongoURI h)).
Proof.
  intros r. split; [reflexivity|].
  assert (Hmain :
    (exists t, events r = Connect (clients w) :: t) /\
    Forall (on_session (clients w) "cypher") (events r) /\
    (forall name, name ≠ "cypher" -> store (world r) !! name = store w !! name)).
  { subst r. unfold Main.UpdateIncompleteRecords. io_unfold.
    rewrite Main_NewMongoDB_run.
    set (c := clients w). set (w0 := mkWorld (store w) (clock w) (S c)).
    destruct (Connect_fails E MongoURI); simpl.
    { split; [eauto|]. split; [repeat constructor | done]. }
    destruct (Ping_fails E); simpl.
    { split; [eauto|]. split; [repeat constructor | done]. }
    destruct (CreateIndex_fails E "cypher"); simpl.
    { split; [eauto|]. split; [repeat constructor | done]. }
    rewrite Find_run. simpl.
    destruct (Find_fails E "cypher"); simpl.
    { split; [eauto|]. split; [repeat constructor | done]. }
    pose proof (Main_repair_loop_frame E scrapeProductDetails
                  (Main.mkMongoDB c "cypher")
                  (List.filter incomplete_filter (coll w0 "cypher")) w0)
      as (Hs & Hc & He).
    unfold world, events in Hs, Hc, He. simpl in Hs, Hc, He.
    destruct (for_each _ _ w0) as [[[] w1] t1]; simpl in *.
    split; [eauto|]. split; [|exact Hs].
    repeat (constructor; [done|]).
    apply Forall_app; split; [exact He|]. repeat constructor. }
  destruct Hmain as (Hfresh & Hall & Hframe).
  split; [exact Hfresh|]. split; [exact Hall|]. split; [exact Hframe|]. split.
  - intros Hlt name op. apply (on_session_other_client _ _ _ _ _ _ Hall).
    left. lia.
  - intros Hne. split; [|split].
    + unfold coll. by rewrite Hframe.
    + intros c op. apply (on_session_other_client _ _ _ _ _ _ Hall). by right.
    + by apply ignores_Main_UpdateIncompleteRecords.
Qed.

(** The theorem for the handle of the user "alice", in a world where the
    collection "cypher" holds an incomplete product. *)
Lemma C10_repair_uses_cypher_witness :
  let h := Main.mkMongoDB 0 "alice" in
  let w := Examples.two_users in
  let r := Main.UpdateIncompleteRecords Examples.quiet Examples.scrape_details Examples.uri h w in
  (Main.client h < clients w /\ Main.collection h ≠ "cypher") /\
  result r = Main.Return None /\
  coll (world r) "cypher" =
    [mkDocument Examples.amazon_url (Val "A2") (Val "i2") (Val ["s2"])
       Null Absent Absent] /\
  (forall name op, StoreCall 0 name op ∉ events r) /\
  coll (world r) "alice" = coll w "alice" /\
  (forall c op, StoreCall c "alice" op ∉ events r) /\
  ignores "alice"
    (Main.UpdateIncompleteRecords Examples.quiet Examples.scrape_details Examples.uri h).
Proof.
  intros h w r.
  assert (Hlt : Main.client h < clients w) by (vm_compute; lia).
  assert (Hne : Main.collection h ≠ "cypher") by done.
  destruct (C10_repair_uses_cypher Examples.quiet Examples.scrape_details Examples.uri h h w)
    as (_ & _ & _ & _ & Hclient & Hcoll).
  split; [by split|]. split; [reflexivity|]. split; [reflexivity|].
  split; [exact (Hclient Hlt)|]. exact (Hcoll Hne).
Defined.

(** C10 as stated fails for a handle opened for "cypher" itself: its own
    collection is the one the repair pass scans and rewrites. *)
Lemma C10_counterexample :
  let h := Main.mkMongoDB 0 "cypher" in
  let w := Examples.two_users in
  let r := Main.UpdateIncompleteRecords Examples.quiet Examples.scrape_details Examples.uri h w in
  StoreCall 1 (Main.collection h) OpFindIncomplete ∈ events r /\
  StoreCall 1 (Main.collection h) (OpUpdateOne Examples.amazon_url) ∈ events r /\
  coll (world r) (Main.collection h) ≠ coll w (Main.collection h).
Proof.
  intros h w r. split; [|split].
  - apply list_elem_of_In. vm_compute. auto 10.
  - apply list_elem_of_In. vm_compute. auto 10.
  - vm_compute. intros [=].
Qed.
(** ** Aggregates and history *)

(** *** The order of [float64] *)

Lemma Qle_bool_false x y : Qle_bool x y = false -> (y < x)%Q.
Proof.
  intros H. apply Qnot_le_lt. intros Hle. apply Qle_bool_iff in Hle. congruence.
Qed.

(** Case analysis on the floats of the context, then on the comparisons of
    rationals that are left, which go to [lra]. *)
Ltac float_cases :=
  repeat match goal with
         | H : context [Qle_bool ?a ?b] |- _ =>
             let E := fresh "E" in
             destruct (Qle_bool a b) eqn:E;
             [apply Qle_bool_iff in E | apply Qle_bool_false in E]
         | H : context [Qeq_bool ?a ?b] |- _ =>
             let E := fresh "E" in
             destruct (Qeq_bool a b) eqn:E;
             [apply Qeq_bool_iff in E | apply Qeq_bool_neq in E]
         | |- context [Qle_bool ?a ?b] =>
             let E := fresh "E" in
             destruct (Qle_bool a b) eqn:E;
             [apply Qle_bool_iff in E | apply Qle_bool_false in E]
         | |- context [Qeq_bool ?a ?b] =>
             let E := fresh "E" in
             destruct (Qeq_bool a b) eqn:E;
             [apply Qeq_bool_iff in E | apply Qeq_bool_neq in E]
         end.

Ltac float_solve :=
  unfold fle, fgt, same_float, plain_price in *;
  repeat match goal with
         | H : _ /\ _ |- _ => destruct H
         | x : float64 |- _ => destruct x as [|[]|?]
         end;
  simpl in *; try done;
  float_cases; simpl in *; try done; try (exfalso; lra).

Lemma feq_refl x : x ≠ NaN -> feq x x = true.
Proof. intros H. float_solve. Qed.

Lemma feq_trans x y z : feq x y = true -> feq y z = true -> feq x z = true.
Proof. intros H1 H2. float_solve. Qed.

Lemma feq_sym x y : feq x y = true -> feq y x = true.
Proof. intros H. float_solve. Qed.

Lemma feq_not_NaN x y : feq x y = true -> x ≠ NaN /\ y ≠ NaN.
Proof. intros H. split; intros ->; float_solve. Qed.

Lemma fle_not_NaN x y : fle x y = true -> x ≠ NaN /\ y ≠ NaN.
Proof. intros H. split; intros ->; float_solve. Qed.

Lemma fle_refl x : x ≠ NaN -> fle x x = true.
Proof. intros H. float_solve. Qed.

Lemma fle_trans x y z : fle x y = true -> fle y z = true -> fle x z = true.
Proof. intros H1 H2. float_solve. Qed.

Lemma feq_fle x y : feq x y = true -> fle x y = true.
Proof. intros H. float_solve. Qed.

Lemma flt_fle x y : flt x y = true -> fle x y = true.
Proof. intros H. float_solve. Qed.

(** Without NaN the order is total. *)
Lemma not_flt_fle x y :
  x ≠ NaN -> y ≠ NaN -> flt x y = false -> fle y x = true.
Proof. intros Hx Hy H. float_solve. Qed.

Lemma feq_zero_compat x y :
  feq x y = true -> feq x 0%Q = feq y 0%Q.
Proof. intros H. float_solve. Qed.

Lemma flt_feq_compat p x y :
  feq x y = true -> flt p x = flt p y /\ flt x p = flt y p.
Proof. intros H. split; float_solve. Qed.

(** *** Minimum and maximum of a history *)

Lemma is_min_not_NaN lo vs : is_min lo vs -> lo ≠ NaN /\ Forall (fun v => v ≠ NaN) vs.
Proof.
  intros [Hex Hall]. split.
  - apply Exists_exists in Hex as (v & _ & Hv). by apply feq_not_NaN in Hv as [? _].
  - eapply Forall_impl; [exact Hall|]. intros v Hv. simpl in Hv.
    by apply fle_not_NaN in Hv as [_ ?].
Qed.

Lemma is_max_not_NaN hi vs : is_max hi vs -> hi ≠ NaN.
Proof.
  intros [Hex _].
  apply Exists_exists in Hex as (v & _ & Hv). by apply feq_not_NaN in Hv as [? _].
Qed.

Lemma is_min_feq lo lo' vs : is_min lo vs -> feq lo' lo = true -> is_min lo' vs.
Proof.
  intros [Hex Hall] He. split.
  - eapply Exists_impl; [exact Hex|]. intros v Hv. simpl in *.
    by apply feq_trans with lo.
  - eapply Forall_impl; [exact Hall|]. intros v Hv. simpl in *.
    apply fle_trans with lo; [by apply feq_fle | done].
Qed.

Lemma is_max_feq hi hi' vs : is_max hi vs -> feq hi' hi = true -> is_max hi' vs.
Proof.
  intros [Hex Hall] He. split.
  - eapply Exists_impl; [exact Hex|]. intros v Hv. simpl in *.
    by apply feq_trans with hi.
  - eapply Forall_impl; [exact Hall|]. intros v Hv. simpl in *.
    apply fle_trans with hi; [done | by apply feq_fle, feq_sym].
Qed.

(** One more value: it is the new minimum when it is strictly below the
    old one, and the old one stays the minimum otherwise. *)
Lemma is_min_snoc lo vs p :
  is_min lo vs -> p ≠ NaN ->
  is_min (if flt p lo then p else lo) (vs ++ [p]).
Proof.
  intros Hm Hp. pose proof (is_min_not_NaN _ _ Hm) as [Hlo _].
  destruct Hm as [Hex Hall].
  destruct (flt p lo) eqn:Hlt; split.
  - apply Exists_app. right. constructor. by apply feq_refl.
  - apply Forall_app. split.
    + eapply Forall_impl; [exact Hall|]. intros v Hv. simpl in *.
      apply fle_trans with lo; [by apply flt_fle | done].
    + constructor; [by apply fle_refl | constructor].
  - apply Exists_app. by left.
  - apply Forall_app. split; [done|].
    constructor; [by apply not_flt_fle | constructor].
Qed.

Lemma is_max_snoc hi vs p :
  is_max hi vs -> p ≠ NaN ->
  is_max (if fgt p hi then p else hi) (vs ++ [p]).
Proof.
  intros Hm Hp. pose proof (is_max_not_NaN _ _ Hm) as Hhi.
  destruct Hm as [Hex Hall]. unfold fgt.
  destruct (flt hi p) eqn:Hlt; split.
  - apply Exists_app. right. constructor. by apply feq_refl.
  - apply Forall_app. split.
    + eapply Forall_impl; [exact Hall|]. intros v Hv. simpl in *.
      apply fle_trans with hi; [done | by apply flt_fle].
    + constructor; [by apply fle_refl | constructor].
  - apply Exists_app. by left.
  - apply Forall_app. split; [done|].
    constructor; [by apply not_flt_fle | constructor].
Qed.

Lemma consistent_spec_aggregates p :
  aggregates_of (Database.PriceHistory p) (Database.MinPrice p)
    (Database.MaxPrice p) ->
  spec_aggregates p.
Proof.
  unfold aggregates_of, spec_aggregates.
  destruct (values (Database.PriceHistory p)); [done|].
  by intros (? & ? & _).
Qed.

Lemma same_float_feq x y : same_float x y -> y ≠ NaN -> feq x y = true.
Proof. intros [H|[_ ->]] Hy; done. Qed.

Lemma aggregates_of_not_NaN h lo hi :
  aggregates_of h lo hi -> lo ≠ NaN /\ hi ≠ NaN.
Proof.
  unfold aggregates_of. destruct (values h).
  - intros [H1 H2]. split; [by apply feq_not_NaN in H1 as [? _]
                           | by apply feq_not_NaN in H2 as [? _]].
  - intros (H1 & H2 & _). split; [by apply is_min_not_NaN in H1 as [? _]
                                 | by apply is_max_not_NaN in H2].
Qed.

Lemma aggregates_of_same h lo hi lo' hi' :
  aggregates_of h lo hi -> same_float lo' lo -> same_float hi' hi ->
  aggregates_of h lo' hi'.
Proof.
  intros Ha Slo Shi. pose proof (aggregates_of_not_NaN _ _ _ Ha) as [Nlo Nhi].
  apply same_float_feq in Slo; [|done]. apply same_float_feq in Shi; [|done].
  revert Ha. unfold aggregates_of. destruct (values h).
  - intros [H1 H2]. split; by eapply feq_trans.
  - intros (H1 & H2 & H3 & H4).
    rewrite (feq_zero_compat _ _ Slo), (feq_zero_compat _ _ Shi).
    split; [by eapply is_min_feq|]. split; [by eapply is_max_feq|]. done.
Qed.

Lemma new_min_feq product p lo :
  feq (Database.MinPrice product) lo = true ->
  Database.new_min product p = if feq lo 0%Q || flt p lo then p
                               else Database.MinPrice product.
Proof.
  intros H. unfold Database.new_min.
  by rewrite (feq_zero_compat _ _ H), (proj1 (flt_feq_compat p _ _ H)).
Qed.

Lemma new_max_feq product p hi :
  feq (Database.MaxPrice product) hi = true ->
  Database.new_max product p = if feq hi 0%Q || fgt p hi then p
                               else Database.MaxPrice product.
Proof.
  intros H. unfold Database.new_max, fgt.
  by rewrite (feq_zero_compat _ _ H), (proj2 (flt_feq_compat p _ _ H)).
Qed.

(** One more price: the step of the refresh keeps the invariant, when the
    product came with the aggregates of the history and the price is a
    number other than the sentinel. *)
Lemma aggregates_of_push h lo hi product p now :
  aggregates_of h lo hi ->
  same_float (Database.MinPrice product) lo ->
  same_float (Database.MaxPrice product) hi ->
  plain_price p ->
  aggregates_of (Some (elems h ++ [mkPrice p now]))
    (Database.new_min product p) (Database.new_max product p).
Proof.
  intros Ha Slo Shi [Hp Hp0].
  pose proof (aggregates_of_not_NaN _ _ _ Ha) as [Nlo Nhi].
  apply same_float_feq in Slo; [|done]. apply same_float_feq in Shi; [|done].
  rewrite (new_min_feq _ _ _ Slo), (new_max_feq _ _ _ Shi).
  revert Ha. unfold aggregates_of, values. simpl. rewrite map_app. simpl.
  destruct (map Value (elems h)) as [|v vs] eqn:Hv; simpl.
  - intros [-> ->]. simpl. repeat split; try done.
    + constructor. by apply feq_refl.
    + constructor; [by apply fle_refl | constructor].
    + constructor. by apply feq_refl.
    + constructor; [by apply fle_refl | constructor].
  - intros (Hmin & Hmax & Hlo0 & Hhi0). rewrite Hlo0, Hhi0. simpl.
    pose proof (is_min_snoc _ _ p Hmin Hp) as Hmin'.
    pose proof (is_max_snoc _ _ p Hmax Hp) as Hmax'.
    simpl in Hmin', Hmax'.
    assert (Hlo' : feq (Database.MinPrice product) 0%Q = false)
      by by rewrite (feq_zero_compat _ _ Slo).
    assert (Hhi' : feq (Database.MaxPrice product) 0%Q = false)
      by by rewrite (feq_zero_compat _ _ Shi).
    split; [|split; [|split]].
    + destruct (flt p lo); [done|]. by eapply is_min_feq.
    + destruct (fgt p hi); [done|]. by eapply is_max_feq.
    + by destruct (flt p lo).
    + by destruct (fgt p hi).
Qed.

(** *** The invariant along the operations *)

Lemma Database_decode_set_product P d :
  Database.decode (Database.set_product P d) = P.
Proof. destruct P. unfold Database.decode. simpl. by rewrite !get_put_slice. Qed.

Lemma store_consistent_set_coll user c w :
  store_consistent w ->
  (forall d, d ∈ c -> consistent (Database.decode d)) ->
  store_consistent (set_coll user c w).
Proof.
  intros Hw Hc user' d. destruct (decide (user = user')) as [<-|Hne].
  - rewrite coll_set_coll_eq. apply Hc.
  - rewrite coll_set_coll_ne by done. apply Hw.
Qed.

Lemma store_consistent_tick w :
  store_consistent w ->
  store_consistent (mkWorld (store w) (clock w + 1) (clients w)).
Proof. intros Hw user d. apply Hw. Qed.

Lemma upsert_keeps_consistent E DB P user w :
  store_consistent w ->
  carries_stored_aggregates w user P ->
  (find_url (Database.ProductURL P) (coll w user) = None -> consistent P) ->
  store_consistent (world (Database.UpsertProduct E DB P user w)).
Proof.
  intros Hw Hcar Hnew.
  destruct (lookup_error E user (Database.ProductURL P) w) as [msg|] eqn:Hl.
  { by rewrite (Database_UpsertProduct_error _ _ _ _ _ _ Hl). }
  destruct (find_url (Database.ProductURL P) (coll w user)) as [d|] eqn:Hd.
  - rewrite (Database_UpsertProduct_found _ _ _ _ _ _ Hl Hd). unfold world; simpl.
    destruct (UpdateOne_fails E user _); [done|].
    apply store_consistent_set_coll; [done|].
    intros d' [Hin|(d0 & Hd0 & ->)]%update_first_elem; [by apply (Hw user)|].
    rewrite Database_decode_set_product.
    assert (d0 = d) as -> by congruence.
    destruct (Hcar d Hd) as [Elo Ehi].
    apply find_url_Some in Hd as [_ Hin].
    intros Hplain.
    exact (aggregates_of_same _ _ _ _ _ (Hw user d Hin Hplain) Elo Ehi).
  - rewrite (Database_UpsertProduct_new _ _ _ _ _ Hl Hd). unfold world; simpl.
    destruct (UpdateOne_fails E user _); [done|].
    apply store_consistent_set_coll; [done|].
    intros d' [Hin|Hin%list_elem_of_singleton]%elem_of_app; [by apply (Hw user)|].
    subst d'. rewrite Database_decode_set_product. by apply Hnew.
Qed.

Lemma refresh_keeps_consistent E DB user product w :
  store_consistent w ->
  carries_stored_aggregates w user product ->
  store_consistent (world (Database.UpdatePrices E DB user product w)).
Proof.
  intros Hw Hcar.
  destruct (Database_UpdatePrices_cases E DB user product w)
    as [(-> & _)|(p & _ & _ & Hp & _ & -> & _)]; [done|].
  rewrite Database_persist_run. unfold world; simpl.
  destruct (push_error E user _ _); [by apply store_consistent_tick|].
  destruct (find_url _ _) as [d|] eqn:Hd; [|by apply store_consistent_tick].
  apply store_consistent_set_coll; [by apply store_consistent_tick|].
  intros d' [Hin|(d0 & Hd0 & ->)]%update_first_elem; [by apply (Hw user)|].
  assert (d0 = d) as -> by congruence.
  destruct (Hcar d Hd) as [Elo Ehi].
  apply find_url_Some in Hd as [_ Hin].
  unfold consistent, Database.decode, values. simpl.
  rewrite map_app, Forall_app. intros [Hplain Hplain'].
  apply Forall_cons in Hplain' as [Hpp _].
  pose proof (Hw user d Hin) as Hc. unfold consistent, values in Hc. simpl in Hc.
  assert (Hel : elems (get_slice (price_history d)) = get [] (price_history d))
    by by destruct (price_history d).
  rewrite Hel in Hc. specialize (Hc Hplain).
  pose proof (aggregates_of_push _ _ _ product p (clock w) Hc Elo Ehi Hpp) as Hpush.
  by rewrite Hel in Hpush.
Qed.

Lemma reachable_consistent w : reachable w -> store_consistent w.
Proof.
  induction 1 as [w Hempty|w w' _ IH Hstep].
  - intros user d. unfold coll. rewrite Hempty, lookup_empty. simpl.
    by intros ?%elem_of_nil.
  - destruct Hstep as [E DB P user Hcar Hnew|E DB user product Hcar].
    + by apply upsert_keeps_consistent.
    + by apply refresh_keeps_consistent.
Qed.

(** C2, as amended.  From an empty store, over any sequence of upserts that
    carry the stored aggregates of their product (or, for a new url, a
    product of which the conclusion below holds) and of refreshes of the
    database package that are called with the stored aggregates: every
    stored product whose price_history holds neither 0 nor NaN has, when
    the history is not empty, min_price equal to the least and max_price
    equal to the greatest of its values, and neither is 0; and it has both
    at 0 when the history is empty.  In particular this holds after every
    successful refresh of such a product. *)
Theorem C2_aggregates_follow_history
    (w : World) (user : string) (d : Document) :
  reachable w ->
  d ∈ coll w user ->
  Forall plain_price (values (Database.PriceHistory (Database.decode d))) ->
  spec_aggregates (Database.decode d) /\
  aggregates_of (Database.PriceHistory (Database.decode d))
    (Database.MinPrice (Database.decode d)) (Database.MaxPrice (Database.decode d)).
Proof.
  intros Hr Hin Hplain.
  pose proof (reachable_consistent w Hr user d Hin Hplain) as Hc.
  split; [by apply consistent_spec_aggregates | exact Hc].
Qed.

(** A caller that reads the product from the store before the refresh
    passes the stored aggregates. *)
Lemma carries_of_stored w user url d :
  find_url url (coll w user) = Some d ->
  Database.MinPrice (Database.decode d) ≠ NaN ->
  Database.MaxPrice (Database.decode d) ≠ NaN ->
  carries_stored_aggregates w user (Examples.stored_product w user url).
Proof.
  intros Hd Nlo Nhi d' Hd'. unfold Examples.stored_product in *. rewrite Hd in *.
  simpl in Hd'. apply find_url_Some in Hd as Hu. destruct Hu as [Hu _].
  rewrite Hu, Hd in Hd'. injection Hd' as <-.
  split; left; by apply feq_refl.
Defined.

(** The theorem after scenario 1 and two refreshes, at 100 and at 80, each
    called with the product as the store holds it. *)
Lemma C2_aggregates_follow_history_witness :
  let stored w := Examples.stored_product w "u" Examples.both_url in
  let w1 := world (Database.UpsertProduct Examples.quiet 0 Examples.fresh "u"
                     Examples.empty) in
  let w2 := world (Examples.refresh "100" w1) in
  let w3 := world (Examples.refresh "80" w2) in
  let d := mkDocument Examples.both_url (Val "A") (Val "i") (Val ["s"])
             (Val [mkPrice 100%Q 0; mkPrice 80%Q 1]) (Val (Num 80)) (Val (Num 100)) in
  reachable w3 /\
  coll w3 "u" = [d] /\
  Forall plain_price (values (Database.PriceHistory (Database.decode d))) /\
  spec_aggregates (Database.decode d) /\
  aggregates_of (Database.PriceHistory (Database.decode d))
    (Database.MinPrice (Database.decode d)) (Database.MaxPrice (Database.decode d)).
Proof.
  intros stored w1 w2 w3 d.
  assert (H1 : reachable w1).
  { apply reachable_step with Examples.empty; [by apply reachable_empty|].
    apply step_upsert.
    - intros d0 Hd0. discriminate Hd0.
    - intros _ _. split; reflexivity. }
  assert (H2 : reachable w2).
  { apply reachable_step with w1; [exact H1|].
    apply step_refresh.
    by apply carries_of_stored with
      (d := Database.set_product Examples.fresh (new_document Examples.both_url)). }
  assert (H3 : reachable w3).
  { apply reachable_step with w2; [exact H2|].
    apply step_refresh.
    by apply carries_of_stored with
      (d := mkDocument Examples.both_url (Val "A") (Val "i") (Val ["s"])
              (Val [mkPrice 100%Q 0]) (Val (Num 100)) (Val (Num 100))). }
  assert (Hc : coll w3 "u" = [d]) by reflexivity.
  assert (Hplain : Forall plain_price
                     (values (Database.PriceHistory (Database.decode d)))).
  { repeat constructor; done. }
  split; [exact H3|]. split; [exact Hc|]. split; [exact Hplain|].
  apply (C2_aggregates_follow_history w3 "u" d H3); [|exact Hplain].
  rewrite Hc. apply elem_of_cons. by left.
Defined.

(** C2 as stated fails.  A product is stored, refreshed at 100 and at 80,
    upserted again with new descriptive fields, and refreshed at 120, each
    refresh called with the product as the store holds it: the last refresh
    succeeds and leaves min_price at 120 with 80 in the history. *)
Lemma C2_counterexample :
  let w1 := world (Database.UpsertProduct Examples.quiet 0 Examples.fresh "u"
                     Examples.empty) in
  let w2 := world (Examples.refresh "100" w1) in
  let w3 := world (Examples.refresh "80" w2) in
  let w4 := world (Database.UpsertProduct Examples.quiet 0
                     (Examples.rescraped Examples.both_url) "u" w3) in
  let r := Examples.refresh "120" w4 in
  let d := mkDocument Examples.both_url (Val "A2") (Val "i2") (Val ["s2"])
             (Val [mkPrice 100%Q 0; mkPrice 80%Q 1; mkPrice 120%Q 2])
             (Val (Num 120)) (Val (Num 120)) in
  (result r).2 = None /\
  coll (world r) "u" = [d] /\
  ~ spec_aggregates (Database.decode d).
Proof.
  intros w1 w2 w3 w4 r d. split; [by vm_compute|]. split; [by vm_compute|].
  intros [[_ Hlo] _]. apply Forall_cons in Hlo as [Hlo _].
  vm_compute in Hlo. discriminate Hlo.
Qed.

(** The other conditions of the amended claim are needed as well. *)

(** A scraped price of 0 is taken for the sentinel by the next refresh. *)
Example zero_price_breaks_aggregates :
  let w1 := world (Database.UpsertProduct Examples.quiet 0 Examples.fresh "u"
                     Examples.empty) in
  let w2 := world (Examples.refresh "0" w1) in
  let r := Examples.refresh "50" w2 in
  (result r).2 = None /\
  coll (world r) "u" =
    [mkDocument Examples.both_url (Val "A") (Val "i") (Val ["s"])
       (Val [mkPrice 0%Q 0; mkPrice 50%Q 1]) (Val (Num 50)) (Val (Num 50))].
Proof. by vm_compute. Qed.

(** A scraped "NaN" parses; it is stored as both aggregates and stays
    there, since no later price compares below or above it. *)
Example nan_price_breaks_aggregates :
  let w1 := world (Database.UpsertProduct Examples.quiet 0 Examples.fresh "u"
                     Examples.empty) in
  let w2 := world (Examples.refresh "NaN" w1) in
  let r := Examples.refresh "50" w2 in
  (result r).2 = None /\
  coll (world r) "u" =
    [mkDocument Examples.both_url (Val "A") (Val "i") (Val ["s"])
       (Val [mkPrice NaN 0; mkPrice 50%Q 1]) (Val NaN) (Val NaN)].
Proof. by vm_compute. Qed.

(** The aggregates written are computed from the product the caller
    passes, not from the stored one. *)
Example stale_product_breaks_aggregates :
  let w := Examples.one_collection "u" [Examples.tracked Examples.both_url] in
  let r := Database.UpdatePrices (Examples.env ("120", None) ("120", None)) 0 "u"
             Examples.fresh w in
  (result r).2 = None /\
  coll (world r) "u" =
    [mkDocument Examples.both_url (Val "A") (Val "i") (Val ["s"])
       (Val [mkPrice 100%Q 1; mkPrice 80%Q 2; mkPrice 120%Q 0])
       (Val (Num 120)) (Val (Num 120))].
Proof. by vm_compute. Qed.

(** The refresh of mongo.go appends the price and writes no aggregate. *)
Example main_refresh_writes_no_aggregate :
  let w := Examples.one_collection "u" [new_document Examples.amazon_url] in
  let r := Main.UpdatePrices (Examples.env ("100", None) ("120", None))
             (Main.mkMongoDB 0 "u") w in
  result r = None /\
  coll (world r) "u" =
    [mkDocument Examples.amazon_url Absent Absent Absent
       (Val [mkPrice 120%Q 0]) Absent Absent].
Proof. by vm_compute. Qed.

(** * More of the two packages *)

(** ** Documents are kept, histories grow *)

Lemma refreshed_refl d : refreshed d d.
Proof. by repeat split. Qed.

Lemma refreshed_trans d1 d2 d3 : refreshed d1 d2 -> refreshed d2 d3 -> refreshed d1 d3.
Proof.
  intros (Hu & Hn & Hi & Hs & Hh) (Hu' & Hn' & Hi' & Hs' & Hh').
  repeat split; try congruence. by etrans.
Qed.

Lemma doc_extends_refl d : doc_extends d d.
Proof. by split. Qed.

Lemma doc_extends_trans d1 d2 d3 :
  doc_extends d1 d2 -> doc_extends d2 d3 -> doc_extends d1 d3.
Proof. intros [Hu Hh] [Hu' Hh']. split; [congruence | by etrans]. Qed.

Lemma refreshed_doc_extends d d' : refreshed d d' -> doc_extends d d'.
Proof. intros (Hu & _ & _ & _ & Hh). by split. Qed.

Lemma Forall2_refl_on {A} (R : A -> A -> Prop) (l : list A) :
  (forall x, R x x) -> Forall2 R l l.
Proof. intros HR. induction l; constructor; auto. Qed.

Lemma Forall2_trans_on {A} (R : A -> A -> Prop) (l1 l2 l3 : list A) :
  (forall x y z, R x y -> R y z -> R x z) ->
  Forall2 R l1 l2 -> Forall2 R l2 l3 -> Forall2 R l1 l3.
Proof.
  intros HR H12. revert l3. induction H12 as [|x y l1 l2 Hxy _ IH]; intros l3 H23.
  - by inversion H23.
  - inversion H23 as [|? z ? l3' Hyz H23']; subst. constructor; eauto.
Qed.

(** The update of the first match relates the collection to itself when
    it relates the document found to its update. *)
Lemma update_first_Forall2 (R : Document -> Document -> Prop) url upd c d :
  (forall x, R x x) ->
  find_url url c = Some d -> R d (upd d) ->
  Forall2 R c (update_first url upd c).
Proof.
  intros HR. unfold find_url. induction c as [|x c IH]; simpl; [done|].
  destruct (matches_url url x).
  - intros [= ->] Hd. constructor; [done | by apply Forall2_refl_on].
  - intros Hf Hd. constructor; auto.
Qed.

Lemma urls_Forall2 (R : Document -> Document -> Prop) c c' :
  (forall d d', R d d' -> product_url d' = product_url d) ->
  Forall2 R c c' -> urls c' = urls c.
Proof.
  intros HR H. induction H as [|d d' c c' Hd _ IH]; simpl; [done|].
  by rewrite (HR _ _ Hd), IH.
Qed.

Lemma find_url_None_urls url c : find_url url c = None <-> url ∉ urls c.
Proof.
  unfold find_url, urls. induction c as [|x c IH]; simpl.
  - split; [intros _; apply not_elem_of_nil | done].
  - rewrite not_elem_of_cons. unfold matches_url at 1.
    case_bool_decide as Hx; split.
    + done.
    + intros [Hne _]. by destruct Hne.
    + intros H. split; [congruence | by apply IH].
    + intros [_ H]. by apply IH.
Qed.

Lemma only_prices_added_refl w : only_prices_added w w.
Proof. intros name. apply Forall2_refl_on, refreshed_refl. Qed.

Lemma only_prices_added_trans w1 w2 w3 :
  only_prices_added w1 w2 -> only_prices_added w2 w3 -> only_prices_added w1 w3.
Proof.
  intros H12 H23 name.
  eapply Forall2_trans_on; [apply refreshed_trans | apply H12 | apply H23].
Qed.

Lemma only_prices_added_tick w :
  only_prices_added w (mkWorld (store w) (clock w + 1) (clients w)).
Proof. intros name. apply (Forall2_refl_on refreshed (coll w name)), refreshed_refl. Qed.

(** An update that refreshes the document found. *)
Lemma only_prices_added_update w name url upd d :
  find_url url (coll w name) = Some d -> refreshed d (upd d) ->
  only_prices_added w (set_coll name (update_first url upd (coll w name)) w).
Proof.
  intros Hd Hr name'. destruct (decide (name = name')) as [<-|Hne].
  - rewrite coll_set_coll_eq.
    by apply update_first_Forall2 with (d := d); [apply refreshed_refl|..].
  - rewrite coll_set_coll_ne by done. apply Forall2_refl_on, refreshed_refl.
Qed.

Lemma refreshed_push_price p d : refreshed d (pushed p d).
Proof. repeat split. simpl. by apply prefix_app_r. Qed.

Lemma refreshed_push_aggregates p lo hi d :
  refreshed d (set_aggregates lo hi (pushed p d)).
Proof. repeat split. simpl. by apply prefix_app_r. Qed.

Lemma for_each_rel {A} (R : World -> World -> Prop) (items : list A) body w :
  (forall w0, R w0 w0) ->
  (forall w1 w2 w3, R w1 w2 -> R w2 w3 -> R w1 w3) ->
  (forall x w0, R w0 (world (body x w0))) ->
  R w (world (for_each items body w)).
Proof.
  intros Hrefl Htrans Hb. revert w. induction items as [|x rest IH]; intros w.
  - apply Hrefl.
  - rewrite for_each_cons. unfold world at 1; simpl.
    eapply Htrans; [apply Hb | apply IH].
Qed.

Lemma Main_AddPrice_run E m url price w :
  let name := Main.collection m in
  let w1 := mkWorld (store w) (clock w + 1) (clients w) in
  let err := push_error E name url (coll w name) in
  Main.AddPrice E m url price w =
    (err,
     match err with
     | Some _ => w1
     | None =>
         match find_url url (coll w name) with
         | Some _ =>
             set_coll name
               (update_first url (pushed (mkPrice price (clock w))) (coll w name)) w1
         | None => w1
         end
     end,
     [StoreCall (Main.client m) name (OpUpdateOne url)]).
Proof.
  intros name w1 err. unfold Main.AddPrice. io_unfold.
  rewrite (UpdateOne_push_run E _ _ _ (mkPrice price (clock w)) (fun x => x))
    by (intros d; by destruct (push_price _ d)).
  simpl. fold name.
  change (coll {| store := store w; clock := (clock w + 1)%Z; clients := clients w |} name)
    with (coll w name).
  fold err. by destruct err.
Qed.

(** A push on the first match, after a reading of the clock. *)
Lemma only_prices_added_push w name url (upd : Document -> Document) :
  (forall d, refreshed d (upd d)) ->
  only_prices_added w
    match find_url url (coll w name) with
    | Some _ =>
        set_coll name (update_first url upd (coll w name))
          (mkWorld (store w) (clock w + 1) (clients w))
    | None => mkWorld (store w) (clock w + 1) (clients w)
    end.
Proof.
  intros Hupd. destruct (find_url url (coll w name)) as [d|] eqn:Hd.
  - eapply only_prices_added_trans; [apply only_prices_added_tick|].
    exact (only_prices_added_update
             (mkWorld (store w) (clock w + 1) (clients w)) name url upd d Hd (Hupd d)).
  - apply only_prices_added_tick.
Qed.

Lemma Main_AddPrice_only_prices E m url price w :
  only_prices_added w (world (Main.AddPrice E m url price w)).
Proof.
  rewrite Main_AddPrice_run. unfold world; simpl.
  destruct (push_error E _ _ _); [apply only_prices_added_tick|].
  apply only_prices_added_push. intros d. apply refreshed_push_price.
Qed.

Lemma Main_UpdatePrices_item_only_prices E m d w :
  only_prices_added w (world (Main.UpdatePrices_item E m d w)).
Proof.
  rewrite Main_UpdatePrices_item_run.
  destruct (Decode_fails E d); [apply only_prices_added_refl|].
  destruct (vendor_of (product_url d)) as [v|]; [|apply only_prices_added_refl].
  destruct (scraper_of E v (product_url d)) as [s [e|]]; [apply only_prices_added_refl|].
  destruct (ParseFloat E s) as [p [e|]]; [apply only_prices_added_refl|].
  unfold world at 1; simpl. rewrite Main_push_current_run. unfold world; simpl.
  destruct (push_error E _ _ _); [apply only_prices_added_tick|].
  apply only_prices_added_push. intros d0. apply refreshed_push_price.
Qed.

Lemma Main_UpdatePrices_only_prices E m w :
  only_prices_added w (world (Main.UpdatePrices E m w)).
Proof.
  rewrite Main_UpdatePrices_run.
  destruct (Find_fails E _); [apply only_prices_added_refl|].
  unfold world at 1; simpl.
  apply for_each_rel;
    [apply only_prices_added_refl | apply only_prices_added_trans |].
  intros d w0. apply Main_UpdatePrices_item_only_prices.
Qed.

Lemma Database_UpdatePrices_only_prices E DB user product w :
  only_prices_added w (world (Database.UpdatePrices E DB user product w)).
Proof.
  destruct (Database_UpdatePrices_cases E DB user product w)
    as [(-> & _)|(p & _ & _ & _ & _ & -> & _)]; [apply only_prices_added_refl|].
  rewrite Database_persist_run. unfold world; simpl.
  destruct (push_error E _ _ _); [apply only_prices_added_tick|].
  apply only_prices_added_push. intros d0. apply refreshed_push_aggregates.
Qed.

(** X6.  [AddPrice] and [UpdatePrices] of mongo.go add prices and nothing
    else: after either call every collection holds the same documents in
    the same order, each with its url, name, image and specifications and
    with a history that starts with the one it had. *)
Theorem Main_refresh_adds_prices_only
    (E : Env) (m : Main.MongoDB) (url : string) (price : float64) (w : World) :
  only_prices_added w (world (Main.AddPrice E m url price w)) /\
  only_prices_added w (world (Main.UpdatePrices E m w)).
Proof.
  split; [apply Main_AddPrice_only_prices | apply Main_UpdatePrices_only_prices].
Qed.

(** X7.  [UpdatePrices] of the database package adds prices and nothing
    else to the documents, and it writes nothing at all when it returns an
    error or when no product is stored under the url of its argument: it
    never creates a product. *)
Theorem Database_UpdatePrices_adds_prices_only
    (E : Env) (DB : nat) (user : string) (product : Database.Product) (w : World) :
  let r := Database.UpdatePrices E DB user product w in
  only_prices_added w (world r) /\
  ((result r).2 ≠ None -> store (world r) = store w) /\
  (find_url (Database.ProductURL product) (coll w user) = None ->
     store (world r) = store w).
Proof.
  intros r. split; [apply Database_UpdatePrices_only_prices|]. subst r.
  destruct (Database_UpdatePrices_cases E DB user product w)
    as [(-> & _)|(p & _ & _ & _ & -> & -> & _)]; [done|].
  rewrite Database_persist_run. unfold result, world; simpl.
  destruct (push_error E _ _ _); simpl; [done|]. split; [done|].
  by intros ->.
Qed.

(** ** Upserts and the repair pass: nothing is lost, keys stay unique *)

Lemma store_unique_same w w' :
  (forall name, coll w' name = coll w name) -> store_unique w -> store_unique w'.
Proof. intros H Hu name. rewrite H. apply Hu. Qed.

Lemma grows_same w w' : (forall name, coll w' name = coll w name) -> grows w w'.
Proof.
  intros H. split; [|by apply store_unique_same].
  intros name. exists (coll w name), []. rewrite app_nil_r, H.
  split; [done|]. apply Forall2_refl_on, doc_extends_refl.
Qed.

Lemma grows_refl w : grows w w.
Proof. by apply grows_same. Qed.

Lemma grows_trans w1 w2 w3 : grows w1 w2 -> grows w2 w3 -> grows w1 w3.
Proof.
  intros [H12 U12] [H23 U23]. split; [|auto].
  intros name.
  destruct (H12 name) as (k1 & a1 & E2 & F1).
  destruct (H23 name) as (k2 & a2 & E3 & F2).
  rewrite E2 in F2. apply Forall2_app_inv_l in F2 as (k21 & k22 & F21 & F22 & ->).
  exists k21, (k22 ++ a2). split; [by rewrite E3, app_assoc|].
  eapply Forall2_trans_on; [apply doc_extends_trans | exact F1 | exact F21].
Qed.

Lemma only_prices_added_grows w w' : only_prices_added w w' -> grows w w'.
Proof.
  intros H. split.
  - intros name. exists (coll w' name), []. rewrite app_nil_r. split; [done|].
    eapply Forall2_impl; [apply H | apply refreshed_doc_extends].
  - intros Hu name.
    rewrite (urls_Forall2 refreshed (coll w name) (coll w' name)); [apply Hu| |apply H].
    by intros d d' (Hd & _).
Qed.

(** An update that keeps the key and extends the history of the document
    found. *)
Lemma grows_update w name url upd d :
  find_url url (coll w name) = Some d -> doc_extends d (upd d) ->
  grows w (set_coll name (update_first url upd (coll w name)) w).
Proof.
  intros Hd He.
  assert (HF : Forall2 doc_extends (coll w name) (update_first url upd (coll w name))).
  { by apply update_first_Forall2 with (d := d); [apply doc_extends_refl|..]. }
  split.
  - intros name'. destruct (decide (name = name')) as [<-|Hne].
    + rewrite coll_set_coll_eq. exists (update_first url upd (coll w name)), [].
      by rewrite app_nil_r.
    + rewrite coll_set_coll_ne by done. exists (coll w name'), [].
      rewrite app_nil_r. split; [done|]. apply Forall2_refl_on, doc_extends_refl.
  - intros Hu name'. destruct (decide (name = name')) as [<-|Hne].
    + rewrite coll_set_coll_eq.
      rewrite (urls_Forall2 doc_extends (coll w name) _); [apply Hu| |exact HF].
      by intros ? ? [? _].
    + rewrite coll_set_coll_ne by done. apply Hu.
Qed.

(** The insertion of a document under a url that is not stored. *)
Lemma grows_insert w name url x :
  find_url url (coll w name) = None -> product_url x = url ->
  grows w (set_coll name (coll w name ++ [x]) w).
Proof.
  intros Hn Hx. split.
  - intros name'. destruct (decide (name = name')) as [<-|Hne].
    + rewrite coll_set_coll_eq. exists (coll w name), [x]. split; [done|].
      apply Forall2_refl_on, doc_extends_refl.
    + rewrite coll_set_coll_ne by done. exists (coll w name'), [].
      rewrite app_nil_r. split; [done|]. apply Forall2_refl_on, doc_extends_refl.
  - intros Hu name'. destruct (decide (name = name')) as [<-|Hne].
    + rewrite coll_set_coll_eq. unfold urls. rewrite map_app. simpl.
      apply NoDup_app. split; [apply Hu|]. split.
      * intros y Hy [->|[]%elem_of_nil]%elem_of_cons.
        apply find_url_None_urls in Hn. apply Hn. by rewrite <- Hx.
      * apply NoDup_singleton.
    + rewrite coll_set_coll_ne by done. apply Hu.
Qed.

Section Growth.
Variable E : Env.

Lemma Database_UpsertProduct_grows DB P user w :
  grows w (world (Database.UpsertProduct E DB P user w)).
Proof.
  destruct (lookup_error E user (Database.ProductURL P) w) as [msg|] eqn:Hl.
  { rewrite (Database_UpsertProduct_error _ _ _ _ _ _ Hl). apply grows_refl. }
  destruct (find_url (Database.ProductURL P) (coll w user)) as [d|] eqn:Hd.
  - rewrite (Database_UpsertProduct_found _ _ _ _ _ _ Hl Hd). unfold world; simpl.
    destruct (UpdateOne_fails E user _); [apply grows_refl|].
    apply grows_update with (d := d); [done|].
    split; [|simpl; by rewrite get_put_get_slice].
    simpl. by apply find_url_Some in Hd as [-> _].
  - rewrite (Database_UpsertProduct_new _ _ _ _ _ Hl Hd). unfold world; simpl.
    destruct (UpdateOne_fails E user _); [apply grows_refl|].
    by apply grows_insert with (url := Database.ProductURL P).
Qed.

Lemma Main_UpsertProduct_grows m P w :
  grows w (world (Main.UpsertProduct E m P w)).
Proof.
  destruct (lookup_error E (Main.collection m) (Main.ProductURL P) w)
    as [msg|] eqn:Hl.
  { rewrite (Main_UpsertProduct_error _ _ _ _ _ Hl). apply grows_refl. }
  destruct (find_url (Main.ProductURL P) (coll w (Main.collection m)))
    as [d|] eqn:Hd.
  - rewrite (Main_UpsertProduct_found _ _ _ _ _ Hl Hd). unfold world; simpl.
    destruct (UpdateOne_fails E _ _); [apply grows_refl|].
    apply grows_update with (d := d); [done|].
    split; [|simpl; by rewrite get_put_get_slice].
    simpl. by apply find_url_Some in Hd as [-> _].
  - rewrite (Main_UpsertProduct_new _ _ _ _ Hl Hd). unfold world; simpl.
    destruct (UpdateOne_fails E _ _); [apply grows_refl|].
    by apply grows_insert with (url := Main.ProductURL P).
Qed.

End Growth.

Section RepairGrowth.
Variable E : Env.

Lemma Database_repair_item_world DB scrape user d w :
  world (Database.UpdateIncompleteRecords_item E DB scrape user d w) =
    match Decode_fails E d with
    | Some _ => w
    | None =>
        match scrape (product_url d) with
        | inr _ => w
        | inl P => world (Database.UpsertProduct E DB P user w)
        end
    end.
Proof.
  unfold Database.UpdateIncompleteRecords_item.
  destruct (Decode_fails E d); [done|]. io_unfold. simpl.
  destruct (scrape (product_url d)) as [P|e]; simpl; [|done].
  destruct (Database.UpsertProduct E DB P user w) as [[err w1] t1]; simpl.
  by destruct err.
Qed.

Lemma Main_repair_item_world scrape db d w :
  world (Main.UpdateIncompleteRecords_item E scrape db d w) =
    match Decode_fails E d with
    | Some _ => w
    | None =>
        match scrape (product_url d) with
        | inr _ => w
        | inl P => world (Main.UpsertProduct E db P w)
        end
    end.
Proof.
  unfold Main.UpdateIncompleteRecords_item.
  destruct (Decode_fails E d); [done|]. io_unfold. simpl.
  destruct (scrape (product_url d)) as [P|e]; simpl; [|done].
  destruct (Main.UpsertProduct E db P w) as [[[P' err] w1] t1]; simpl.
  by destruct err.
Qed.

Lemma Database_UpdateIncompleteRecords_grows DB scrape user w :
  grows w (world (Database.UpdateIncompleteRecords E DB scrape user w)).
Proof.
  unfold Database.UpdateIncompleteRecords. io_unfold. rewrite Find_run. simpl.
  destruct (Find_fails E user); simpl; [apply grows_refl|].
  pose proof (for_each_rel grows (List.filter incomplete_filter (coll w user))
                (Database.UpdateIncompleteRecords_item E DB scrape user) w
                grows_refl grows_trans) as Hloop.
  unfold world in Hloop.
  destruct (for_each _ _ w) as [[[] w1] t1]; simpl in *.
  apply Hloop. intros d w0.
  pose proof (Database_repair_item_world DB scrape user d w0) as Hw.
  unfold world in Hw. rewrite Hw.
  destruct (Decode_fails E d); [apply grows_refl|].
  destruct (scrape (product_url d)) as [P|e]; [|apply grows_refl].
  apply Database_UpsertProduct_grows.
Qed.

Lemma Main_UpdateIncompleteRecords_grows scrape uri h w :
  grows w (world (Main.UpdateIncompleteRecords E scrape uri h w)).
Proof.
  unfold Main.UpdateIncompleteRecords. io_unfold. rewrite Main_NewMongoDB_run.
  set (w0 := mkWorld (store w) (clock w) (S (clients w))).
  assert (H0 : grows w w0) by by apply grows_same.
  destruct (Connect_fails E uri); simpl; [exact H0|].
  destruct (Ping_fails E); simpl; [exact H0|].
  destruct (CreateIndex_fails E "cypher"); simpl; [exact H0|].
  rewrite Find_run. simpl.
  destruct (Find_fails E "cypher"); simpl; [exact H0|].
  set (db := Main.mkMongoDB (clients w) "cypher").
  pose proof (for_each_rel grows (List.filter incomplete_filter (coll w0 "cypher"))
                (Main.UpdateIncompleteRecords_item E scrape db) w0
                grows_refl grows_trans) as Hloop.
  unfold world in Hloop.
  destruct (for_each _ _ w0) as [[[] w1] t1]; simpl in *.
  apply (grows_trans _ _ _ H0). apply Hloop. intros d w2.
  pose proof (Main_repair_item_world scrape db d w2) as Hw.
  unfold world in Hw. rewrite Hw.
  destruct (Decode_fails E d); [apply grows_refl|].
  destruct (scrape (product_url d)) as [P|e]; [|apply grows_refl].
  apply Main_UpsertProduct_grows.
Qed.

End RepairGrowth.

(** X9.  No operation of the database package loses anything: after an
    upsert, a refresh or a repair pass every collection still starts with
    the documents it had, in their order and under their urls, each with
    a history that begins with the one it had; documents are only added
    behind them. *)
Theorem Database_operations_append_only
    (E : Env) (DB : nat) (scrape : string -> Database.Product + error)
    (user : string) (P : Database.Product) (w : World) :
  append_only w (world (Database.UpsertProduct E DB P user w)) /\
  append_only w (world (Database.UpdatePrices E DB user P w)) /\
  append_only w (world (Database.UpdateIncompleteRecords E DB scrape user w)).
Proof.
  split; [apply Database_UpsertProduct_grows|]. split.
  - apply only_prices_added_grows, Database_UpdatePrices_only_prices.
  - apply Database_UpdateIncompleteRecords_grows.
Qed.

(** X11.  The database package creates no unique index, and its operations
    keep the urls unique all the same: when no two documents of a
    collection share a product_url before an upsert, a refresh or a repair
    pass, none do after it. *)
Theorem Database_operations_keep_urls_unique
    (E : Env) (DB : nat) (scrape : string -> Database.Product + error)
    (user : string) (P : Database.Product) (w : World) :
  store_unique w ->
  store_unique (world (Database.UpsertProduct E DB P user w)) /\
  store_unique (world (Database.UpdatePrices E DB user P w)) /\
  store_unique (world (Database.UpdateIncompleteRecords E DB scrape user w)).
Proof.
  intros Hu. split; [by apply Database_UpsertProduct_grows|]. split.
  - exact (proj2 (only_prices_added_grows _ _
                    (Database_UpdatePrices_only_prices E DB user P w)) Hu).
  - by apply Database_UpdateIncompleteRecords_grows.
Qed.

(** X8.  No operation of mongo.go loses anything: after [UpsertProduct],
    [AddPrice], [UpdatePrices] or [UpdateIncompleteRecords] every
    collection still starts with the documents it had, in their order and
    under their urls, each with a history that begins with the one it
    had; documents are only added behind them. *)
Theorem Main_operations_append_only
    (E : Env) (scrape : string -> Main.Product + error) (uri : string)
    (m : Main.MongoDB) (P : Main.Product) (url : string) (price : float64)
    (w : World) :
  append_only w (world (Main.UpsertProduct E m P w)) /\
  append_only w (world (Main.AddPrice E m url price w)) /\
  append_only w (world (Main.UpdatePrices E m w)) /\
  append_only w (world (Main.UpdateIncompleteRecords E scrape uri m w)).
Proof.
  split; [apply Main_UpsertProduct_grows|]. split; [|split].
  - apply only_prices_added_grows, Main_AddPrice_only_prices.
  - apply only_prices_added_grows, Main_UpdatePrices_only_prices.
  - apply Main_UpdateIncompleteRecords_grows.
Qed.

(** X10.  The operations of mongo.go keep the urls unique by themselves,
    without a rejection by the unique index: when no two documents of a
    collection share a product_url before [UpsertProduct], [AddPrice],
    [UpdatePrices] or [UpdateIncompleteRecords], none do after it. *)
Theorem Main_operations_keep_urls_unique
    (E : Env) (scrape : string -> Main.Product + error) (uri : string)
    (m : Main.MongoDB) (P : Main.Product) (url : string) (price : float64)
    (w : World) :
  store_unique w ->
  store_unique (world (Main.UpsertProduct E m P w)) /\
  store_unique (world (Main.AddPrice E m url price w)) /\
  store_unique (world (Main.UpdatePrices E m w)) /\
  store_unique (world (Main.UpdateIncompleteRecords E scrape uri m w)).
Proof.
  intros Hu. split; [by apply Main_UpsertProduct_grows|]. split; [|split].
  - exact (proj2 (only_prices_added_grows _ _
                    (Main_AddPrice_only_prices E m url price w)) Hu).
  - exact (proj2 (only_prices_added_grows _ _
                    (Main_UpdatePrices_only_prices E m w)) Hu).
  - by apply Main_UpdateIncompleteRecords_grows.
Qed.

Lemma store_unique_one_collection name c :
  NoDup (urls c) -> store_unique (Examples.one_collection name c).
Proof.
  intros Hc name'. unfold coll, Examples.one_collection; simpl.
  destruct (decide (name = name')) as [<-|Hne].
  - by rewrite lookup_singleton_eq.
  - rewrite lookup_singleton_ne by done. apply NoDup_nil_2.
Defined.

(** The theorem on a collection of two products, for the upsert of a third
    one, the refresh of the first and a repair pass. *)
Lemma Database_operations_keep_urls_unique_witness :
  let w := Examples.one_collection "u"
             [Examples.tracked Examples.amazon_url;
              new_document Examples.flipkart_url] in
  let E := Examples.env ("100", None) ("120", None) in
  let scrape url := inl (Examples.rescraped url) in
  let P := Examples.rescraped Examples.both_url in
  store_unique w /\
  urls (coll (world (Database.UpsertProduct E 0 P "u" w)) "u")
    = [Examples.amazon_url; Examples.flipkart_url; Examples.both_url] /\
  store_unique (world (Database.UpsertProduct E 0 P "u" w)) /\
  store_unique (world (Database.UpdatePrices E 0 "u" P w)) /\
  store_unique (world (Database.UpdateIncompleteRecords E 0 scrape "u" w)).
Proof.
  intros w E scrape P.
  assert (Hw : store_unique w).
  { apply store_unique_one_collection.
    apply (bool_decide_unpack _). by vm_compute. }
  split; [exact Hw|]. split; [by vm_compute|].
  exact (Database_operations_keep_urls_unique E 0 scrape "u" P w Hw).
Defined.

Lemma Main_operations_keep_urls_unique_witness :
  let w := Examples.one_collection "cypher"
             [Examples.tracked Examples.amazon_url;
              new_document Examples.flipkart_url] in
  let E := Examples.env ("100", None) ("120", None) in
  let m := Main.mkMongoDB 0 "cypher" in
  let P := Examples.rescraped_main Examples.both_url in
  store_unique w /\
  store_unique (world (Main.UpsertProduct E m P w)) /\
  store_unique (world (Main.AddPrice E m Examples.amazon_url 42%Q w)) /\
  store_unique (world (Main.UpdatePrices E m w)) /\
  store_unique (world (Main.UpdateIncompleteRecords E Examples.scrape_details
                         Examples.uri m w)).
Proof.
  intros w E m P.
  assert (Hw : store_unique w).
  { apply store_unique_one_collection.
    apply (bool_decide_unpack _). by vm_compute. }
  split; [exact Hw|].
  exact (Main_operations_keep_urls_unique E Examples.scrape_details Examples.uri
           m P Examples.amazon_url 42%Q w Hw).
Defined.

(** ** Lookups and round trips in mongo.go *)

Lemma Main_decode_set_product P d : Main.decode (Main.set_product P d) = P.
Proof. destruct P. unfold Main.decode. simpl. by rewrite !get_put_slice. Qed.

Lemma elems_get_slice {A} (f : bson (list A)) : elems (get_slice f) = get [] f.
Proof. by destruct f. Qed.

Lemma Main_GetProduct_run E m url w :
  let name := Main.collection m in
  Main.GetProduct E m url w =
    (match FindOne_fails E name url with
     | Some msg => (None, Some (Err msg))
     | None =>
         match find_url url (coll w name) with
         | None => (None, Some ErrNoDocuments)
         | Some d =>
             match Decode_fails E d with
             | Some msg => (None, Some (Err msg))
             | None => (Some (Main.decode d), None)
             end
         end
     end, w, [StoreCall (Main.client m) name (OpFindOne url)]).
Proof.
  intros name. unfold Main.GetProduct. io_unfold. rewrite FindOne_run. fold name.
  destruct (FindOne_fails E name url); [done|].
  destruct (find_url url (coll w name)) as [d|]; [|done].
  by destruct (Decode_fails E d).
Qed.

(** X1.  [GetProduct] reads and never writes.  It returns either a product
    or an error, never both and never neither; the error is
    [ErrNoDocuments] exactly when the call of the driver does not fail and
    no document has the url; a product returned is the decoding of the
    first stored document with that url, and carries that url. *)
Theorem Main_GetProduct_lookup
    (E : Env) (m : Main.MongoDB) (url : string) (w : World) :
  let r := Main.GetProduct E m url w in
  let name := Main.collection m in
  world r = w /\
  ((result r).1 = None <-> (result r).2 ≠ None) /\
  ((result r).2 = Some ErrNoDocuments <->
     FindOne_fails E name url = None /\ find_url url (coll w name) = None) /\
  (forall p, (result r).1 = Some p ->
     Main.ProductURL p = url /\
     exists d, find_url url (coll w name) = Some d /\ p = Main.decode d).
Proof.
  intros r name. subst r. rewrite Main_GetProduct_run. fold name.
  unfold result, world; simpl.
  destruct (FindOne_fails E name url) as [msg|]; simpl.
  { repeat split; try done. by intros [? _]. }
  destruct (find_url url (coll w name)) as [d|] eqn:Hd; simpl.
  2:{ repeat split; done. }
  destruct (Decode_fails E d) as [msg|]; simpl.
  { repeat split; try done. by intros [_ ?]. }
  split; [done|]. split; [split; [done | by intros H]|].
  split; [split; [done | by intros [_ ?]]|].
  intros p [= <-]. split; [by apply find_url_Some in Hd as [? _] | eauto].
Qed.

(** X2.  What a successful [UpsertProduct] stored is what [GetProduct]
    reads back: the product as the call left it behind its pointer, with
    the descriptive fields the caller gave and the history that was stored
    under the url before (the history the caller gave, when the url was
    new). *)
Theorem Main_upsert_then_get
    (E E' : Env) (m : Main.MongoDB) (P : Main.Product) (w : World) :
  let r := Main.UpsertProduct E m P w in
  let name := Main.collection m in
  let url := Main.ProductURL P in
  (result r).2 = None ->
  lookup_error E' name url (world r) = None ->
  result (Main.GetProduct E' m url (world r)) = (Some (result r).1, None) /\
  Main.ProductURL (result r).1 = url /\
  Main.ProductName (result r).1 = Main.ProductName P /\
  Main.ImageURL (result r).1 = Main.ImageURL P /\
  Main.Specifications (result r).1 = Main.Specifications P /\
  Main.PriceHistory (result r).1 =
    match find_url url (coll w name) with
    | Some d => get_slice (price_history d)
    | None => Main.PriceHistory P
    end.
Proof.
  intros r name url. subst r.
  destruct (lookup_error E name url w) as [msg|] eqn:Hl.
  { by rewrite (Main_UpsertProduct_error _ _ _ _ _ Hl). }
  destruct (find_url url (coll w name)) as [d|] eqn:Hd.
  - rewrite (Main_UpsertProduct_found _ _ _ _ _ Hl Hd).
    unfold result, world; simpl. fold url name.
    destruct (UpdateOne_fails E name url); [done|]. intros _ Hl'.
    split; [|done].
    set (P' := Main.with_history P _) in *.
    rewrite Main_GetProduct_run. simpl. fold name.
    unfold lookup_error in Hl'. rewrite coll_set_coll_eq in *.
    rewrite (find_url_update_first _ _ _ d) in * by done.
    destruct (FindOne_fails E' name url); [done|].
    destruct (Decode_fails E' (Main.set_product P' d)); [done|].
    by rewrite Main_decode_set_product.
  - rewrite (Main_UpsertProduct_new _ _ _ _ Hl Hd).
    unfold result, world; simpl. fold url name.
    destruct (UpdateOne_fails E name url); [done|]. intros _ Hl'.
    split; [|done].
    set (x := Main.set_product P _) in *.
    assert (Hx : matches_url url x = true) by by apply matches_url_true.
    rewrite Main_GetProduct_run. simpl. fold name.
    unfold lookup_error in Hl'. rewrite coll_set_coll_eq in *.
    rewrite find_url_app, Hx in * by done.
    destruct (FindOne_fails E' name url); [done|].
    destruct (Decode_fails E' x); [done|].
    unfold x. by rewrite Main_decode_set_product.
Qed.

Lemma Main_upsert_then_get_witness :
  let w := Examples.one_collection "u" [Examples.tracked Examples.amazon_url] in
  let m := Main.mkMongoDB 0 "u" in
  let r := Main.UpsertProduct Examples.quiet m
             (Examples.rescraped_main Examples.amazon_url) w in
  result (Main.GetProduct Examples.quiet m Examples.amazon_url (world r))
    = (Some (Main.mkProduct Examples.amazon_url "A2" "i2" (Some ["s2"])
               (Some [mkPrice 100%Q 1; mkPrice 80%Q 2])), None).
Proof.
  intros w m r.
  exact (proj1 (Main_upsert_then_get Examples.quiet Examples.quiet m
                  (Examples.rescraped_main Examples.amazon_url) w eq_refl eq_refl)).
Defined.

(** X3.  A price that [AddPrice] appended to a stored product is the last
    entry of the history [GetProduct] reads back, behind the entries that
    were there; the rest of the product is as it was. *)
Theorem Main_add_price_then_get
    (E E' : Env) (m : Main.MongoDB) (url : string) (price : float64)
    (w : World) (d : Document) :
  let r := Main.AddPrice E m url price w in
  let name := Main.collection m in
  find_url url (coll w name) = Some d ->
  result r = None ->
  lookup_error E' name url (world r) = None ->
  result (Main.GetProduct E' m url (world r)) =
    (Some (Main.with_history (Main.decode d)
             (Some (elems (Main.PriceHistory (Main.decode d))
                      ++ [mkPrice price (clock w)]))),
     None).
Proof.
  intros r name Hd. subst r. rewrite Main_AddPrice_run. fold name.
  unfold result, world; simpl.
  destruct (push_error E name url (coll w name)); [done|]. rewrite Hd. intros _ Hl'.
  rewrite Main_GetProduct_run. simpl. fold name.
  unfold lookup_error in Hl'. rewrite coll_set_coll_eq in *.
  assert (Hu : product_url d = url) by by apply find_url_Some in Hd as [? _].
  rewrite (find_url_update_first _ _ _ d) in * by done.
  destruct (FindOne_fails E' name url); [done|].
  destruct (Decode_fails E' _); [done|].
  unfold Main.decode, Main.with_history. simpl. by rewrite elems_get_slice.
Qed.

Lemma Main_add_price_then_get_witness :
  let w := Examples.one_collection "u" [Examples.tracked Examples.amazon_url] in
  let m := Main.mkMongoDB 0 "u" in
  let r := Main.AddPrice Examples.quiet m Examples.amazon_url 120%Q w in
  result (Main.GetProduct Examples.quiet m Examples.amazon_url (world r))
    = (Some (Main.mkProduct Examples.amazon_url "A" "i" (Some ["s"])
               (Some [mkPrice 100%Q 1; mkPrice 80%Q 2; mkPrice 120%Q 0])), None).
Proof.
  intros w m r.
  exact (Main_add_price_then_get Examples.quiet Examples.quiet m
           Examples.amazon_url 120%Q w (Examples.tracked Examples.amazon_url)
           eq_refl eq_refl eq_refl).
Defined.

(** ** An upsert writes one document *)

Lemma find_url_update_first_other url url' upd c :
  url' ≠ url ->
  (forall x, product_url x = url -> product_url (upd x) = url) ->
  find_url url' (update_first url upd c) = find_url url' c.
Proof.
  intros Hne Hupd. unfold find_url. induction c as [|x c IH]; simpl; [done|].
  destruct (matches_url url x) eqn:Hx; simpl.
  - apply matches_url_true in Hx.
    assert (matches_url url' x = false) as ->.
    { apply not_true_iff_false. rewrite matches_url_true. congruence. }
    assert (matches_url url' (upd x) = false) as ->; [|done].
    apply not_true_iff_false. rewrite matches_url_true, (Hupd x Hx). congruence.
  - by rewrite IH.
Qed.

Lemma find_url_app_other url url' c x :
  url' ≠ url -> product_url x = url ->
  find_url url' (c ++ [x]) = find_url url' c.
Proof.
  intros Hne Hx. unfold find_url. induction c as [|y c IH]; simpl.
  - assert (matches_url url' x = false) as ->; [|done].
    apply not_true_iff_false. rewrite matches_url_true. congruence.
  - by rewrite IH.
Qed.

Lemma length_update_first url upd c :
  length (update_first url upd c) = length c.
Proof.
  induction c as [|x c IH]; simpl; [done|].
  destruct (matches_url url x); simpl; auto.
Qed.

(** X5.  [UpsertProduct] of the database package writes at most one
    document, the one under the url of its argument: a call that returns
    an error leaves the world as it was; the documents under other urls
    and the other collections are untouched; a stored url keeps the
    collection at its length, a new url adds exactly the document of the
    product at its end. *)
Theorem Database_UpsertProduct_writes_one
    (E : Env) (DB : nat) (P : Database.Product) (user : string) (w : World) :
  let r := Database.UpsertProduct E DB P user w in
  let url := Database.ProductURL P in
  (result r ≠ None -> world r = w) /\
  (forall url', url' ≠ url ->
     find_url url' (coll (world r) user) = find_url url' (coll w user)) /\
  (forall name, name ≠ user -> coll (world r) name = coll w name) /\
  match find_url url (coll w user) with
  | Some _ => length (coll (world r) user) = length (coll w user)
  | None =>
      result r = None ->
      coll (world r) user =
        coll w user ++ [Database.set_product P (new_document url)]
  end.
Proof.
  intros r url. subst r.
  destruct (lookup_error E user url w) as [msg|] eqn:Hl.
  { rewrite (Database_UpsertProduct_error _ _ _ _ _ _ Hl).
    unfold result, world; simpl. repeat split; try done.
    by destruct (find_url url (coll w user)). }
  destruct (find_url url (coll w user)) as [d|] eqn:Hd.
  - rewrite (Database_UpsertProduct_found _ _ _ _ _ _ Hl Hd).
    unfold result, world; simpl. fold url.
    destruct (UpdateOne_fails E user url); simpl; [done|].
    split; [done|]. split; [|split].
    + intros url' Hne. rewrite coll_set_coll_eq.
      by apply find_url_update_first_other.
    + intros name Hne. by rewrite coll_set_coll_ne.
    + by rewrite coll_set_coll_eq, length_update_first.
  - rewrite (Database_UpsertProduct_new _ _ _ _ _ Hl Hd).
    unfold result, world; simpl. fold url.
    destruct (UpdateOne_fails E user url); simpl; [done|].
    split; [done|]. split; [|split].
    + intros url' Hne. rewrite coll_set_coll_eq.
      by apply find_url_app_other with (url := url).
    + intros name Hne. by rewrite coll_set_coll_ne.
    + intros _. by rewrite coll_set_coll_eq.
Qed.

(** X4.  [UpsertProduct] of mongo.go writes at most one document, the one
    under the url of its argument in the collection of its handle: a call
    that returns an error leaves the world as it was; the documents under
    other urls and the other collections are untouched; a stored url
    keeps the collection at its length, a new url adds exactly the
    document of the product at its end. *)
Theorem Main_UpsertProduct_writes_one
    (E : Env) (m : Main.MongoDB) (P : Main.Product) (w : World) :
  let r := Main.UpsertProduct E m P w in
  let url := Main.ProductURL P in
  let user := Main.collection m in
  ((result r).2 ≠ None -> world r = w) /\
  (forall url', url' ≠ url ->
     find_url url' (coll (world r) user) = find_url url' (coll w user)) /\
  (forall name, name ≠ user -> coll (world r) name = coll w name) /\
  match find_url url (coll w user) with
  | Some _ => length (coll (world r) user) = length (coll w user)
  | None =>
      (result r).2 = None ->
      coll (world r) user =
        coll w user ++ [Main.set_product P (new_document url)]
  end.
Proof.
  intros r url user. subst r.
  destruct (lookup_error E user url w) as [msg|] eqn:Hl.
  { rewrite (Main_UpsertProduct_error _ _ _ _ _ Hl).
    unfold result, world; simpl. repeat split; try done.
    by destruct (find_url url (coll w user)). }
  destruct (find_url url (coll w user)) as [d|] eqn:Hd.
  - rewrite (Main_UpsertProduct_found _ _ _ _ _ Hl Hd).
    unfold result, world; simpl. fold url user.
    destruct (UpdateOne_fails E user url); simpl; [done|].
    split; [done|]. split; [|split].
    + intros url' Hne. rewrite coll_set_coll_eq.
      by apply find_url_update_first_other.
    + intros name Hne. by rewrite coll_set_coll_ne.
    + by rewrite coll_set_coll_eq, length_update_first.
  - rewrite (Main_UpsertProduct_new _ _ _ _ Hl Hd).
    unfold result, world; simpl. fold url user.
    destruct (UpdateOne_fails E user url); simpl; [done|].
    split; [done|]. split; [|split].
    + intros url' Hne. rewrite coll_set_coll_eq.
      by apply find_url_app_other with (url := url).
    + intros name Hne. by rewrite coll_set_coll_ne.
    + intros _. by rewrite coll_set_coll_eq.
Qed.

(** ** The bulk refresh, product by product *)

Lemma find_url_unique c d :
  NoDup (urls c) -> d ∈ c -> find_url (product_url d) c = Some d.
Proof.
  unfold find_url, urls. induction c as [|x c IH]; simpl.
  - by intros _ ?%elem_of_nil.
  - intros [Hx Hc]%NoDup_cons [->|Hin]%elem_of_cons.
    + assert (matches_url (product_url x) x = true) as ->; [|done].
      by apply matches_url_true.
    + assert (matches_url (product_url d) x = false) as ->; [|by apply IH].
      apply not_true_iff_false. rewrite matches_url_true. intros Heq.
      apply Hx. rewrite Heq. apply list_elem_of_fmap. eauto.
Qed.

Section BulkEffect.
Variable E : Env.
Variable m : Main.MongoDB.

(** The collection after one iteration: as it was, or with a price pushed
    to the first document under the url of the item. *)
Lemma Main_UpdatePrices_item_coll x w :
  let name := Main.collection m in
  coll (world (Main.UpdatePrices_item E m x w)) name = coll w name \/
  exists p,
    coll (world (Main.UpdatePrices_item E m x w)) name =
      update_first (product_url x) (pushed (mkPrice p (clock w))) (coll w name).
Proof.
  intros name. rewrite Main_UpdatePrices_item_run.
  destruct (Decode_fails E x); [by left|].
  destruct (vendor_of (product_url x)) as [v|]; [|by left].
  destruct (scraper_of E v (product_url x)) as [s [e|]]; [by left|].
  destruct (ParseFloat E s) as [p [e|]]; [by left|].
  unfold world at 1 3; simpl. rewrite Main_push_current_run. unfold world; simpl.
  fold name. change (Main.ProductURL (Main.decode x)) with (product_url x).
  destruct (push_error E name (product_url x) (coll w name)); [by left|].
  destruct (find_url (product_url x) (coll w name)) eqn:Hf; [|by left].
  right. exists p. by rewrite coll_set_coll_eq.
Qed.

(** The same, when the item is the document stored under its url. *)
Lemma Main_UpdatePrices_item_found x w :
  let name := Main.collection m in
  find_url (product_url x) (coll w name) = Some x ->
  coll (world (Main.UpdatePrices_item E m x w)) name =
    match refresh_price E name x with
    | Some p =>
        update_first (product_url x) (pushed (mkPrice p (clock w))) (coll w name)
    | None => coll w name
    end.
Proof.
  intros name Hx. rewrite Main_UpdatePrices_item_run. unfold refresh_price.
  destruct (Decode_fails E x); [done|].
  destruct (vendor_of (product_url x)) as [v|]; [|done].
  destruct (scraper_of E v (product_url x)) as [s [e|]]; [done|].
  destruct (ParseFloat E s) as [p [e|]]; [done|].
  unfold world at 1; simpl. rewrite Main_push_current_run. unfold world; simpl.
  fold name. change (Main.ProductURL (Main.decode x)) with (product_url x).
  unfold push_error. rewrite Hx.
  destruct (UpdateOne_fails E name (product_url x)); [done|].
  destruct (price_history x); by rewrite ?coll_set_coll_eq.
Qed.

(** An iteration on another url leaves the document found under [url]. *)
Lemma Main_UpdatePrices_item_other x w url :
  product_url x ≠ url ->
  find_url url (coll (world (Main.UpdatePrices_item E m x w)) (Main.collection m))
    = find_url url (coll w (Main.collection m)).
Proof.
  intros Hne.
  destruct (Main_UpdatePrices_item_coll x w) as [->|[p ->]]; [done|].
  apply find_url_update_first_other; [done|]. by intros y Hy.
Qed.

Lemma Main_UpdatePrices_loop_other items w url :
  url ∉ urls items ->
  find_url url (coll (world (for_each items (Main.UpdatePrices_item E m) w))
                  (Main.collection m))
    = find_url url (coll w (Main.collection m)).
Proof.
  revert w. induction items as [|x rest IH]; intros w Hn; [done|].
  unfold urls in Hn. simpl in Hn. apply not_elem_of_cons in Hn as [Hx Hrest].
  rewrite for_each_cons. unfold world at 1; simpl.
  rewrite IH by done. by apply Main_UpdatePrices_item_other.
Qed.

Lemma Main_UpdatePrices_loop_effect items w d :
  NoDup (urls items) -> d ∈ items ->
  find_url (product_url d) (coll w (Main.collection m)) = Some d ->
  exists t,
    find_url (product_url d)
      (coll (world (for_each items (Main.UpdatePrices_item E m) w))
         (Main.collection m))
    = Some match refresh_price E (Main.collection m) d with
           | Some p => pushed (mkPrice p t) d
           | None => d
           end.
Proof.
  revert w. induction items as [|x rest IH]; intros w Hnd Hin Hd.
  { by apply elem_of_nil in Hin. }
  unfold urls in Hnd. simpl in Hnd. apply NoDup_cons in Hnd as [Hx Hrest].
  rewrite for_each_cons. unfold world at 1; simpl.
  destruct (decide (product_url x = product_url d)) as [Heq|Hne].
  - assert (x = d) as ->.
    { apply elem_of_cons in Hin as [->|Hin]; [done|].
      destruct Hx. rewrite Heq. apply list_elem_of_fmap. eauto. }
    exists (clock w). rewrite Main_UpdatePrices_loop_other by done.
    rewrite Main_UpdatePrices_item_found by done.
    destruct (refresh_price E _ d); [|done].
    by apply find_url_update_first.
  - apply IH; [done| |].
    + apply elem_of_cons in Hin as [->|Hin]; [done | done].
    + by rewrite Main_UpdatePrices_item_other.
Qed.

End BulkEffect.

(** X12.  In a collection without two documents of the same url, the bulk
    refresh of mongo.go treats every product once: a product whose
    decoding, scrape, parse and update all succeed is found afterwards
    with exactly one more price, the parsed one, at the end of its history
    and is otherwise as it was; every other product is found exactly as
    it was. *)
Theorem Main_UpdatePrices_one_price_each
    (E : Env) (m : Main.MongoDB) (w : World) (d : Document) :
  let name := Main.collection m in
  let r := Main.UpdatePrices E m w in
  Find_fails E name = None ->
  NoDup (urls (coll w name)) ->
  d ∈ coll w name ->
  exists t,
    find_url (product_url d) (coll (world r) name)
    = Some match refresh_price E name d with
           | Some p => pushed (mkPrice p t) d
           | None => d
           end.
Proof.
  intros name r HF Hnd Hin. subst r.
  rewrite Main_UpdatePrices_run. fold name. rewrite HF. unfold world at 1; simpl.
  apply Main_UpdatePrices_loop_effect; [done..|].
  by apply find_url_unique.
Qed.

(** The theorem on the two products of scenario 6. *)
Lemma Main_UpdatePrices_one_price_each_witness :
  let first := new_document Examples.flipkart_url in
  let second := new_document Examples.amazon_url in
  let w := Examples.one_collection "u" [first; second] in
  let E := Examples.env ("not-a-number", None) ("42", None) in
  let r := Main.UpdatePrices E (Main.mkMongoDB 0 "u") w in
  (refresh_price E "u" first = None /\
   refresh_price E "u" second = Some (Num 42)) /\
  find_url Examples.flipkart_url (coll (world r) "u") = Some first /\
  (exists t, find_url Examples.amazon_url (coll (world r) "u")
             = Some (pushed (mkPrice 42%Q t) second)).
Proof.
  intros first second w E r.
  assert (Hnd : NoDup (urls (coll w "u"))).
  { apply (bool_decide_unpack _). by vm_compute. }
  split; [by vm_compute|]. split.
  - destruct (Main_UpdatePrices_one_price_each E (Main.mkMongoDB 0 "u") w first
                eq_refl Hnd) as [t Ht].
    { apply elem_of_cons. by left. }
    exact Ht.
  - destruct (Main_UpdatePrices_one_price_each E (Main.mkMongoDB 0 "u") w second
                eq_refl Hnd) as [t Ht].
    { apply elem_of_cons. right. apply elem_of_cons. by left. }
    exists t. exact Ht.
Defined.

(** ** The repair pass of the database package *)

Section RepairPass.
Variable E : Env.
Variable DB : nat.
Variable scrape : string -> Database.Product + error.
Variable user : string.

Lemma Database_UpsertProduct_events P w :
  let url := Database.ProductURL P in
  events (Database.UpsertProduct E DB P user w) = [StoreCall DB user (OpFindOne url)] \/
  events (Database.UpsertProduct E DB P user w) =
    [StoreCall DB user (OpFindOne url); StoreCall DB user (OpUpdateOne url)].
Proof.
  intros url.
  destruct (lookup_error E user url w) as [msg|] eqn:Hl.
  { left. by rewrite (Database_UpsertProduct_error _ _ _ _ _ _ Hl). }
  destruct (find_url url (coll w user)) as [d|] eqn:Hd; right.
  - by rewrite (Database_UpsertProduct_found _ _ _ _ _ _ Hl Hd).
  - by rewrite (Database_UpsertProduct_new _ _ _ _ _ Hl Hd).
Qed.

Lemma Database_repair_item_events d w :
  events (Database.UpdateIncompleteRecords_item E DB scrape user d w) =
    match Decode_fails E d with
    | Some msg => [Log (DecodeFailed (Err msg))]
    | None =>
        ScrapeDetails (product_url d) ::
          match scrape (product_url d) with
          | inr e => [Log (UpdateProductFailed (product_url d) e)]
          | inl P =>
              events (Database.UpsertProduct E DB P user w) ++
                [match result (Database.UpsertProduct E DB P user w) with
                 | Some e => Log (UpdateProductFailed (product_url d) e)
                 | None => PrintSuccess (product_url d)
                 end]
          end
    end.
Proof.
  unfold Database.UpdateIncompleteRecords_item.
  destruct (Decode_fails E d); [done|]. io_unfold. simpl.
  destruct (scrape (product_url d)) as [P|e]; simpl; [|done].
  destruct (Database.UpsertProduct E DB P user w) as [[err w1] t1]; simpl.
  by destruct err.
Qed.

Lemma Database_repair_item_scrape d w url :
  ScrapeDetails url ∈ events (Database.UpdateIncompleteRecords_item E DB scrape user d w)
  <-> Decode_fails E d = None /\ product_url d = url.
Proof.
  rewrite Database_repair_item_events.
  destruct (Decode_fails E d).
  { split; [not_in_trace | by intros [? _]]. }
  rewrite elem_of_cons. split.
  - intros [[= <-]|Hin]; [done|]. exfalso. revert Hin.
    destruct (scrape (product_url d)) as [P|e]; [|not_in_trace].
    rewrite elem_of_app.
    destruct (Database_UpsertProduct_events P w) as [-> | ->];
      destruct (result _); intros [Hin|Hin]; revert Hin; not_in_trace.
  - intros [_ <-]. by left.
Qed.

Lemma Database_repair_item_update d w url :
  StoreCall DB user (OpUpdateOne url)
    ∈ events (Database.UpdateIncompleteRecords_item E DB scrape user d w) ->
  exists P, scrape (product_url d) = inl P /\ Database.ProductURL P = url.
Proof.
  rewrite Database_repair_item_events.
  destruct (Decode_fails E d); [not_in_trace|].
  intros [[=]|Hin]%elem_of_cons. revert Hin.
  destruct (scrape (product_url d)) as [P|e]; [|not_in_trace].
  rewrite elem_of_app. intros [Hin|Hin].
  - exists P. split; [done|]. revert Hin.
    destruct (Database_UpsertProduct_events P w) as [-> | ->]; [not_in_trace|].
    intros [[=]|[[= <-]|[]%elem_of_nil]%elem_of_cons]%elem_of_cons. done.
  - exfalso. revert Hin. destruct (result _); not_in_trace.
Qed.

End RepairPass.

(** X13.  The repair pass of the database package never returns an error:
    when the scan cannot start it ends the process and has written
    nothing; otherwise it returns nil, whatever fails on the way.  It
    calls the scraper of details exactly on the urls of the stored
    documents that match the filter and decode, so never on a complete
    product, and every update it issues is for the url of a product that
    the scraper returned for such a document. *)
Theorem Database_repair_pass
    (E : Env) (DB : nat) (scrape : string -> Database.Product + error)
    (user : string) (w : World) :
  let r := Database.UpdateIncompleteRecords E DB scrape user w in
  match Find_fails E user with
  | Some msg => result r = Database.Exit /\ world r = w
  | None =>
      result r = Database.Return None /\
      (forall url,
         ScrapeDetails url ∈ events r <->
         exists d, d ∈ coll w user /\ incomplete_filter d = true /\
                   Decode_fails E d = None /\ product_url d = url) /\
      (forall url,
         StoreCall DB user (OpUpdateOne url) ∈ events r ->
         exists d P, d ∈ coll w user /\ incomplete_filter d = true /\
                     scrape (product_url d) = inl P /\
                     Database.ProductURL P = url)
  end.
Proof.
  intros r. subst r. unfold Database.UpdateIncompleteRecords. io_unfold.
  rewrite Find_run. simpl.
  destruct (Find_fails E user); simpl; [done|].
  set (cursor := List.filter incomplete_filter (coll w user)).
  assert (Hcur : forall d, d ∈ cursor <-> d ∈ coll w user /\ incomplete_filter d = true).
  { intros d. unfold cursor. by rewrite !list_elem_of_In, filter_In. }
  pose proof (for_each_events_inv cursor
                (Database.UpdateIncompleteRecords_item E DB scrape user) w) as Hinv.
  pose proof (for_each_events_intro cursor
                (Database.UpdateIncompleteRecords_item E DB scrape user) w) as Hintro.
  unfold events in Hinv, Hintro.
  destruct (for_each cursor _ w) as [[[] w1] t1]; simpl in *.
  split; [done|]. split.
  - intros url. rewrite app_nil_r. rewrite !elem_of_cons. split.
    + intros [[=]|[[=]|Hin]].
      apply Hinv in Hin as (d & w' & Hd & Hin).
      apply Database_repair_item_scrape in Hin as [Hdec Hu].
      apply Hcur in Hd as [Hd Hf]. eauto 10.
    + intros (d & Hd & Hf & Hdec & Hu). right; right.
      apply Hintro with (x := d); [by apply Hcur|].
      intros w'. by apply Database_repair_item_scrape.
  - intros url. rewrite app_nil_r.
    intros [[=]|[[=]|Hin]%elem_of_cons]%elem_of_cons.
    apply Hinv in Hin as (d & w' & Hd & Hin).
    apply Database_repair_item_update in Hin as (P & HP & Hu).
    apply Hcur in Hd as [Hd Hf]. eauto 10.
Qed.

(** *** What the pass leaves of each product *)

Lemma NoDup_urls_filter f c : NoDup (urls c) -> NoDup (urls (List.filter f c)).
Proof.
  unfold urls. induction c as [|x c IH]; simpl; [done|].
  intros [Hx Hc]%NoDup_cons. destruct (f x); simpl; [|auto].
  apply NoDup_cons. split; [|auto].
  intros (y & Hy & Hin)%list_elem_of_fmap. apply Hx.
  apply list_elem_of_fmap. exists y. split; [done|].
  apply list_elem_of_In in Hin. apply filter_In in Hin as [Hin _].
  by apply list_elem_of_In.
Qed.

Section RepairEffect.
Variable E : Env.
Variable DB : nat.
Variable scrape : string -> Database.Product + error.
Variable user : string.

Lemma Database_UpsertProduct_other P w url :
  url ≠ Database.ProductURL P ->
  find_url url (coll (world (Database.UpsertProduct E DB P user w)) user)
    = find_url url (coll w user).
Proof.
  intros Hne.
  destruct (lookup_error E user (Database.ProductURL P) w) as [msg|] eqn:Hl.
  { by rewrite (Database_UpsertProduct_error _ _ _ _ _ _ Hl). }
  destruct (find_url (Database.ProductURL P) (coll w user)) as [d|] eqn:Hd.
  - rewrite (Database_UpsertProduct_found _ _ _ _ _ _ Hl Hd). unfold world; simpl.
    destruct (UpdateOne_fails E user _); [done|].
    rewrite coll_set_coll_eq. by apply find_url_update_first_other.
  - rewrite (Database_UpsertProduct_new _ _ _ _ _ Hl Hd). unfold world; simpl.
    destruct (UpdateOne_fails E user _); [done|].
    rewrite coll_set_coll_eq.
    by apply find_url_app_other with (url := Database.ProductURL P).
Qed.

Lemma Database_repair_item_other x w url :
  faithful scrape x -> product_url x ≠ url ->
  find_url url
    (coll (world (Database.UpdateIncompleteRecords_item E DB scrape user x w)) user)
    = find_url url (coll w user).
Proof.
  intros Hx Hne. rewrite Database_repair_item_world.
  destruct (Decode_fails E x); [done|].
  destruct (scrape (product_url x)) as [P|e] eqn:HP; [|done].
  apply Database_UpsertProduct_other. rewrite (Hx P HP). congruence.
Qed.

Lemma Database_repair_item_effect d w :
  faithful scrape d ->
  find_url (product_url d) (coll w user) = Some d ->
  find_url (product_url d)
    (coll (world (Database.UpdateIncompleteRecords_item E DB scrape user d w)) user)
    = Some (repaired E scrape user d).
Proof.
  intros Hf Hd. rewrite Database_repair_item_world. unfold repaired.
  destruct (Decode_fails E d) as [msg|] eqn:Hdec; [done|].
  destruct (scrape (product_url d)) as [P|e] eqn:HP; [|done].
  pose proof (Hf P HP) as HU.
  destruct (lookup_error E user (Database.ProductURL P) w) as [msg|] eqn:Hl.
  - rewrite (Database_UpsertProduct_error _ _ _ _ _ _ Hl).
    unfold lookup_error in Hl. rewrite HU, Hd, Hdec in Hl.
    destruct (FindOne_fails E user (product_url d)); [done | discriminate Hl].
  - assert (Hd' : find_url (Database.ProductURL P) (coll w user) = Some d)
      by by rewrite HU.
    rewrite (Database_UpsertProduct_found _ _ _ _ _ _ Hl Hd'). unfold world; simpl.
    unfold lookup_error in Hl. rewrite HU, Hd in Hl. rewrite HU.
    destruct (FindOne_fails E user (product_url d)); [discriminate Hl|].
    destruct (UpdateOne_fails E user (product_url d)); [done|].
    rewrite coll_set_coll_eq. by apply find_url_update_first.
Qed.

Lemma Database_repair_loop_other items w url :
  Forall (faithful scrape) items -> url ∉ urls items ->
  find_url url
    (coll (world (for_each items
                    (Database.UpdateIncompleteRecords_item E DB scrape user) w)) user)
    = find_url url (coll w user).
Proof.
  revert w. induction items as [|x rest IH]; intros w Hf Hn; [done|].
  apply Forall_cons in Hf as [Hx Hrest].
  unfold urls in Hn. simpl in Hn. apply not_elem_of_cons in Hn as [Hne Hn].
  rewrite for_each_cons. unfold world at 1; simpl.
  rewrite IH by done. by apply Database_repair_item_other.
Qed.

Lemma Database_repair_loop_effect items w d :
  Forall (faithful scrape) items -> NoDup (urls items) -> d ∈ items ->
  find_url (product_url d) (coll w user) = Some d ->
  find_url (product_url d)
    (coll (world (for_each items
                    (Database.UpdateIncompleteRecords_item E DB scrape user) w)) user)
    = Some (repaired E scrape user d).
Proof.
  revert w. induction items as [|x rest IH]; intros w Hf Hnd Hin Hd.
  { by apply elem_of_nil in Hin. }
  apply Forall_cons in Hf as [Hx Hrest].
  unfold urls in Hnd. simpl in Hnd. apply NoDup_cons in Hnd as [Hnx Hnrest].
  rewrite for_each_cons. unfold world at 1; simpl.
  destruct (decide (product_url x = product_url d)) as [Heq|Hne].
  - assert (x = d) as ->.
    { apply elem_of_cons in Hin as [->|Hin]; [done|].
      destruct Hnx. rewrite Heq. apply list_elem_of_fmap. eauto. }
    rewrite Database_repair_loop_other by done.
    by apply Database_repair_item_effect.
  - apply IH; [done..| |].
    + apply elem_of_cons in Hin as [->|Hin]; done.
    + by rewrite Database_repair_item_other.
Qed.

End RepairEffect.

(** X14.  What the repair pass of the database package does to each
    product, in a collection without two documents of the same url and
    with a scraper that answers with the url it was asked for: a document
    that matches the filter, decodes, is scraped and written without a
    failure is found afterwards with the name, the image, the
    specifications and the aggregates of the scraped product and with the
    history it had; every other document is found as it was.  A repaired
    document whose scraped name, image and specifications are not empty no
    longer matches the filter. *)
Theorem Database_repair_pass_effect
    (E : Env) (DB : nat) (scrape : string -> Database.Product + error)
    (user : string) (w : World) (d : Document) :
  let r := Database.UpdateIncompleteRecords E DB scrape user w in
  Find_fails E user = None ->
  NoDup (urls (coll w user)) ->
  Forall (faithful scrape) (coll w user) ->
  d ∈ coll w user ->
  find_url (product_url d) (coll (world r) user)
    = Some (if incomplete_filter d then repaired E scrape user d else d) /\
  get [] (price_history (repaired E scrape user d))
    = get [] (price_history d) /\
  (forall P,
     scrape (product_url d) = inl P ->
     spec_complete (Database.ProductName P) (Database.ImageURL P)
       (Database.Specifications P) ->
     repaired E scrape user d ≠ d ->
     incomplete_filter (repaired E scrape user d) = false).
Proof.
  intros r HF Hnd Hfaith Hin. subst r. split; [|split].
  - unfold Database.UpdateIncompleteRecords. io_unfold. rewrite Find_run, HF. simpl.
    set (cursor := List.filter incomplete_filter (coll w user)).
    assert (Hcf : Forall (faithful scrape) cursor).
    { apply Forall_forall. intros x Hx%list_elem_of_In. apply filter_In in Hx as [Hx _].
      rewrite Forall_forall in Hfaith. by apply Hfaith, list_elem_of_In. }
    assert (Hd : find_url (product_url d) (coll w user) = Some d)
      by by apply find_url_unique.
    pose proof (Database_repair_loop_effect E DB scrape user cursor w d Hcf
                  (NoDup_urls_filter _ _ Hnd)) as Heff.
    pose proof (Database_repair_loop_other E DB scrape user cursor w
                  (product_url d) Hcf) as Hoth.
    unfold world in Heff, Hoth.
    destruct (for_each cursor _ w) as [[[] w1] t1]; simpl in *.
    destruct (incomplete_filter d) eqn:Hfd.
    + apply Heff; [|done]. apply list_elem_of_In, filter_In.
      split; [by apply list_elem_of_In | done].
    + rewrite Hoth; [done|].
      intros (x & Hu & Hx)%list_elem_of_fmap.
      apply list_elem_of_In, filter_In in Hx as [Hx Hfx].
      apply list_elem_of_In in Hx.
      pose proof (find_url_unique _ x Hnd Hx) as Hx'. rewrite <- Hu, Hd in Hx'.
      congruence.
  - unfold repaired.
    destruct (Decode_fails E d); [done|].
    destruct (scrape (product_url d)) as [P|e]; [|done].
    destruct (FindOne_fails E user _); [done|].
    destruct (UpdateOne_fails E user _); [done|].
    simpl. by rewrite get_put_get_slice.
  - intros P HP (Hn & Hi & Hs) Hrep. unfold repaired in *. rewrite HP in *.
    destruct (Decode_fails E d); [done|].
    destruct (FindOne_fails E user _); [done|].
    destruct (UpdateOne_fails E user _); [done|].
    unfold incomplete_filter. simpl.
    rewrite !bool_decide_eq_false_2 by (try done; by intros [= ?]).
    simpl. destruct (Database.Specifications P) as [[|s l]|]; simpl in *;
      (lia || done).
Qed.

(** The theorem on a collection with a complete product and one that has
    only its url. *)
Lemma Database_repair_pass_effect_witness :
  let full := Examples.tracked Examples.amazon_url in
  let bare := new_document Examples.flipkart_url in
  let w := Examples.one_collection "u" [full; bare] in
  let scrape url := inl (Examples.rescraped url) in
  let r := Database.UpdateIncompleteRecords Examples.quiet 0 scrape "u" w in
  find_url Examples.amazon_url (coll (world r) "u") = Some full /\
  find_url Examples.flipkart_url (coll (world r) "u")
    = Some (mkDocument Examples.flipkart_url (Val "A2") (Val "i2") (Val ["s2"])
              Null (Val (Num 0)) (Val (Num 0))).
Proof.
  intros full bare w scrape r.
  assert (Hnd : NoDup (urls (coll w "u"))).
  { apply (bool_decide_unpack _). by vm_compute. }
  assert (Hf : Forall (faithful scrape) (coll w "u")).
  { apply Forall_forall. intros x _ P [= <-]. reflexivity. }
  split.
  - refine (proj1 (Database_repair_pass_effect Examples.quiet 0 scrape "u" w full
                     eq_refl Hnd Hf _)).
    apply elem_of_cons. by left.
  - refine (proj1 (Database_repair_pass_effect Examples.quiet 0 scrape "u" w bare
                     eq_refl Hnd Hf _)).
    apply elem_of_cons. right. apply elem_of_cons. by left.
Defined.

(** ** The repair pass of mongo.go, from open to close *)

Section MainRepairPass.
Variable E : Env.
Variable scrape : string -> Main.Product + error.

Lemma Main_UpsertProduct_events db P w :
  let url := Main.ProductURL P in
  let call := StoreCall (Main.client db) (Main.collection db) in
  events (Main.UpsertProduct E db P w) = [call (OpFindOne url)] \/
  events (Main.UpsertProduct E db P w) = [call (OpFindOne url); call (OpUpdateOne url)].
Proof.
  intros url call.
  destruct (lookup_error E (Main.collection db) url w) as [msg|] eqn:Hl.
  { left. by rewrite (Main_UpsertProduct_error _ _ _ _ _ Hl). }
  destruct (find_url url (coll w (Main.collection db))) as [d|] eqn:Hd; right.
  - by rewrite (Main_UpsertProduct_found _ _ _ _ _ Hl Hd).
  - by rewrite (Main_UpsertProduct_new _ _ _ _ Hl Hd).
Qed.

Lemma Main_repair_item_events db d w :
  events (Main.UpdateIncompleteRecords_item E scrape db d w) =
    match Decode_fails E d with
    | Some msg => [Log (DecodeFailed (Err msg))]
    | None =>
        ScrapeDetails (product_url d) ::
          match scrape (product_url d) with
          | inr e => [Log (UpdateProductFailed (product_url d) e)]
          | inl P =>
              events (Main.UpsertProduct E db P w) ++
                [match (result (Main.UpsertProduct E db P w)).2 with
                 | Some e => Log (UpdateProductFailed (product_url d) e)
                 | None => PrintSuccess (product_url d)
                 end]
          end
    end.
Proof.
  unfold Main.UpdateIncompleteRecords_item.
  destruct (Decode_fails E d); [done|]. io_unfold. simpl.
  destruct (scrape (product_url d)) as [P|e]; simpl; [|done].
  destruct (Main.UpsertProduct E db P w) as [[[P' err] w1] t1]; simpl.
  by destruct err.
Qed.

Lemma Main_repair_item_scrape db d w url :
  ScrapeDetails url ∈ events (Main.UpdateIncompleteRecords_item E scrape db d w)
  <-> Decode_fails E d = None /\ product_url d = url.
Proof.
  rewrite Main_repair_item_events.
  destruct (Decode_fails E d).
  { split; [not_in_trace | by intros [? _]]. }
  rewrite elem_of_cons. split.
  - intros [[= <-]|Hin]; [done|]. exfalso. revert Hin.
    destruct (scrape (product_url d)) as [P|e]; [|not_in_trace].
    rewrite elem_of_app.
    destruct (Main_UpsertProduct_events db P w) as [-> | ->];
      destruct (result _).2; intros [Hin|Hin]; revert Hin; not_in_trace.
  - intros [_ <-]. by left.
Qed.

Lemma Main_repair_item_no_disconnect db d w c :
  Disconnect c ∉ events (Main.UpdateIncompleteRecords_item E scrape db d w).
Proof.
  rewrite Main_repair_item_events.
  destruct (Decode_fails E d); [not_in_trace|].
  intros [[=]|Hin]%elem_of_cons. revert Hin.
  destruct (scrape (product_url d)) as [P|e]; [|not_in_trace].
  rewrite elem_of_app.
  destruct (Main_UpsertProduct_events db P w) as [-> | ->];
    destruct (result _).2; intros [Hin|Hin]; revert Hin; not_in_trace.
Qed.

End MainRepairPass.

(** The four conjuncts of the theorem below when the pass ends the
    process. *)
Ltac repair_exit :=
  split; [split; [done | intros (? & ? & ? & ?); done]|];
  split; [split; [intros _ (? & ? & ? & ?); done | done]|];
  split; [intros _; split; [done | not_in_trace] | done].

(** X15.  [UpdateIncompleteRecords] of mongo.go never returns an error.  It
    returns nil exactly when the connection, the ping, the creation of the
    index and the scan on "cypher" succeed; otherwise it ends the process,
    having written no document and without disconnecting the client it
    opened.  When it returns, the last thing it does is to disconnect that
    client, once, and the scraper of details was called exactly on the
    urls of the documents of "cypher" that match the filter and decode. *)
Theorem Main_repair_pass
    (E : Env) (scrape : string -> Main.Product + error) (uri : string)
    (h : Main.MongoDB) (w : World) :
  let r := Main.UpdateIncompleteRecords E scrape uri h w in
  let c := clients w in
  let opened :=
    Connect_fails E uri = None /\ Ping_fails E = None /\
    CreateIndex_fails E "cypher" = None /\ Find_fails E "cypher" = None in
  (result r = Main.Return None <-> opened) /\
  (result r = Main.Exit <-> ~ opened) /\
  (result r = Main.Exit ->
     store (world r) = store w /\ Disconnect c ∉ events r) /\
  (result r = Main.Return None ->
     (exists t, events r = t ++ [Disconnect c] /\ Disconnect c ∉ t) /\
     forall url,
       ScrapeDetails url ∈ events r <->
       exists d, d ∈ coll w "cypher" /\ incomplete_filter d = true /\
                 Decode_fails E d = None /\ product_url d = url).
Proof.
  intros r c opened. subst r opened.
  unfold Main.UpdateIncompleteRecords. io_unfold. rewrite Main_NewMongoDB_run.
  fold c. set (w0 := mkWorld (store w) (clock w) (S c)).
  destruct (Connect_fails E uri); simpl.
  { repair_exit. }
  destruct (Ping_fails E); simpl.
  { repair_exit. }
  destruct (CreateIndex_fails E "cypher"); simpl.
  { repair_exit. }
  rewrite Find_run. simpl.
  destruct (Find_fails E "cypher"); simpl.
  { repair_exit. }
  set (db := Main.mkMongoDB c "cypher").
  set (cursor := List.filter incomplete_filter (coll w0 "cypher")).
  assert (Hcur : forall d, d ∈ cursor <-> d ∈ coll w "cypher" /\ incomplete_filter d = true).
  { intros d. unfold cursor. by rewrite !list_elem_of_In, filter_In. }
  pose proof (for_each_events_inv cursor
                (Main.UpdateIncompleteRecords_item E scrape db) w0) as Hinv.
  pose proof (for_each_events_intro cursor
                (Main.UpdateIncompleteRecords_item E scrape db) w0) as Hintro.
  unfold events in Hinv, Hintro.
  destruct (for_each cursor _ w0) as [[[] w1] t1]; simpl in *.
  split; [done|]. split; [split; [done | intros H; by destruct H]|].
  split; [done|]. intros _. split.
  - eexists (_ :: _ :: _ :: _ :: _ :: t1). split; [reflexivity|].
    intros Hin. repeat (apply elem_of_cons in Hin as [[=]|Hin]).
    apply Hinv in Hin as (d & w' & _ & Hin).
    by apply Main_repair_item_no_disconnect in Hin.
  - intros url. rewrite !elem_of_cons, elem_of_app, list_elem_of_singleton. split.
    + intros [[=]|[[=]|[[=]|[[=]|[[=]|[Hin|[=]]]]]]].
      apply Hinv in Hin as (d & w' & Hd & Hin).
      apply Main_repair_item_scrape in Hin as [Hdec Hu].
      apply Hcur in Hd as [Hd Hf]. eauto 10.
    + intros (d & Hd & Hf & Hdec & Hu). do 5 right. left.
      apply Hintro with (x := d); [by apply Hcur|].
      intros w'. by apply Main_repair_item_scrape.
Qed.

(** ** The vendor test *)

Lemma prefix_append sub s :
  String.prefix sub s = true <-> exists post, s = (sub ++ post)%string.
Proof.
  revert s. induction sub as [|a sub IH]; intros s; destruct s as [|b s]; simpl.
  - split; [intros _; by exists ""%string | done].
  - split; [intros _; by exists (String b s) | done].
  - split; [intros [=] | intros [post [=]]].
  - destruct (Ascii.ascii_dec a b) as [->|Hne].
    + rewrite IH. split; intros [post H]; exists post.
      * by subst.
      * change (String b sub +:+ post) with (String b (sub +:+ post)) in H.
        congruence.
    + split; [intros [=]|]. intros [post H].
      change (String a sub +:+ post) with (String a (sub +:+ post)) in H.
      congruence.
Qed.

(** X17.  The test both packages make on the url of a product,
    [strings.Contains(url, name)], holds exactly when the name occurs in
    the url as a contiguous run of characters, wherever it is: in the
    host, the path or the query.  So a url is sent to the Flipkart scraper
    by the loop of mongo.go exactly when "flipkart" occurs in it, and to
    the Amazon scraper exactly when "amazon" occurs in it and "flipkart"
    does not. *)
Theorem strings_Contains_substring (s sub : string) :
  (strings_Contains s sub = true <->
     exists pre post, s = (pre ++ sub ++ post)%string) /\
  (vendor_of s = Some Flipkart <->
     exists pre post, s = (pre ++ "flipkart" ++ post)%string) /\
  (vendor_of s = Some Amazon <->
     (exists pre post, s = (pre ++ "amazon" ++ post)%string) /\
     ~ exists pre post, s = (pre ++ "flipkart" ++ post)%string).
Proof.
  assert (Hc : forall s sub, strings_Contains s sub = true <->
                 exists pre post, s = (pre ++ sub ++ post)%string).
  { clear. intros s sub. split.
    - induction s as [|a s IH].
      + change (strings_Contains "" sub) with (String.prefix sub "" || false).
        rewrite orb_false_r. intros [post ->]%prefix_append.
        by exists ""%string, post.
      + change (strings_Contains (String a s) sub)
          with (String.prefix sub (String a s) || strings_Contains s sub).
        rewrite orb_true_iff. intros [H|H].
        * apply prefix_append in H as [post ->]. by exists ""%string, post.
        * destruct (IH H) as (pre & post & ->). by exists (String a pre), post.
    - intros (pre & post & ->). induction pre as [|a pre IH].
      + change ("" +:+ sub +:+ post) with (sub +:+ post).
        assert (String.prefix sub (sub +:+ post) = true) as Hp
          by (apply prefix_append; eauto).
        destruct (sub +:+ post);
          [change (strings_Contains "" sub) with (String.prefix sub "" || false)
          |match goal with |- strings_Contains (String ?b ?s0) _ = _ =>
             change (strings_Contains (String b s0) sub)
               with (String.prefix sub (String b s0) || strings_Contains s0 sub)
           end];
          by rewrite Hp.
      + change (String a pre +:+ sub +:+ post)
          with (String a (pre +:+ sub +:+ post)).
        change (strings_Contains (String a (pre +:+ sub +:+ post)) sub)
          with (String.prefix sub (String a (pre +:+ sub +:+ post))
                || strings_Contains (pre +:+ sub +:+ post) sub).
        rewrite IH. apply orb_true_r. }
  split; [apply Hc|]. unfold vendor_of.
  destruct (strings_Contains s "flipkart") eqn:Hf.
  - apply Hc in Hf. split; [done|]. split; [done | by intros [_ ?]].
  - assert (Hnf : ~ exists pre post, s = (pre ++ "flipkart" ++ post)%string).
    { rewrite <- Hc. congruence. }
    destruct (strings_Contains s "amazon") eqn:Ha.
    + apply Hc in Ha. split; [split; [done | by intros ?]|]. done.
    + split; [split; [done | by intros ?]|].
      split; [done|]. intros [Ha' _]. apply Hc in Ha'. congruence.
Qed.

(** ** The dispatch of the database package, as its braces nest it *)

(** X16.  What [UpdatePrices] of the database package does with the url
    of its product: without "flipkart" in the url it returns nil at once,
    with no scraper call, no diagnostic and no write; the Flipkart scraper
    is called exactly when the url contains "flipkart"; the Amazon scraper
    is called, and an update is issued, only when the url contains both
    "flipkart" and "amazon"; the unsupported-vendor diagnostic is logged
    only for a url with "flipkart" and without "amazon", after a Flipkart
    scrape that succeeded, and then the call returns nil and has written
    nothing. *)
Theorem Database_UpdatePrices_dispatch
    (E : Env) (DB : nat) (user : string) (product : Database.Product) (w : World) :
  let r := Database.UpdatePrices E DB user product w in
  let url := Database.ProductURL product in
  (strings_Contains url "flipkart" = false -> r = ((product, None), w, [])) /\
  (forall url', ScrapePrice Flipkart url' ∈ events r <->
     url' = url /\ strings_Contains url "flipkart" = true) /\
  (forall url', ScrapePrice Amazon url' ∈ events r ->
     url' = url /\ strings_Contains url "flipkart" = true /\
     strings_Contains url "amazon" = true) /\
  (forall c name url', StoreCall c name (OpUpdateOne url') ∈ events r ->
     url' = url /\ strings_Contains url "flipkart" = true /\
     strings_Contains url "amazon" = true) /\
  (forall url', Log (UnsupportedVendor url') ∈ events r ->
     strings_Contains url "flipkart" = true /\
     strings_Contains url "amazon" = false /\
     (ScrapePriceFlipkart E url).2 = None /\
     (result r).2 = None /\ world r = w).
Proof.
  intros r url. subst r. unfold Database.UpdatePrices. fold url.
  destruct (strings_Contains url "flipkart") eqn:Hf.
  2:{ split; [done|]. unfold events; simpl.
      split; [intros url'; split; [not_in_trace | by intros [_ ?]]|].
      split; [intros url'; not_in_trace|].
      split; [intros c name url'; not_in_trace|]. intros url'. not_in_trace. }
  split; [done|]. io_unfold. simpl.
  assert (Hhead : forall url' t, ScrapePrice Flipkart url' ∉ t ->
            (ScrapePrice Flipkart url' ∈ ScrapePrice Flipkart url :: t <->
             url' = url /\ true = true)).
  { intros url' t Hn. rewrite elem_of_cons. split.
    - intros [[= ->]|?]; [done | by destruct Hn].
    - intros [-> _]. by left. }
  destruct (ScrapePriceFlipkart E url) as [s1 [e1|]]; simpl.
  { split; [intros url'; apply Hhead; not_in_trace|].
    split; [intros url'; not_in_trace|].
    split; [intros c name url'; not_in_trace|]. intros url'. not_in_trace. }
  destruct (ParseFloat E s1) as [p1 [e|]]; simpl.
  { split; [intros url'; apply Hhead; not_in_trace|].
    split; [intros url'; not_in_trace|].
    split; [intros c name url'; not_in_trace|]. intros url'. not_in_trace. }
  destruct (strings_Contains url "amazon") eqn:Ha; simpl.
  2:{ split; [intros url'; apply Hhead; not_in_trace|].
      split; [intros url'; not_in_trace|].
      split; [intros c name url'; not_in_trace|]. by intros url' _. }
  destruct (ScrapePriceAmazon E url) as [s2 e2]; simpl.
  destruct (ParseFloat E s2) as [p [e|]]; simpl.
  { destruct e2; simpl.
    all: split; [intros url'; apply Hhead; not_in_trace|].
    all: split; [intros url'; intros [[=]|[[= ->]|Hin]%elem_of_cons]%elem_of_cons;
                 [done | exfalso; revert Hin; not_in_trace]|].
    all: split; [intros c name url'; not_in_trace|]; intros url'; not_in_trace. }
  destruct e2; simpl; rewrite Database_persist_run; simpl;
    fold url; destruct (push_error E user url (coll w user)); simpl.
  all: split; [intros url'; apply Hhead; not_in_trace|].
  all: split; [intros url'; intros [[=]|[[= ->]|Hin]%elem_of_cons]%elem_of_cons;
               [done | exfalso; revert Hin; not_in_trace]|].
  all: split; [|intros url'; not_in_trace].
  all: intros c name url' Hin;
    repeat (apply elem_of_cons in Hin as [Hin|Hin];
            [first [discriminate Hin | by injection Hin as _ _ ->]|]);
    by apply elem_of_nil in Hin.
Qed.
